(** * Lock-free containers with hazard pointers: Queue_TS and Stack_TS

    A shallow embedding of [queue_ts.hpp] and [stack_ts.hpp].

    - A [node*] is an [option addr]: [None] is [nullptr].  Nodes live in a
      finite map from addresses to node records (the C++ free store);
      [delete] removes the binding, dereferencing an address that is not
      bound is undefined behaviour ([Fault]).
    - [new node] returns an address that is not bound; nothing else is
      assumed of the allocator (it may hand a freed address out again).
      Allocation is assumed to succeed.
    - Every member function is a function from the object's state to an
      [outcome].  The unbounded loops of the source (spinning for a hazard
      slot, retrying a compare-and-swap) take a [fuel] argument; [Spin] says
      that the loop was still going round when the fuel ran out.
    - [std::atomic] operations are sequentially consistent, so each is one
      indivisible state change; [compare_exchange_weak] is taken without
      spurious failures. *)

From stdpp Require Import gmap list strings.
From Stdlib Require Import ZArith NArith Lia.

Abbreviation addr := positive.

(** ** Outcomes and the state monad of a member function *)

Inductive outcome (St A : Type) : Type :=
  | Ret (a : A) (s : St)          (* normal return *)
  | Throw (msg : string) (s : St) (* a C++ exception propagates *)
  | Fault                         (* undefined behaviour *)
  | Spin.                         (* out of fuel inside a loop *)
Arguments Ret {St A} a s.
Arguments Throw {St A} msg s.
Arguments Fault {St A}.
Arguments Spin {St A}.

Definition M (St A : Type) : Type := St -> outcome St A.

Definition ret {St A} (a : A) : M St A := fun s => Ret a s.

Definition bind {St A B} (c : M St A) (k : A -> M St B) : M St B :=
  fun s =>
    match c s with
    | Ret a s' => k a s'
    | Throw msg s' => Throw msg s'
    | Fault => Fault
    | Spin => Spin
    end.

Definition gets {St A} (f : St -> A) : M St A := fun s => Ret (f s) s.
Definition modify {St} (f : St -> St) : M St unit := fun s => Ret tt (f s).
Definition fault {St A} : M St A := fun _ => Fault.
Definition spin {St A} : M St A := fun _ => Spin.

Declare Scope m_scope.
Delimit Scope m_scope with m.
Notation "'let*' x ':=' c 'in' k" := (bind c (fun x => k))
  (at level 10, x name, c at level 100, k at level 200, only parsing) : m_scope.
Notation "'let*' ( x , y ) ':=' c 'in' k" := (bind c (fun '(x, y) => k))
  (at level 10, x name, y name, c at level 100, k at level 200, only parsing) : m_scope.
Notation "c ';;' k" := (bind c (fun _ => k))
  (at level 100, k at level 200, right associativity, only parsing) : m_scope.
Open Scope m_scope.

(** [size_t] is 64 bits wide; [++] and [--] wrap around. *)
Definition size_max : N := 2 ^ 64.
Definition size_incr (n : N) : N := ((n + 1) mod size_max)%N.
Definition size_decr (n : N) : N := ((n + (size_max - 1)) mod size_max)%N.

(** ** Queue_TS *)

Module Queue.
Section Queue.
Context {T : Type}.

(** [struct Queue_TS<T>::node]; [data] is the boxed payload ([T*]). *)
Record node : Type := Node {
  taken : bool;
  data : option T;
  next : option addr
}.

(** [struct Queue_TS<T>::hazard]. *)
Record hazard : Type := Hazard {
  slot_taken : bool;
  pointer : option addr
}.

(** Ghost record of what the reclamation code did with a node: the
    address, and the hazard table as it stood at that moment. *)
Inductive disposal : Type :=
  | Freed (a : addr) (table : list hazard)
  | Deferred (a : addr) (table : list hazard).

Record Queue_TS : Type := Mk {
  mem : gmap addr node;
  head : option addr;
  tail : option addr;
  garbage : option addr;
  garbage_size : N;
  garbage_max_size : N;
  hazard_holder : list hazard;
  hazard_holder_size : nat;
  history : list disposal       (* ghost, newest first *)
}.

Definition set_mem (f : gmap addr node -> gmap addr node) (q : Queue_TS) :=
  Mk (f (mem q)) (head q) (tail q) (garbage q) (garbage_size q)
     (garbage_max_size q) (hazard_holder q) (hazard_holder_size q) (history q).
Definition set_head (p : option addr) (q : Queue_TS) :=
  Mk (mem q) p (tail q) (garbage q) (garbage_size q)
     (garbage_max_size q) (hazard_holder q) (hazard_holder_size q) (history q).
Definition set_tail (p : option addr) (q : Queue_TS) :=
  Mk (mem q) (head q) p (garbage q) (garbage_size q)
     (garbage_max_size q) (hazard_holder q) (hazard_holder_size q) (history q).
Definition set_garbage (p : option addr) (q : Queue_TS) :=
  Mk (mem q) (head q) (tail q) p (garbage_size q)
     (garbage_max_size q) (hazard_holder q) (hazard_holder_size q) (history q).
Definition set_garbage_size (f : N -> N) (q : Queue_TS) :=
  Mk (mem q) (head q) (tail q) (garbage q) (f (garbage_size q))
     (garbage_max_size q) (hazard_holder q) (hazard_holder_size q) (history q).
Definition set_hazard_holder (f : list hazard -> list hazard) (q : Queue_TS) :=
  Mk (mem q) (head q) (tail q) (garbage q) (garbage_size q)
     (garbage_max_size q) (f (hazard_holder q)) (hazard_holder_size q) (history q).
Definition record (d : disposal) (q : Queue_TS) :=
  Mk (mem q) (head q) (tail q) (garbage q) (garbage_size q)
     (garbage_max_size q) (hazard_holder q) (hazard_holder_size q) (d :: history q).

(** The allocator behind [new node]. *)
Variable alloc : gmap addr node -> addr.

(** *** Memory accesses *)

(** [p->...]: the node [p] points to. *)
Definition deref (p : option addr) : M Queue_TS (addr * node) :=
  fun q =>
    match p with
    | None => Fault
    | Some a => match mem q !! a with
                | Some n => Ret (a, n) q
                | None => Fault
                end
    end.

Definition update (a : addr) (n : node) : M Queue_TS unit :=
  modify (set_mem <[a := n]>).

(** [new node{}]: [taken] clear, [data] and [next] null. *)
Definition new_node : M Queue_TS addr :=
  fun q => let a := alloc (mem q) in
           Ret a (set_mem <[a := Node false None None]> q).

(** [p->taken.test_and_set()] *)
Definition test_and_set (p : option addr) : M Queue_TS bool :=
  let* (a, n) := deref p in
  update a (Node true (data n) (next n));;
  ret (taken n).

(** [p->taken.clear()] *)
Definition clear_taken (p : option addr) : M Queue_TS unit :=
  let* (a, n) := deref p in
  update a (Node false (data n) (next n)).

(** [p->data.store(d)] *)
Definition store_data (p : option addr) (d : option T) : M Queue_TS unit :=
  let* (a, n) := deref p in
  update a (Node (taken n) d (next n)).

(** [p->next = x] *)
Definition store_next (p x : option addr) : M Queue_TS unit :=
  let* (a, n) := deref p in
  update a (Node (taken n) (data n) x).

(** [p->data.compare_exchange_strong(dummy_ptr, new_data)] with
    [dummy_ptr == nullptr]: succeeds exactly when the payload is null. *)
Definition claim_data (p : option addr) (new_data : T) : M Queue_TS bool :=
  let* (a, n) := deref p in
  match data n with
  | None => update a (Node (taken n) (Some new_data) (next n));; ret true
  | Some _ => ret false
  end.

(** [hazard_holder[slot]]; an index past the array is undefined. *)
Definition slot_ref (slot : nat) : M Queue_TS hazard :=
  fun q => match hazard_holder q !! slot with
           | Some h => Ret h q
           | None => Fault
           end.

Definition slot_update (slot : nat) (h : hazard) : M Queue_TS unit :=
  modify (set_hazard_holder <[slot := h]>).

(** *** The constructor *)

Definition ctor (__hazard_holder_size : nat) (__garbage_max_size : N) : Queue_TS :=
  let new_node := alloc ∅ in
  {| mem := {[ new_node := Node false None None ]};
     head := Some new_node;
     tail := Some new_node;
     garbage := None;
     garbage_size := 0;
     garbage_max_size := __garbage_max_size;
     hazard_holder := replicate __hazard_holder_size (Hazard false None);
     hazard_holder_size := __hazard_holder_size;
     history := [] |}.

(** *** push *)

(** The [do ... while] of [push]: read the tail, try to claim its payload. *)
Fixpoint push_claim (fuel : nat) (new_data : T) : M Queue_TS (option addr) :=
  match fuel with
  | O => spin
  | S fuel' =>
      let* old_tail := gets tail in
      let* ok := claim_data old_tail new_data in
      if ok : bool then ret old_tail else push_claim fuel' new_data
  end.

Definition push (fuel : nat) (new_value : T) : M Queue_TS unit :=
  let* new_node := new_node in
  let* old_tail := push_claim fuel new_value in
  store_next old_tail (Some new_node);;
  modify (set_tail (Some new_node)).

(** *** Hazard slots *)

(** First loop of [load_head_set_hazard]: spin over the slots until a
    [test_and_set] finds one free. *)
Fixpoint find_slot (fuel : nat) (slot : nat) : M Queue_TS nat :=
  match fuel with
  | O => spin
  | S fuel' =>
      let* h := slot_ref slot in
      slot_update slot (Hazard true (pointer h));;
      if slot_taken h then
        let* size := gets hazard_holder_size in
        find_slot fuel' (S slot mod size)
      else ret slot
  end.

(** [hazard_holder[slot].pointer.store(old_head)] *)
Definition publish (slot : nat) (old_head : option addr) : M Queue_TS unit :=
  let* h := slot_ref slot in
  slot_update slot (Hazard (slot_taken h) old_head).

(** Second loop: publish the head in the slot until it is read stable. *)
Fixpoint publish_head (fuel : nat) (slot : nat) : M Queue_TS (option addr) :=
  match fuel with
  | O => spin
  | S fuel' =>
      let* old_head := gets head in
      publish slot old_head;;
      let* now := gets head in
      if decide (old_head = now) then ret old_head else publish_head fuel' slot
  end.

Definition load_head_set_hazard (fuel : nat) : M Queue_TS (nat * option addr) :=
  let* slot := find_slot fuel 0 in
  let* old_head := publish_head fuel slot in
  ret (slot, old_head).

Definition clear_hazard (slot : nat) : M Queue_TS unit :=
  let* h := slot_ref slot in
  slot_update slot (Hazard (slot_taken h) None);;
  let* h := slot_ref slot in
  slot_update slot (Hazard false (pointer h)).

(** The [for] loop of [is_hazardous], [count] slots left from index [i]. *)
Fixpoint scan_hazards (count i : nat) (disposable : option addr) : M Queue_TS bool :=
  match count with
  | O => ret false
  | S count' =>
      let* h := slot_ref i in
      if decide (pointer h = disposable) then ret true
      else scan_hazards count' (S i) disposable
  end.

Definition is_hazardous (disposable : option addr) : M Queue_TS bool :=
  let* size := gets hazard_holder_size in
  scan_hazards size 0 disposable.

(** *** The garbage list *)

(** The [compare_exchange_weak] loop of [push_to_garbage]: on failure the
    expected value, [disposable->next], is refreshed from [garbage]. *)
Fixpoint garbage_cas (fuel : nat) (disposable : option addr) : M Queue_TS unit :=
  match fuel with
  | O => spin
  | S fuel' =>
      let* (_, n) := deref disposable in
      let* g := gets garbage in
      if decide (g = next n) then modify (set_garbage disposable)
      else store_next disposable g;; garbage_cas fuel' disposable
  end.

Definition push_to_garbage (fuel : nat) (disposable : option addr) : M Queue_TS unit :=
  let* (a, _) := deref disposable in
  let* table := gets hazard_holder in
  modify (record (Deferred a table));;
  let* g := gets garbage in
  store_next disposable g;;
  garbage_cas fuel disposable;;
  modify (set_garbage_size size_incr).

Definition is_garbage_full : M Queue_TS bool :=
  let* size := gets garbage_size in
  let* max := gets garbage_max_size in
  if decide (size < max)%N then ret false else ret true.

(** [delete p]: [~node] first deletes [next] when it is not null, then the
    payload, then the node's storage is released. *)
Fixpoint delete_node (fuel : nat) (p : option addr) : M Queue_TS unit :=
  match fuel with
  | O => spin
  | S fuel' =>
      let* (a, n) := deref p in
      (match next n with
       | Some _ => delete_node fuel' (next n)
       | None => ret tt
       end);;
      let* table := gets hazard_holder in
      modify (record (Freed a table));;
      modify (set_mem (delete a))
  end.

(** The [while(__garbage)] loop of [collect_garbage]. *)
Fixpoint collect_loop (fuel : nat) (__garbage : option addr) : M Queue_TS unit :=
  match __garbage with
  | None => ret tt
  | Some _ =>
      match fuel with
      | O => spin
      | S fuel' =>
          modify (set_garbage_size size_decr);;
          let* (_, n) := deref __garbage in
          let tmp := next n in
          store_next __garbage None;;
          let* hz := is_hazardous __garbage in
          (if hz : bool then push_to_garbage fuel __garbage
           else delete_node fuel __garbage);;
          collect_loop fuel' tmp
      end
  end.

Definition collect_garbage (fuel : nat) : M Queue_TS unit :=
  let* __garbage := gets garbage in
  modify (set_garbage None);;
  collect_loop fuel __garbage.

(** *** pop *)

(** Lines 230-235: try the claim flag of the protected head, then give the
    hazard slot back. *)
Definition pop_try (slot : nat) (old_head : option addr) : M Queue_TS bool :=
  let* taken := test_and_set old_head in
  clear_hazard slot;;
  ret taken.

(** The [while(true)] of [pop]. *)
Fixpoint pop_claim (fuel : nat) : M Queue_TS (option addr) :=
  match fuel with
  | O => spin
  | S fuel' =>
      let* (slot, old_head) := load_head_set_hazard fuel in
      let* taken := pop_try slot old_head in
      if taken : bool then pop_claim fuel' else ret old_head
  end.

(** Lines 250-256: move [head] past the claimed node, take its payload and
    null its two pointers. *)
Definition unlink (old_head : option addr) : M Queue_TS (option T) :=
  let* (_, n) := deref old_head in
  modify (set_head (next n));;
  let* (_, n) := deref old_head in
  let old_data := data n in
  store_data old_head None;;
  store_next old_head None;;
  ret old_data.

(** Lines 258-266, given what [is_hazardous(old_head)] returned. *)
Definition dispose (fuel : nat) (old_head : option addr) (hz : bool)
    (old_data : option T) : M Queue_TS (option T) :=
  (if hz then push_to_garbage fuel old_head
   else delete_node fuel old_head);;
  let* full := is_garbage_full in
  (if full : bool then collect_garbage fuel else ret tt);;
  ret old_data.

(** From [if(old_head == tail.load())] to the end of [pop]. *)
Definition pop_finish (fuel : nat) (old_head : option addr) : M Queue_TS (option T) :=
  let* t := gets tail in
  if decide (old_head = t) then
    clear_taken old_head;;
    ret None
  else
    let* old_data := unlink old_head in
    let* hz := is_hazardous old_head in
    dispose fuel old_head hz old_data.

Definition pop (fuel : nat) : M Queue_TS (option T) :=
  let* old_head := pop_claim fuel in
  pop_finish fuel old_head.

(** *** The destructor *)

(** [~Queue_TS()]: [delete head.load()], then [delete __garbage] when the
    garbage list is not empty.  [delete] of a null pointer does nothing.
    The array [hazard_holder] is not released. *)
Definition dtor (fuel : nat) : M Queue_TS unit :=
  let* h := gets head in
  (match h with
   | Some _ => delete_node fuel h
   | None => ret tt
   end);;
  let* __garbage := gets garbage in
  match __garbage with
  | Some _ => delete_node fuel __garbage
  | None => ret tt
  end.

End Queue.
End Queue.

(** ** Threads on a Queue_TS

    Several threads run [push] and [pop] on one queue.  A thread is
    interrupted only at the places listed in [pc]; between two of them it
    runs the statements of the source without interruption, so every run of
    this machine is a run of the program. *)

Module QueueThreads.
Section QueueThreads.
Context {T : Type}.
Import Queue.
Variable alloc : gmap addr (node (T:=T)) -> addr.

(** Where a thread stands inside a call. *)
Inductive pc : Type :=
  (* between two calls *)
  | Idle
  (* in [push], after [old_tail = tail.load()], before the
     [compare_exchange_strong] *)
  | PushLoaded (new_data : T) (new_node : addr) (old_tail : option addr)
  (* in [load_head_set_hazard], after [old_head = head.load()], before
     [pointer.store(old_head)] *)
  | PopLoaded (slot : nat) (old_head : option addr)
  (* in [load_head_set_hazard], after [pointer.store(old_head)], before
     the test [old_head != head.load()] *)
  | PopPublished (slot : nat) (old_head : option addr)
  (* in [pop], after [load_head_set_hazard] returned, before
     [old_head->taken.test_and_set()] *)
  | PopProtected (slot : nat) (old_head : option addr)
  (* in [pop], after [is_hazardous(old_head)] returned [hz], before
     [push_to_garbage] or [delete] *)
  | PopChecked (old_head : option addr) (hz : bool) (old_data : option T).

(** A producer pushes the values of [todo] in order; a consumer calls
    [pop] until one call returns the empty result. *)
Inductive role : Type :=
  | Producer (todo : list T)
  | Consumer (drained : bool).

Record thread : Type := Thread {
  job : role;
  at_pc : pc;
  pushed : list T;    (* values whose [push] has returned, oldest first *)
  popped : list T     (* values its [pop]s have returned, oldest first *)
}.

Definition finished (t : thread) : bool :=
  match job t, at_pc t with
  | Producer [], Idle => true
  | Consumer true, Idle => true
  | _, _ => false
  end.

(** A [pop] of the consumer [t] has returned [r]. *)
Definition returned (t : thread) (r : option T) : thread :=
  match r with
  | Some v => Thread (Consumer false) Idle (pushed t) (popped t ++ [v])
  | None => Thread (Consumer true) Idle (pushed t) (popped t)
  end.

(** The next uninterrupted stretch of a thread. *)
Definition thread_step (fuel : nat) (t : thread) : M Queue_TS thread :=
  match job t, at_pc t with
  | Producer (v :: todo), Idle =>
      let* new_node := new_node alloc in
      let* old_tail := gets tail in
      ret (Thread (Producer todo) (PushLoaded v new_node old_tail) (pushed t) (popped t))
  | Producer todo, PushLoaded v new_node old_tail =>
      let* ok := claim_data old_tail v in
      if ok : bool then
        store_next old_tail (Some new_node);;
        modify (set_tail (Some new_node));;
        ret (Thread (Producer todo) Idle (pushed t ++ [v]) (popped t))
      else
        let* old_tail := gets tail in
        ret (Thread (Producer todo) (PushLoaded v new_node old_tail) (pushed t) (popped t))
  | Consumer false, Idle =>
      let* slot := find_slot fuel 0 in
      let* old_head := gets head in
      ret (Thread (Consumer false) (PopLoaded slot old_head) (pushed t) (popped t))
  | Consumer false, PopLoaded slot old_head =>
      publish slot old_head;;
      ret (Thread (Consumer false) (PopPublished slot old_head) (pushed t) (popped t))
  | Consumer false, PopPublished slot old_head =>
      let* now := gets head in
      if decide (old_head = now) then
        ret (Thread (Consumer false) (PopProtected slot old_head) (pushed t) (popped t))
      else
        let* old_head := gets head in
        ret (Thread (Consumer false) (PopLoaded slot old_head) (pushed t) (popped t))
  | Consumer false, PopProtected slot old_head =>
      let* taken := pop_try slot old_head in
      if taken : bool then
        ret (Thread (Consumer false) Idle (pushed t) (popped t))
      else
        let* tl := gets tail in
        if decide (old_head = tl) then
          clear_taken old_head;;
          ret (returned t None)
        else
          let* old_data := unlink old_head in
          let* hz := is_hazardous old_head in
          ret (Thread (Consumer false) (PopChecked old_head hz old_data) (pushed t) (popped t))
  | Consumer false, PopChecked old_head hz old_data =>
      let* r := dispose fuel old_head hz old_data in
      ret (returned t r)
  | _, _ => ret t
  end.

(** [k] stretches of one thread, no other thread running. *)
Fixpoint alone (fuel : nat) (k : nat) (t : thread) : M Queue_TS thread :=
  match k with
  | O => ret t
  | S k' => let* t' := thread_step fuel t in alone fuel k' t'
  end.

(** The queue and the threads on it. *)
Definition config : Type := Queue_TS (T:=T) * list thread.

(** Thread [i] runs its next stretch. *)
Definition step (fuel : nat) (i : nat) : M config unit :=
  fun '(q, threads) =>
    match threads !! i with
    | None => Fault
    | Some t =>
        match thread_step fuel t q with
        | Ret t' q' => Ret tt (q', <[i := t']> threads)
        | Throw msg q' => Throw msg (q', threads)
        | Fault => Fault
        | Spin => Spin
        end
    end.

(** The threads run in the order the schedule gives. *)
Fixpoint run_schedule (fuel : nat) (schedule : list nat) : M config unit :=
  match schedule with
  | [] => ret tt
  | i :: schedule' => step fuel i;; run_schedule fuel schedule'
  end.

(** The addresses on the list that starts at [p], at most [fuel] of
    them. *)
Fixpoint walk (fuel : nat) (m : gmap addr (node (T:=T))) (p : option addr) : list addr :=
  match fuel, p with
  | S fuel', Some a =>
      a :: match m !! a with
           | Some n => walk fuel' m (next n)
           | None => []
           end
  | _, _ => []
  end.

End QueueThreads.
End QueueThreads.

(** ** Stack_TS *)

(** [node::node(T arg)] initialises [std::shared_ptr<T> data] from
    [std::make_shared<long>(std::move(arg))].  [ElementType] spells out for
    which element types that is a program at all; the stack itself is
    modelled at the one element type where it is, [long]. *)

Module ElementType.

Inductive ctype : Type := c_long | c_int | c_bool | c_string.

#[global] Instance ctype_eq_dec : EqDecision ctype.
Proof. solve_decision. Defined.

(** The values of an element type. *)
Definition value (t : ctype) : Type :=
  match t with
  | c_long => Z
  | c_int => Z
  | c_bool => bool
  | c_string => string
  end.

(** [std::make_shared<long>(std::move(arg))]: a [long] direct-initialised
    from [arg]; there is no such initialisation from a [std::string]. *)
Definition make_shared_long (t : ctype) : value t -> option Z :=
  match t with
  | c_long => fun arg => Some arg
  | c_int => fun arg => Some arg
  | c_bool => fun arg => Some (if arg then 1 else 0)%Z
  | c_string => fun _ => None
  end.

(** [std::shared_ptr<T>{std::shared_ptr<Y>&&}] exists only if [Y*]
    converts to [T*]; among these types, only if they are the same. *)
Definition shared_ptr_convert (Y t : ctype) (p : value Y) : option (value t) :=
  match decide (Y = t) with
  | left e => Some (eq_rect Y value p t e)
  | right _ => None
  end.

(** The payload the member initialiser [data{...}] of [node(T arg)] yields;
    [None] when the constructor is ill-formed at [T]. *)
Definition node_data (t : ctype) (arg : value t) : option (value t) :=
  match make_shared_long t arg with
  | Some l => shared_ptr_convert c_long t l
  | None => None
  end.

End ElementType.

Module Stack.

(** [long] *)
Abbreviation T := (ElementType.value ElementType.c_long).

(** [std::thread::id]: [None] is the default-constructed id, which is the
    id of no thread. *)
Abbreviation thread_id_t := (option nat).

(** [struct Stack_TS<T>::node]; an empty [shared_ptr] is [None]. *)
Record node : Type := Node {
  next : option addr;
  data : option T
}.

(** [struct Stack_TS<T>::hazard_ptr] *)
Record hazard_ptr : Type := HazardPtr {
  thread_id : thread_id_t;
  pointer : option addr
}.

(** The data members of [class Stack_TS]; [hazard_arr] is the array it
    points to, [None] when the pointer is null. *)
Record Stack_TS : Type := Mk {
  head : option addr;
  garbage : option addr;
  hazard_arr : option (list hazard_ptr);
  hazard_max_size : nat
}.

(** Ghost record of what the reclamation code did with a node. *)
Inductive disposal : Type :=
  | Freed (a : addr) (table : list hazard_ptr)
  | Deferred (a : addr) (table : list hazard_ptr).

(** What a member function runs on: the free store of nodes, the object,
    and the ghost history (newest first). *)
Record state : Type := State {
  mem : gmap addr node;
  self : Stack_TS;
  history : list disposal
}.

Definition set_mem (f : gmap addr node -> gmap addr node) (s : state) :=
  State (f (mem s)) (self s) (history s).
Definition set_head (p : option addr) (s : state) :=
  State (mem s)
    (Mk p (garbage (self s)) (hazard_arr (self s)) (hazard_max_size (self s)))
    (history s).
Definition set_garbage (p : option addr) (s : state) :=
  State (mem s)
    (Mk (head (self s)) p (hazard_arr (self s)) (hazard_max_size (self s)))
    (history s).
Definition set_hazard_arr (f : list hazard_ptr -> list hazard_ptr) (s : state) :=
  State (mem s)
    (Mk (head (self s)) (garbage (self s)) (f <$> hazard_arr (self s))
        (hazard_max_size (self s)))
    (history s).
Definition record (d : disposal) (s : state) :=
  State (mem s) (self s) (d :: history s).

(** *** Constructors and move assignment *)

Definition ctor (_max_size : nat) : Stack_TS :=
  {| head := None;
     garbage := None;
     hazard_arr := Some (replicate _max_size (HazardPtr None None));
     hazard_max_size := _max_size |}.

Definition with_head (p : option addr) (x : Stack_TS) :=
  Mk p (garbage x) (hazard_arr x) (hazard_max_size x).
Definition with_garbage (p : option addr) (x : Stack_TS) :=
  Mk (head x) p (hazard_arr x) (hazard_max_size x).
Definition with_hazard_arr (arr : option (list hazard_ptr)) (x : Stack_TS) :=
  Mk (head x) (garbage x) arr (hazard_max_size x).
Definition with_hazard_max_size (n : nat) (x : Stack_TS) :=
  Mk (head x) (garbage x) (hazard_arr x) n.

(** The statements that the move constructor and the move assignment
    share, on the pair ([*this], [other]). *)
Definition move_from (this other : Stack_TS) : Stack_TS * Stack_TS :=
  let this := with_hazard_max_size (hazard_max_size other) this in
  let this := with_hazard_arr (hazard_arr other) this in
  let other := with_hazard_arr None other in
  let _head_tmp := head other in
  let other := with_head None other in
  let this := with_head _head_tmp this in
  let _garbage_tmp := garbage other in
  let other := with_garbage None other in
  let this := with_garbage _head_tmp this in
  (this, other).

(** [Stack_TS(Stack_TS&& other)]: the new object and what is left of
    [other].  Every member of the new object is assigned, so what it
    starts from does not matter. *)
Definition move_ctor (other : Stack_TS) : Stack_TS * Stack_TS :=
  move_from (Mk None None None 0) other.

(** [operator=(Stack_TS&& other)] on the pair ([*this], [other]): the
    guard, then the statements that [move_from] gives, then the end of the
    function body.  The function is declared to return [Stack_TS&] and has
    no [return] statement: control that flows off its end is undefined
    behaviour. *)
Definition move_assign : M (Stack_TS * Stack_TS) unit :=
  fun '(this, other) =>
    if decide (0 < hazard_max_size this) then
      Throw "Can not assign to an intialized stack" (this, other)
    else
      (modify (fun _ => move_from this other);; fault) (this, other).

Section Operations.
Variable alloc : gmap addr node -> addr.

(** *** Memory accesses *)

Definition deref (p : option addr) : M state (addr * node) :=
  fun s =>
    match p with
    | None => Fault
    | Some a => match mem s !! a with
                | Some n => Ret (a, n) s
                | None => Fault
                end
    end.

Definition update (a : addr) (n : node) : M state unit :=
  modify (set_mem <[a := n]>).

(** [p->next = x] *)
Definition store_next (p x : option addr) : M state unit :=
  let* (a, n) := deref p in
  update a (Node x (data n)).

(** [hazard_arr[idx]]; undefined through a null [hazard_arr] or past the
    array. *)
Definition slot_ref (idx : nat) : M state hazard_ptr :=
  fun s => match hazard_arr (self s) with
           | None => Fault
           | Some arr => match arr !! idx with
                         | Some h => Ret h s
                         | None => Fault
                         end
           end.

Definition slot_update (idx : nat) (h : hazard_ptr) : M state unit :=
  modify (set_hazard_arr <[idx := h]>).

(** *** push *)

(** [new node{std::move(arg)}] *)
Definition new_node (arg : T) : M state addr :=
  match ElementType.node_data ElementType.c_long arg with
  | Some d =>
      fun s => let a := alloc (mem s) in
               Ret a (set_mem <[a := Node None (Some d)]> s)
  | None => fault
  end.

(** The [compare_exchange_weak] loop of [push]: on failure the expected
    value, [new_node->next], is refreshed from [head]. *)
Fixpoint push_cas (fuel : nat) (new_node : option addr) : M state unit :=
  match fuel with
  | O => spin
  | S fuel' =>
      let* (_, n) := deref new_node in
      let* h := gets (fun s => head (self s)) in
      if decide (h = next n) then modify (set_head new_node)
      else store_next new_node h;; push_cas fuel' new_node
  end.

Definition push (fuel : nat) (arg : T) : M state unit :=
  let* a := new_node arg in
  let* h := gets (fun s => head (self s)) in
  store_next (Some a) h;;
  push_cas fuel (Some a).

(** *** Hazard slots *)

(** The [for] loop of [get_hazard_pointer], [count] slots left from [idx];
    the result is the index of the slot claimed, [None] for [nullptr]. *)
Fixpoint claim_slot (this_thread_id : thread_id_t) (count idx : nat)
    : M state (option nat) :=
  match count with
  | O => ret None
  | S count' =>
      let* h := slot_ref idx in
      if decide (thread_id h = None) then
        slot_update idx (HazardPtr this_thread_id (pointer h));;
        ret (Some idx)
      else claim_slot this_thread_id count' (S idx)
  end.

Definition get_hazard_pointer (this_thread_id : thread_id_t) : M state (option nat) :=
  let* size := gets (fun s => hazard_max_size (self s)) in
  claim_slot this_thread_id size 0.

Definition set_hazard_pointer (hp : nat) : M state (option addr) :=
  let* old_head := gets (fun s => head (self s)) in
  let* h := slot_ref hp in
  slot_update hp (HazardPtr (thread_id h) old_head);;
  ret old_head.

Definition clear_hazard_pointer (hp : nat) : M state unit :=
  let* h := slot_ref hp in
  slot_update hp (HazardPtr (thread_id h) None);;
  let* h := slot_ref hp in
  slot_update hp (HazardPtr None (pointer h)).

(** The [for] loop of [hazard_existed]. *)
Fixpoint scan_hazards (count idx : nat) (disposable : option addr) : M state bool :=
  match count with
  | O => ret false
  | S count' =>
      let* h := slot_ref idx in
      if decide (pointer h = disposable) then ret true
      else scan_hazards count' (S idx) disposable
  end.

Definition hazard_existed (disposable : option addr) : M state bool :=
  let* size := gets (fun s => hazard_max_size (self s)) in
  scan_hazards size 0 disposable.

(** *** The garbage list *)

Fixpoint garbage_cas (fuel : nat) (disposable : option addr) : M state unit :=
  match fuel with
  | O => spin
  | S fuel' =>
      let* (_, n) := deref disposable in
      let* g := gets (fun s => garbage (self s)) in
      if decide (g = next n) then modify (set_garbage disposable)
      else store_next disposable g;; garbage_cas fuel' disposable
  end.

Definition claim_later (fuel : nat) (disposable : option addr) : M state unit :=
  let* (a, _) := deref disposable in
  let* table := gets (fun s => default [] (hazard_arr (self s))) in
  modify (record (Deferred a table));;
  let* g := gets (fun s => garbage (self s)) in
  store_next disposable g;;
  garbage_cas fuel disposable.

(** [delete p]: [~node] first deletes [next] when it is not null. *)
Fixpoint delete_node (fuel : nat) (p : option addr) : M state unit :=
  match fuel with
  | O => spin
  | S fuel' =>
      let* (a, n) := deref p in
      (match next n with
       | Some _ => delete_node fuel' (next n)
       | None => ret tt
       end);;
      let* table := gets (fun s => default [] (hazard_arr (self s))) in
      modify (record (Freed a table));;
      modify (set_mem (delete a))
  end.

(** The [while(claimed_garbage)] loop of [collect_garbage]. *)
Fixpoint collect_loop (fuel : nat) (claimed_garbage : option addr) : M state unit :=
  match claimed_garbage with
  | None => ret tt
  | Some _ =>
      match fuel with
      | O => spin
      | S fuel' =>
          let* (_, n) := deref claimed_garbage in
          let tmp := next n in
          store_next claimed_garbage None;;
          let* hz := hazard_existed claimed_garbage in
          (if hz : bool then claim_later fuel claimed_garbage
           else delete_node fuel claimed_garbage);;
          collect_loop fuel' tmp
      end
  end.

Definition collect_garbage (fuel : nat) : M state unit :=
  let* claimed_garbage := gets (fun s => garbage (self s)) in
  modify (set_garbage None);;
  collect_loop fuel claimed_garbage.

(** *** pop *)

(** [while(!hp) hp = get_hazard_pointer();].  Each round that fails has
    tried the [compare_exchange_strong] of every slot.  When
    [hazard_max_size] is 0 there is no slot: a round performs no atomic
    operation and the loop cannot end, which is undefined behaviour (an
    implementation may assume that such a loop terminates). *)
Fixpoint acquire (fuel : nat) (this_thread_id : thread_id_t) : M state nat :=
  match fuel with
  | O => spin
  | S fuel' =>
      let* hp := get_hazard_pointer this_thread_id in
      match hp with
      | Some idx => ret idx
      | None =>
          let* size := gets (fun s => hazard_max_size (self s)) in
          if decide (size = 0) then fault else acquire fuel' this_thread_id
      end
  end.

(** The [do ... while] of [pop]: publish the head, then try to swing
    [head] from it to its successor. *)
Fixpoint pop_swing (fuel : nat) (hp : nat) : M state (option addr) :=
  match fuel with
  | O => spin
  | S fuel' =>
      let* old_head := set_hazard_pointer hp in
      match old_head with
      | None => ret None
      | Some _ =>
          let* (_, n) := deref old_head in
          let* h := gets (fun s => head (self s)) in
          if decide (h = old_head) then
            modify (set_head (next n));; ret old_head
          else pop_swing fuel' hp
      end
  end.

Definition pop (fuel : nat) (this_thread_id : thread_id_t) : M state (option T) :=
  let* hp := acquire fuel this_thread_id in
  let* old_head := pop_swing fuel hp in
  clear_hazard_pointer hp;;
  match old_head with
  | None => ret None
  | Some _ =>
      let* (a, n) := deref old_head in
      let res := data n in
      update a (Node (next n) None);;
      store_next old_head None;;
      let* hz := hazard_existed old_head in
      (if hz : bool then claim_later fuel old_head
       else delete_node fuel old_head);;
      collect_garbage fuel;;
      ret res
  end.

Definition is_empty : M state bool :=
  let* h := gets (fun s => head (self s)) in
  if decide (h = None) then ret true else ret false.

(** *** The destructor *)

(** [~Stack_TS()]: [head] and [garbage] are exchanged for [nullptr] and
    what they held is deleted when it is not null; then
    [delete[] hazard_arr], after which there is no array. *)
Definition dtor (fuel : nat) : M state unit :=
  let* head_ptr := gets (fun s => head (self s)) in
  modify (set_head None);;
  (match head_ptr with
   | Some _ => delete_node fuel head_ptr
   | None => ret tt
   end);;
  let* garbage_ptr := gets (fun s => garbage (self s)) in
  modify (set_garbage None);;
  (match garbage_ptr with
   | Some _ => delete_node fuel garbage_ptr
   | None => ret tt
   end);;
  modify (fun s => State (mem s) (with_hazard_arr None (self s)) (history s)).

End Operations.
End Stack.

(** ** Threads on a Stack_TS

    Several threads run [pop] on one stack.  A thread is interrupted only
    at the places listed in [pc]; between two of them it runs the
    statements of the source without interruption, so every run of this
    machine is a run of the program. *)

Module StackThreads.
Import Stack.

(** Where a thread stands inside a call of [pop]. *)
Inductive pc : Type :=
  (* between two calls *)
  | Idle
  (* in [set_hazard_pointer], after [old_head = head.load()], before
     [hp->pointer.store(old_head)] *)
  | PopLoaded (hp : nat) (old_head : option addr)
  (* in [pop], after [set_hazard_pointer] returned, before the test
     [old_head && !head.compare_exchange_strong(old_head, old_head->next)] *)
  | PopPublished (hp : nat) (old_head : option addr)
  (* in [pop], after [hazard_existed(old_head)] returned [hz], before
     [delete] or [claim_later] *)
  | PopChecked (old_head : option addr) (hz : bool) (res : option T).

Record thread : Type := Thread {
  id : thread_id_t;
  at_pc : pc;
  popped : list (option T)   (* what its [pop]s have returned, oldest first *)
}.

(** The next uninterrupted stretch of a thread. *)
Definition thread_step (fuel : nat) (t : thread) : M state thread :=
  match at_pc t with
  | Idle =>
      let* hp := acquire fuel (id t) in
      let* old_head := gets (fun s => head (self s)) in
      ret (Thread (id t) (PopLoaded hp old_head) (popped t))
  | PopLoaded hp old_head =>
      let* h := slot_ref hp in
      slot_update hp (HazardPtr (thread_id h) old_head);;
      ret (Thread (id t) (PopPublished hp old_head) (popped t))
  | PopPublished hp old_head =>
      match old_head with
      | None =>
          clear_hazard_pointer hp;;
          ret (Thread (id t) Idle (popped t ++ [None]))
      | Some _ =>
          let* (_, n) := deref old_head in
          let* h := gets (fun s => head (self s)) in
          if decide (h = old_head) then
            modify (set_head (next n));;
            clear_hazard_pointer hp;;
            let* (a, n) := deref old_head in
            let res := data n in
            update a (Node (next n) None);;
            store_next old_head None;;
            let* hz := hazard_existed old_head in
            ret (Thread (id t) (PopChecked old_head hz res) (popped t))
          else
            let* old_head := gets (fun s => head (self s)) in
            ret (Thread (id t) (PopLoaded hp old_head) (popped t))
      end
  | PopChecked old_head hz res =>
      (if hz : bool then claim_later fuel old_head
       else delete_node fuel old_head);;
      collect_garbage fuel;;
      ret (Thread (id t) Idle (popped t ++ [res]))
  end.

(** [k] stretches of one thread, no other thread running. *)
Fixpoint alone (fuel : nat) (k : nat) (t : thread) : M state thread :=
  match k with
  | O => ret t
  | S k' => let* t' := thread_step fuel t in alone fuel k' t'
  end.

(** The stack and the threads on it. *)
Definition config : Type := state * list thread.

(** Thread [i] runs its next stretch. *)
Definition step (fuel : nat) (i : nat) : M config unit :=
  fun '(s, threads) =>
    match threads !! i with
    | None => Fault
    | Some t =>
        match thread_step fuel t s with
        | Ret t' s' => Ret tt (s', <[i := t']> threads)
        | Throw msg s' => Throw msg (s', threads)
        | Fault => Fault
        | Spin => Spin
        end
    end.

(** The threads run in the order the schedule gives. *)
Fixpoint run_schedule (fuel : nat) (schedule : list nat) : M config unit :=
  match schedule with
  | [] => ret tt
  | i :: schedule' => step fuel i;; run_schedule fuel schedule'
  end.

End StackThreads.

(** ** Specification-level notions *)

Module QueueSpec.
Section QueueSpec.
Context {T : Type}.
Import Queue.

(** The hazard table protects [d]: some slot's pointer equals it. *)
Definition protected (table : list (hazard)) (d : option addr) : bool :=
  bool_decide (d ∈ pointer <$> table).

(** Slot [i] is the first free slot of the table: it is not taken, and
    every slot before it is. *)
Definition first_free (table : list hazard) (i : nat) : Prop :=
  (exists p, table !! i = Some (Hazard false p)) /\
  forall j, j < i -> exists p, table !! j = Some (Hazard true p).

(** What the reclamation code is to do with a node: free it only when no
    slot protects it, put it on the garbage list when one does. *)
Definition disposal_ok (d : disposal) : Prop :=
  match d with
  | Freed a table => protected table (Some a) = false
  | Deferred a table => protected table (Some a) = true
  end.

(** From [s0] to [s] the history grew by disposals that were all in
    order. *)
Definition disposed_ok (s0 s : Queue_TS (T:=T)) : Prop :=
  exists new, history s = new ++ history s0 /\ Forall disposal_ok new.

(** What the checks before a disposal depend on: the history and the
    hazard table, or only its length. *)
Definition table_obs (q : Queue_TS (T:=T)) :=
  (history q, hazard_holder q, hazard_holder_size q).
Definition shape_obs (q : Queue_TS (T:=T)) :=
  (history q, length (hazard_holder q), hazard_holder_size q).

(** The invariant carried through a delete path. *)
Definition in_order (s0 s : Queue_TS (T:=T)) : Prop :=
  disposed_ok s0 s /\ hazard_holder_size s = length (hazard_holder s).

(** The live list: from [p], nodes with clear claim flags carrying [vals]
    in order, up to the node [t]. *)
Fixpoint chain (m : gmap addr (node (T:=T))) (p : addr) (vals : list T) (t : addr) : Prop :=
  match vals with
  | [] => p = t
  | v :: vals' => exists p', m !! p = Some (Node false (Some v) (Some p')) /\ chain m p' vals' t
  end.

(** The garbage list: from [p], the nodes at the addresses [l] in order,
    down to [nullptr]. *)
Fixpoint glist (m : gmap addr (node (T:=T))) (p : option addr) (l : list addr) : Prop :=
  match l with
  | [] => p = None
  | a :: l' => p = Some a /\ exists n, m !! a = Some n /\ glist m (next n) l'
  end.

(** The nodes a sweep puts back: those a hazard slot protects. *)
Definition kept (table : list hazard) (l : list addr) : list addr :=
  filter (fun a => protected table (Some a) = true) l.

(** What [pop] needs to dequeue without waiting for another thread: the
    hazard table has [hazard_holder_size] slots and [i] is the first free
    one; the head node [h] is there, not claimed and not the tail; the
    garbage list is the nodes at [gs], none of them twice and none of them
    [h], and [garbage_size] is their number. *)
Definition ready (q : Queue_TS (T:=T)) (i : nat) (h : addr) (n : node (T:=T))
    (gs : list addr) : Prop :=
  hazard_holder_size q = length (hazard_holder q) /\
  first_free (hazard_holder q) i /\
  head q = Some h /\ mem q !! h = Some n /\ taken n = false /\
  tail q <> Some h /\
  glist (mem q) (garbage q) gs /\ NoDup gs /\ (h ∉ gs) /\
  garbage_size q = N.of_nat (length gs) /\
  (N.of_nat (length gs) + 1 < size_max)%N.

(** What holds of the garbage when [pop] returns: its counter is the
    length of the list, and either the counter is below the threshold or
    every node on the list is protected by the hazard table. *)
Definition swept (q : Queue_TS (T:=T)) : Prop :=
  exists gs,
    glist (mem q) (garbage q) gs /\
    garbage_size q = N.of_nat (length gs) /\
    ((garbage_size q < garbage_max_size q)%N \/
     Forall (fun a => protected (hazard_holder q) (Some a) = true) gs).

(** A queue no operation is running on, holding [vals]: the live list
    ends in the empty tail node, no hazard slot is in use and there is no
    garbage. *)
Definition holds (q : Queue_TS) (vals : list T) : Prop :=
  exists h t,
    head q = Some h /\ tail q = Some t /\
    chain (mem q) h vals t /\
    mem q !! t = Some (Node false None None) /\
    garbage q = None /\ garbage_size q = 0%N /\
    0 < hazard_holder_size q /\
    hazard_holder q = replicate (hazard_holder_size q) (Hazard false None).

(** Calls made one after the other. *)
Inductive call : Type := Push (v : T) | Pop.

Fixpoint run (alloc : gmap addr node -> addr) (fuel : nat) (calls : list call)
    : M Queue_TS (list (option T)) :=
  match calls with
  | [] => ret []
  | Push v :: calls' => push alloc fuel v;; run alloc fuel calls'
  | Pop :: calls' =>
      let* r := pop fuel in
      let* rs := run alloc fuel calls' in
      ret (r :: rs)
  end.

(** What a first-in first-out queue holding [content] answers. *)
Fixpoint fifo (calls : list call) (content : list T) : list (option T) :=
  match calls with
  | [] => []
  | Push v :: calls' => fifo calls' (content ++ [v])
  | Pop :: calls' =>
      match content with
      | [] => None :: fifo calls' []
      | v :: content' => Some v :: fifo calls' content'
      end
  end.

(** What a first-in first-out queue holding [content] is left with. *)
Fixpoint content_after (calls : list call) (content : list T) : list T :=
  match calls with
  | [] => content
  | Push v :: calls' => content_after calls' (content ++ [v])
  | Pop :: calls' => content_after calls' (drop 1 content)
  end.

(** A quiescent queue holding [vals] outside of which the free store has
    no node: the store has as many nodes as the live list. *)
Definition tidy (q : Queue_TS) (vals : list T) : Prop :=
  holds q vals /\ size (mem q) = S (length vals).

(** The state right after [push] returns, when it has claimed the tail
    node [t], holding [n], in its first round. *)
Definition pushed (alloc : gmap addr node -> addr) (t : addr) (n : node (T:=T))
    (v : T) (q : Queue_TS (T:=T)) : Queue_TS :=
  let a := alloc (mem q) in
  set_tail (Some a)
    (set_mem (fun m => <[t := Node (taken n) (Some v) (Some a)]>
                         (<[a := Node false None None]> m)) q).

(** The free store without the nodes at the addresses [l]. *)
Definition without (l : list addr) (m : gmap addr (node (T:=T))) : gmap addr node :=
  foldr delete m l.

(** The queue after [delete] has released the nodes at [l], the last of
    them first. *)
Definition released (l : list addr) (q : Queue_TS (T:=T)) : Queue_TS :=
  Mk (without l (mem q)) (head q) (tail q) (garbage q) (garbage_size q)
     (garbage_max_size q) (hazard_holder q) (hazard_holder_size q)
     (map (fun a => Freed a (hazard_holder q)) l ++ history q).

(** *** One producer and one consumer

    Where the two threads of a queue with one producer and one consumer
    can stand, [all] being the values the producer was given, [t] the
    tail node, [done] the values pushed so far and [vals] the values on
    the live list. *)

(** The producer has pushed [ps] and has the rest to do; inside [push] it
    has read the tail as it is and holds a new empty node off the list. *)
Inductive producer_at (all : list T) (q : Queue_TS (T:=T)) (t : addr)
    : QueueThreads.thread (T:=T) -> Prop :=
  | producer_idle todo ps os :
      all = ps ++ todo ->
      producer_at all q t
        (QueueThreads.Thread (QueueThreads.Producer todo) QueueThreads.Idle ps os)
  | producer_loaded todo v a ps os :
      all = ps ++ v :: todo ->
      a <> t ->
      mem q !! a = Some (Node false None None) ->
      producer_at all q t
        (QueueThreads.Thread (QueueThreads.Producer todo)
           (QueueThreads.PushLoaded v a (Some t)) ps os).

(** The consumer has popped [os]; with the live list these are the values
    pushed.  Between calls the hazard table is clear; up to the claim the
    consumer has slot 0 and has read the head as it is; after the check it
    holds the node [d] it has unlinked, which no slot protects. *)
Inductive consumer_at (q : Queue_TS (T:=T)) (done vals : list T)
    : QueueThreads.thread (T:=T) -> Prop :=
  | consumer_idle drained ps os :
      hazard_holder q = replicate (hazard_holder_size q) (Hazard false None) ->
      done = os ++ vals ->
      consumer_at q done vals
        (QueueThreads.Thread (QueueThreads.Consumer drained) QueueThreads.Idle ps os)
  | consumer_loaded x ps os :
      hazard_holder q
      = <[0 := Hazard true x]> (replicate (hazard_holder_size q) (Hazard false None)) ->
      done = os ++ vals ->
      consumer_at q done vals
        (QueueThreads.Thread (QueueThreads.Consumer false)
           (QueueThreads.PopLoaded 0 (head q)) ps os)
  | consumer_published x ps os :
      hazard_holder q
      = <[0 := Hazard true x]> (replicate (hazard_holder_size q) (Hazard false None)) ->
      done = os ++ vals ->
      consumer_at q done vals
        (QueueThreads.Thread (QueueThreads.Consumer false)
           (QueueThreads.PopPublished 0 (head q)) ps os)
  | consumer_protected x ps os :
      hazard_holder q
      = <[0 := Hazard true x]> (replicate (hazard_holder_size q) (Hazard false None)) ->
      done = os ++ vals ->
      consumer_at q done vals
        (QueueThreads.Thread (QueueThreads.Consumer false)
           (QueueThreads.PopProtected 0 (head q)) ps os)
  | consumer_checked d v ps os :
      mem q !! d = Some (Node true None None) ->
      hazard_holder q = replicate (hazard_holder_size q) (Hazard false None) ->
      done = os ++ v :: vals ->
      consumer_at q done vals
        (QueueThreads.Thread (QueueThreads.Consumer false)
           (QueueThreads.PopChecked (Some d) false (Some v)) ps os).

(** The queue and its two threads, [p] the producer and [c] the consumer,
    at any moment of a run. *)
Definition spsc (all : list T) (q : Queue_TS (T:=T))
    (p c : QueueThreads.thread (T:=T)) : Prop :=
  exists h t vals,
    head q = Some h /\ tail q = Some t /\
    chain (mem q) h vals t /\
    mem q !! t = Some (Node false None None) /\
    garbage q = None /\ garbage_size q = 0%N /\
    0 < hazard_holder_size q /\
    producer_at all q t p /\
    consumer_at q (QueueThreads.pushed p) vals c.

End QueueSpec.
End QueueSpec.

Module StackSpec.
Import Stack.

(** The hazard table protects [d]: some slot's pointer equals it. *)
Definition protected (table : list hazard_ptr) (d : option addr) : bool :=
  bool_decide (d ∈ pointer <$> table).

(** Slot [i] is the first slot no thread owns. *)
Definition first_unowned (table : list hazard_ptr) (i : nat) : Prop :=
  (exists p, table !! i = Some (HazardPtr None p)) /\
  forall j, j < i -> exists h, table !! j = Some h /\ thread_id h <> None.

Definition disposal_ok (d : disposal) : Prop :=
  match d with
  | Freed a table => protected table (Some a) = false
  | Deferred a table => protected table (Some a) = true
  end.

Definition disposed_ok (s0 s : state) : Prop :=
  exists new, history s = new ++ history s0 /\ Forall disposal_ok new.

Definition table_obs (s : state) :=
  (history s, hazard_arr (self s), hazard_max_size (self s)).
Definition shape_obs (s : state) :=
  (history s, length <$> hazard_arr (self s), hazard_max_size (self s)).

(** The invariant carried through a delete path: the disposals so far
    were in order, and [hazard_arr] has [hazard_max_size] slots. *)
Definition in_order (s0 s : state) : Prop :=
  disposed_ok s0 s /\
  length <$> hazard_arr (self s) = Some (hazard_max_size (self s)).

(** The live list: from [p], nodes carrying [vals] in order, down to
    [nullptr]. *)
Fixpoint chain (m : gmap addr node) (p : option addr) (vals : list T) : Prop :=
  match vals with
  | [] => p = None
  | v :: vals' =>
      exists a nx, p = Some a /\ m !! a = Some (Node nx (Some v)) /\ chain m nx vals'
  end.

(** A stack no operation is running on, holding [vals], top first. *)
Definition holds (s : state) (vals : list T) : Prop :=
  chain (mem s) (head (self s)) vals /\
  garbage (self s) = None /\
  0 < hazard_max_size (self s) /\
  hazard_arr (self s)
  = Some (replicate (hazard_max_size (self s)) (HazardPtr None None)).

(** [b] is on the list that starts at [p]. *)
Inductive reach (m : gmap addr node) : option addr -> addr -> Prop :=
  | reach_here a : reach m (Some a) a
  | reach_next a n b : m !! a = Some n -> reach m (next n) b -> reach m (Some a) b.

(** Calls made one after the other by thread [tid]. *)
Inductive call : Type := Push (v : T) | Pop.

Fixpoint run (alloc : gmap addr node -> addr) (fuel : nat) (tid : thread_id_t)
    (calls : list call) : M state (list (option T)) :=
  match calls with
  | [] => ret []
  | Push v :: calls' => push alloc fuel v;; run alloc fuel tid calls'
  | Pop :: calls' =>
      let* r := pop fuel tid in
      let* rs := run alloc fuel tid calls' in
      ret (r :: rs)
  end.

(** What a last-in first-out stack holding [content], top first,
    answers. *)
Fixpoint lifo (calls : list call) (content : list T) : list (option T) :=
  match calls with
  | [] => []
  | Push v :: calls' => lifo calls' (v :: content)
  | Pop :: calls' =>
      match content with
      | [] => None :: lifo calls' []
      | v :: content' => Some v :: lifo calls' content'
      end
  end.

(** What a last-in first-out stack holding [content] is left with. *)
Fixpoint content_after (calls : list call) (content : list T) : list T :=
  match calls with
  | [] => content
  | Push v :: calls' => content_after calls' (v :: content)
  | Pop :: calls' => content_after calls' (drop 1 content)
  end.

(** A list of nodes: from [p], the nodes at the addresses [l] in order,
    down to [nullptr]. *)
Fixpoint glist (m : gmap addr node) (p : option addr) (l : list addr) : Prop :=
  match l with
  | [] => p = None
  | a :: l' => p = Some a /\ exists n, m !! a = Some n /\ glist m (next n) l'
  end.

(** The nodes a sweep puts back: those a hazard slot protects. *)
Definition kept (table : list hazard_ptr) (l : list addr) : list addr :=
  filter (fun a => protected table (Some a) = true) l.

(** What [pop] needs to take the top node without waiting for another
    thread: [hazard_arr] is the array [arr] of [hazard_max_size] slots and
    [i] is the first one no thread owns; the head node [a] is there; the
    garbage list is the nodes at [gs], [a] not among them. *)
Definition ready (s : state) (arr : list hazard_ptr) (i : nat) (a : addr) (n : node)
    (gs : list addr) : Prop :=
  hazard_arr (self s) = Some arr /\
  hazard_max_size (self s) = length arr /\
  first_unowned arr i /\
  head (self s) = Some a /\ mem s !! a = Some n /\
  glist (mem s) (garbage (self s)) gs /\ a ∉ gs.

(** A quiescent stack holding [vals] outside of which the free store has
    no node. *)
Definition tidy (s : state) (vals : list T) : Prop :=
  holds s vals /\ size (mem s) = length vals.

(** The free store without the nodes at the addresses [l]. *)
Definition without (l : list addr) (m : gmap addr node) : gmap addr node :=
  foldr delete m l.

(** The state after [delete] has released the nodes at [l], the last of
    them first. *)
Definition released (l : list addr) (s : state) : state :=
  State (without l (mem s)) (self s)
    (map (fun a => Freed a (default [] (hazard_arr (self s)))) l ++ history s).

End StackSpec.

(** ** Concrete inputs *)

Module Scenario.
Import QueueThreads.

(** An allocator: an address past those in use. *)
Definition alloc0 {V} (m : gmap addr V) : addr := fresh (dom m).

(** Two producers with one value each and three consumers on a
    default-constructed queue.  Producer 1 reads the tail and is held up;
    producer 0 pushes; consumer 3 protects the head and is held up;
    consumer 2 pops twice, the second time finding the queue empty;
    consumer 3 goes on and finds it empty; producer 1 goes on; consumer 4
    then drains the queue. *)
Definition race_threads : list (thread (T:=Z)) :=
  [ Thread (Producer [1%Z]) Idle [] [];
    Thread (Producer [2%Z]) Idle [] [];
    Thread (Consumer false) Idle [] [];
    Thread (Consumer false) Idle [] [];
    Thread (Consumer false) Idle [] [] ].
Definition race_schedule : list nat :=
  [1] ++ [0; 0] ++ [3; 3; 3] ++ [2; 2; 2; 2; 2] ++ [2; 2; 2; 2]
  ++ [3] ++ [3; 3; 3; 3] ++ [1] ++ [4; 4; 4; 4; 4].
Definition race_start : config (T:=Z) :=
  (Queue.ctor alloc0 16 1024, race_threads).

(** One producer and three consumers on a queue with three hazard slots
    and a garbage threshold of one.  The producer pushes 1, 2, 3;
    consumer 2 protects the head and is held up; consumer 1 pops;
    consumer 3 protects the new head and is held up; consumer 1 pops
    again. *)
Definition sweep_threads : list (thread (T:=Z)) :=
  [ Thread (Producer [1; 2; 3]%Z) Idle [] [];
    Thread (Consumer false) Idle [] [];
    Thread (Consumer false) Idle [] [];
    Thread (Consumer false) Idle [] [] ].
Definition sweep_schedule : list nat :=
  [0; 0; 0; 0; 0; 0] ++ [2; 2; 2] ++ [1; 1; 1; 1; 1] ++ [3; 3; 3]
  ++ [1; 1; 1; 1; 1].
Definition sweep_start : config (T:=Z) :=
  (Queue.ctor alloc0 3 1, sweep_threads).

(** One producer and two consumers on a default-constructed queue.  The
    producer pushes 1; consumer 2 takes slot 0, reads the head and is held
    up; consumer 1 claims and unlinks the head node and finds no slot
    protecting it; consumer 2 publishes the head it read; consumer 1
    deletes the node. *)
Definition late_publish_threads : list (thread (T:=Z)) :=
  [ Thread (Producer [1%Z]) Idle [] [];
    Thread (Consumer false) Idle [] [];
    Thread (Consumer false) Idle [] [] ].
Definition late_publish_schedule : list nat :=
  [0; 0] ++ [2] ++ [1; 1; 1; 1] ++ [2] ++ [1].
Definition late_publish_start : config (T:=Z) :=
  (Queue.ctor alloc0 16 1024, late_publish_threads).

(** A queue with three hazard slots and threshold 1 that holds 1 and whose
    head another thread has protected in slot 0 (see
    [protected_queue_reached]). *)
Definition protected_queue : Queue.Queue_TS (T:=Z) :=
  {| Queue.mem :=
       <[1%positive := Queue.Node false (Some 1%Z) (Some 2%positive)]>
         (<[2%positive := Queue.Node false None None]> ∅);
     Queue.head := Some 1%positive;
     Queue.tail := Some 2%positive;
     Queue.garbage := None;
     Queue.garbage_size := 0;
     Queue.garbage_max_size := 1;
     Queue.hazard_holder :=
       [Queue.Hazard true (Some 1%positive); Queue.Hazard false None;
        Queue.Hazard false None];
     Queue.hazard_holder_size := 3;
     Queue.history := [] |}.

(** A stack holding 2 on top of 1, with two hazard slots (see
    [small_stack_reached]). *)
Definition small_stack : Stack.state :=
  {| Stack.mem :=
       <[2%positive := Stack.Node (Some 1%positive) (Some 2%Z)]>
         (<[1%positive := Stack.Node None (Some 1%Z)]> ∅);
     Stack.self :=
       Stack.Mk (Some 2%positive) None
         (Some [Stack.HazardPtr None None; Stack.HazardPtr None None]) 2;
     Stack.history := [] |}.

(** An empty stack with two hazard slots, the first owned by thread 5. *)
Definition busy_stack : Stack.state :=
  {| Stack.mem := ∅;
     Stack.self :=
       Stack.Mk None None
         (Some [Stack.HazardPtr (Some 5) None; Stack.HazardPtr None None]) 2;
     Stack.history := [] |}.

(** A stack object with a live list at 1 and a garbage list at 2. *)
Definition source_stack : Stack.Stack_TS :=
  Stack.Mk (Some 1%positive) (Some 2%positive)
    (Some [Stack.HazardPtr None None]) 1.

(** The free store the lists of [source_stack] are in: 1 alone on the
    live list, 2 alone on the garbage list. *)
Definition source_mem : gmap addr Stack.node :=
  <[1%positive := Stack.Node None (Some 10%Z)]>
    (<[2%positive := Stack.Node None None]> ∅).

(** A queue whose head is the empty tail node 2, with two nodes on the
    garbage list, 1 and then 3; another thread has published 1 in hazard
    slot 0. *)
Definition garbage_queue : Queue.Queue_TS (T:=Z) :=
  {| Queue.mem :=
       <[1%positive := Queue.Node true None (Some 3%positive)]>
         (<[3%positive := Queue.Node true None None]>
            (<[2%positive := Queue.Node false None None]> ∅));
     Queue.head := Some 2%positive;
     Queue.tail := Some 2%positive;
     Queue.garbage := Some 1%positive;
     Queue.garbage_size := 2;
     Queue.garbage_max_size := 8;
     Queue.hazard_holder :=
       [Queue.Hazard true (Some 1%positive); Queue.Hazard false None;
        Queue.Hazard false None];
     Queue.hazard_holder_size := 3;
     Queue.history := [] |}.

(** [protected_queue] after another thread has set the claim flag of the
    head node. *)
Definition claimed_queue : Queue.Queue_TS (T:=Z) :=
  Queue.set_mem <[1%positive := Queue.Node true (Some 1%Z) (Some 2%positive)]>
    protected_queue.

(** [protected_queue] with every hazard slot taken. *)
Definition crowded_queue : Queue.Queue_TS (T:=Z) :=
  Queue.set_hazard_holder (fun _ => replicate 3 (Queue.Hazard true None))
    protected_queue.

(** [protected_queue] after a producer has put 9 into the tail node and
    before it has moved [tail]. *)
Definition stale_tail_queue : Queue.Queue_TS (T:=Z) :=
  Queue.set_mem <[2%positive := Queue.Node false (Some 9%Z) None]> protected_queue.

(** A stack holding 50 in the node 5, with two nodes on the garbage list,
    1 and then 3; thread 7 owns hazard slot 0 and has published 1 in it. *)
Definition garbage_stack : Stack.state :=
  {| Stack.mem :=
       <[5%positive := Stack.Node None (Some 50%Z)]>
         (<[1%positive := Stack.Node (Some 3%positive) None]>
            (<[3%positive := Stack.Node None None]> ∅));
     Stack.self :=
       Stack.Mk (Some 5%positive) (Some 1%positive)
         (Some [Stack.HazardPtr (Some 7) (Some 1%positive); Stack.HazardPtr None None]) 2;
     Stack.history := [] |}.

(** Two threads that call [pop] on [small_stack].  Thread 0 reads the head
    and is held up before it publishes it; thread 1 takes the head node,
    finds no slot protecting it and is held up before the [delete]; thread
    0 publishes the head it read and is held up before the test of its
    loop; thread 1 deletes the node and returns. *)
Definition stale_read_threads : list StackThreads.thread :=
  [ StackThreads.Thread (Some 1) StackThreads.Idle [];
    StackThreads.Thread (Some 2) StackThreads.Idle [] ].
Definition stale_read_schedule : list nat := [0] ++ [1; 1; 1] ++ [0] ++ [1].
Definition stale_read_start : StackThreads.config := (small_stack, stale_read_threads).

(** A queue that holds 1, with three free hazard slots and threshold 1,
    as another consumer leaves it inside [push_to_garbage] between the
    [compare_exchange_weak] that put node 4 on the garbage list and
    [++garbage_size]. *)
Definition uncounted_queue : Queue.Queue_TS (T:=Z) :=
  {| Queue.mem :=
       <[1%positive := Queue.Node false (Some 1%Z) (Some 2%positive)]>
         (<[2%positive := Queue.Node false None None]>
            (<[4%positive := Queue.Node true None None]> ∅));
     Queue.head := Some 1%positive;
     Queue.tail := Some 2%positive;
     Queue.garbage := Some 4%positive;
     Queue.garbage_size := 0;
     Queue.garbage_max_size := 1;
     Queue.hazard_holder := replicate 3 (Queue.Hazard false None);
     Queue.hazard_holder_size := 3;
     Queue.history := [] |}.

(** [small_stack] with both hazard slots owned by other threads. *)
Definition crowded_stack : Stack.state :=
  Stack.set_hazard_arr
    (fun _ => [Stack.HazardPtr (Some 5) None; Stack.HazardPtr (Some 6) None])
    small_stack.

End Scenario.

(** [wp c Q s]: run from [s], [c] returns normally, with a result and a final
    state that satisfy [Q]. *)

Definition wp {St A} (c : M St A) (Q : A -> St -> Prop) (s : St) : Prop :=
  match c s with
  | Ret a s' => Q a s'
  | _ => False
  end.

(** [wlp c Q s]: if [c], run from [s], returns normally, then with a result
    and a final state that satisfy [Q]. *)

Definition wlp {St A} (c : M St A) (Q : A -> St -> Prop) (s : St) : Prop :=
  match c s with
  | Ret a s' => Q a s'
  | _ => True
  end.

(** Whether an outcome is a normal return. *)
Definition is_Ret {St A} (o : outcome St A) : bool :=
  match o with
  | Ret _ _ => true
  | _ => false
  end.

(** A computation that leaves [obs] of the state alone. *)
Definition keeps {St A O} (obs : St -> O) (c : M St A) : Prop :=
  forall s, wlp c (fun _ s' => obs s' = obs s) s.

(** * Theorems *)

(** ** Reasoning about member functions *)

Lemma bind_Ret {St A B} (c : M St A) (k : A -> M St B) s a s' :
  c s = Ret a s' -> bind c k s = k a s'.
Proof. unfold bind. intros ->. reflexivity. Qed.

Lemma wp_Ret {St A} (c : M St A) Q s :
  wp c Q s <-> exists a s', c s = Ret a s' /\ Q a s'.
Proof.
  unfold wp. destruct (c s) as [a s'| | |]; split; intros H;
    try contradiction; try (destruct H as (? & ? & ? & ?); discriminate).
  - exists a, s'. auto.
  - destruct H as (a' & s'' & Heq & HQ). injection Heq as -> ->. exact HQ.
Qed.

Lemma wp_ret {St A} (a : A) (Q : A -> St -> Prop) s : Q a s -> wp (ret a) Q s.
Proof. exact id. Qed.

Lemma wp_bind {St A B} (c : M St A) (k : A -> M St B) Q s :
  wp c (fun a s' => wp (k a) Q s') s -> wp (bind c k) Q s.
Proof. unfold wp, bind. destruct (c s); auto. Qed.

Lemma wp_gets {St A} (f : St -> A) (Q : A -> St -> Prop) s :
  Q (f s) s -> wp (gets f) Q s.
Proof. exact id. Qed.

Lemma wp_modify {St} (f : St -> St) (Q : unit -> St -> Prop) s :
  Q tt (f s) -> wp (modify f) Q s.
Proof. exact id. Qed.

Lemma wp_mono {St A} (c : M St A) (Q Q' : A -> St -> Prop) s :
  wp c Q s -> (forall a s', Q a s' -> Q' a s') -> wp c Q' s.
Proof. unfold wp. destruct (c s); auto. Qed.

Lemma wp_eq {St A} (c : M St A) (Q : A -> St -> Prop) s a s' :
  c s = Ret a s' -> Q a s' -> wp c Q s.
Proof. unfold wp. intros ->. exact id. Qed.

Lemma wlp_Ret {St A} (c : M St A) Q s :
  wlp c Q s <-> forall a s', c s = Ret a s' -> Q a s'.
Proof.
  unfold wlp. destruct (c s) as [a s'| | |]; split; intros H; auto; try discriminate.
  intros a' s'' Heq. injection Heq as <- <-. exact H.
Qed.

Lemma wlp_ret {St A} (a : A) (Q : A -> St -> Prop) s : Q a s -> wlp (ret a) Q s.
Proof. exact id. Qed.

Lemma wlp_bind {St A B} (c : M St A) (k : A -> M St B) Q s :
  wlp c (fun a s' => wlp (k a) Q s') s -> wlp (bind c k) Q s.
Proof. unfold wlp, bind. destruct (c s); auto. Qed.

Lemma wlp_gets {St A} (f : St -> A) (Q : A -> St -> Prop) s :
  Q (f s) s -> wlp (gets f) Q s.
Proof. exact id. Qed.

Lemma wlp_modify {St} (f : St -> St) (Q : unit -> St -> Prop) s :
  Q tt (f s) -> wlp (modify f) Q s.
Proof. exact id. Qed.

Lemma wlp_spin {St A} (Q : A -> St -> Prop) s : wlp spin Q s.
Proof. exact I. Qed.

Lemma wlp_fault {St A} (Q : A -> St -> Prop) s : wlp fault Q s.
Proof. exact I. Qed.

Lemma wlp_mono {St A} (c : M St A) (Q Q' : A -> St -> Prop) s :
  wlp c Q s -> (forall a s', Q a s' -> Q' a s') -> wlp c Q' s.
Proof. unfold wlp. destruct (c s); auto. Qed.

Lemma wp_wlp {St A} (c : M St A) (Q : A -> St -> Prop) s :
  wp c Q s -> wlp c Q s.
Proof. unfold wp, wlp. destruct (c s); auto. Qed.

Lemma keeps_ret {St A O} (obs : St -> O) (a : A) : keeps obs (ret a).
Proof. intros s. reflexivity. Qed.

Lemma keeps_gets {St A O} (obs : St -> O) (f : St -> A) : keeps obs (gets f).
Proof. intros s. reflexivity. Qed.

Lemma keeps_spin {St A O} (obs : St -> O) : keeps obs (@spin St A).
Proof. intros s. exact I. Qed.

Lemma keeps_fault {St A O} (obs : St -> O) : keeps obs (@fault St A).
Proof. intros s. exact I. Qed.

Lemma keeps_modify {St O} (obs : St -> O) (f : St -> St) :
  (forall s, obs (f s) = obs s) -> keeps obs (modify f).
Proof. intros H s. apply H. Qed.

Lemma keeps_bind {St A B O} (obs : St -> O) (c : M St A) (k : A -> M St B) :
  keeps obs c -> (forall a, keeps obs (k a)) -> keeps obs (bind c k).
Proof.
  intros Hc Hk s. apply wlp_bind. eapply wlp_mono; [apply Hc|].
  intros a s' Hs'. cbn beta. eapply wlp_mono; [apply Hk|].
  intros b s'' Hs''. cbn beta in *. congruence.
Qed.

Lemma keeps_wlp {St A O} (obs : St -> O) (c : M St A) (P : O -> Prop) s :
  keeps obs c -> P (obs s) -> wlp c (fun _ s' => P (obs s')) s.
Proof.
  intros Hc HP. eapply wlp_mono; [apply Hc|]. intros a s' Hs'. cbn beta in *.
  rewrite Hs'. exact HP.
Qed.

(** **** Outcomes other than a return *)

Lemma bind_wp_eq {St A B} (c : M St A) (k : A -> M St B) s (o : outcome St B) :
  wp c (fun a s' => k a s' = o) s -> bind c k s = o.
Proof. unfold wp, bind. destruct (c s); auto; contradiction. Qed.

Lemma wlp_False {St A} (c : M St A) s :
  wlp c (fun _ _ => False) s -> forall a s', c s <> Ret a s'.
Proof. intros H a s' E. unfold wlp in H. rewrite E in H. exact H. Qed.

Lemma wp_wlp_conj {St A} (c : M St A) (Q1 Q2 : A -> St -> Prop) s :
  wp c Q1 s -> wlp c Q2 s -> wp c (fun a s' => Q1 a s' /\ Q2 a s') s.
Proof. unfold wp, wlp. destruct (c s); auto. Qed.

Lemma bind_assoc {St A B C} (c : M St A) (k : A -> M St B) (k' : B -> M St C) s :
  bind (bind c k) k' s = bind c (fun a => bind (k a) k') s.
Proof. unfold bind. destruct (c s); reflexivity. Qed.

Lemma bind_ext {St A B} (c : M St A) (k1 k2 : A -> M St B) s :
  (forall a s', c s = Ret a s' -> k1 a s' = k2 a s') -> bind c k1 s = bind c k2 s.
Proof. unfold bind. intros H. destruct (c s); auto. Qed.

Lemma bind_gets {St A B} (f : St -> A) (k : A -> M St B) s :
  bind (gets f) k s = k (f s) s.
Proof. reflexivity. Qed.

Lemma bind_ret {St A B} (a : A) (k : A -> M St B) s : bind (ret a) k s = k a s.
Proof. reflexivity. Qed.

Lemma bind_modify {St B} (f : St -> St) (k : unit -> M St B) s :
  bind (modify f) k s = k tt (f s).
Proof. reflexivity. Qed.

Module QueueFacts.
Section QueueFacts.
Context {T : Type}.
Import Queue QueueSpec.
Variable alloc : gmap addr (node (T:=T)) -> addr.
Hypothesis alloc_fresh : forall m, m !! alloc m = None.

Implicit Types (q s : Queue_TS (T:=T)) (m : gmap addr (node (T:=T))).
Local Abbreviation table_obs := (table_obs (T:=T)).
Local Abbreviation shape_obs := (shape_obs (T:=T)).
Local Abbreviation in_order := (in_order (T:=T)).

Ltac qsimpl :=
  cbn [mem head tail garbage garbage_size garbage_max_size hazard_holder
       hazard_holder_size history set_mem set_head set_tail set_garbage
       set_garbage_size set_hazard_holder record
       taken data next slot_taken pointer fst snd] in *.
Ltac qnorm :=
  unfold set_mem, set_head, set_tail, set_garbage, set_garbage_size,
    set_hazard_holder, record in *; qsimpl.

Lemma wp_deref a n q (Q : addr * node -> Queue_TS -> Prop) :
  mem q !! a = Some n -> Q (a, n) q -> wp (deref (Some a)) Q q.
Proof. unfold wp, deref. intros ->. exact id. Qed.

Lemma wp_slot_ref i h q (Q : hazard -> Queue_TS -> Prop) :
  hazard_holder q !! i = Some h -> Q h q -> wp (slot_ref i) Q q.
Proof. unfold wp, slot_ref. intros ->. exact id. Qed.

Lemma scan_hazards_spec count : forall i q d,
  i + count <= length (hazard_holder q) ->
  scan_hazards count i d q
  = Ret (protected (take count (drop i (hazard_holder q))) d) q.
Proof.
  induction count as [|count IH]; intros i q d Hlen; simpl.
  - reflexivity.
  - unfold bind, slot_ref.
    destruct (hazard_holder q !! i) as [h|] eqn:Hi.
    2:{ apply lookup_ge_None in Hi. lia. }
    rewrite (drop_S _ _ _ Hi). simpl.
    unfold protected. simpl.
    destruct (decide (pointer h = d)) as [<-|Hne].
    + unfold ret. f_equal. symmetry. apply bool_decide_eq_true. left.
    + rewrite IH by lia. f_equal. unfold protected.
      apply bool_decide_ext. rewrite elem_of_cons. split; [auto|].
      intros [E|E]; [congruence|exact E].
Qed.

Lemma is_hazardous_spec q d :
  hazard_holder_size q <= length (hazard_holder q) ->
  is_hazardous d q
  = Ret (protected (take (hazard_holder_size q) (hazard_holder q)) d) q.
Proof.
  intros H. unfold is_hazardous, bind, gets.
  rewrite scan_hazards_spec by lia. reflexivity.
Qed.

Lemma set_hazard_holder_id f q :
  f (hazard_holder q) = hazard_holder q -> set_hazard_holder f q = q.
Proof. destruct q; unfold set_hazard_holder; simpl. intros ->. reflexivity. Qed.

Lemma wp_test_and_set a n q (Q : bool -> Queue_TS -> Prop) :
  mem q !! a = Some n ->
  Q (taken n) (set_mem <[a := Node true (data n) (next n)]> q) ->
  wp (test_and_set (Some a)) Q q.
Proof.
  intros Ha HQ. unfold test_and_set. apply wp_bind. eapply wp_deref; [exact Ha|].
  apply wp_bind. apply wp_modify. apply wp_ret. exact HQ.
Qed.

Lemma wp_clear_taken a n q (Q : unit -> Queue_TS -> Prop) :
  mem q !! a = Some n ->
  Q tt (set_mem <[a := Node false (data n) (next n)]> q) ->
  wp (clear_taken (Some a)) Q q.
Proof.
  intros Ha HQ. unfold clear_taken. apply wp_bind. eapply wp_deref; [exact Ha|].
  apply wp_modify. exact HQ.
Qed.

Lemma wp_store_data a n d q (Q : unit -> Queue_TS -> Prop) :
  mem q !! a = Some n ->
  Q tt (set_mem <[a := Node (taken n) d (next n)]> q) ->
  wp (store_data (Some a) d) Q q.
Proof.
  intros Ha HQ. unfold store_data. apply wp_bind. eapply wp_deref; [exact Ha|].
  apply wp_modify. exact HQ.
Qed.

Lemma wp_store_next a n x q (Q : unit -> Queue_TS -> Prop) :
  mem q !! a = Some n ->
  Q tt (set_mem <[a := Node (taken n) (data n) x]> q) ->
  wp (store_next (Some a) x) Q q.
Proof.
  intros Ha HQ. unfold store_next. apply wp_bind. eapply wp_deref; [exact Ha|].
  apply wp_modify. exact HQ.
Qed.

Lemma wp_is_hazardous d q (Q : bool -> Queue_TS -> Prop) :
  hazard_holder_size q = length (hazard_holder q) ->
  Q (protected (hazard_holder q) d) q ->
  wp (is_hazardous d) Q q.
Proof.
  intros Hlen HQ. eapply wp_eq; [apply is_hazardous_spec; lia|].
  rewrite Hlen, firstn_all. exact HQ.
Qed.

(** **** Acquiring and releasing a hazard slot *)

Lemma wp_find_slot i : forall start fuel q (Q : nat -> Queue_TS -> Prop) p,
  start <= i -> i - start < fuel ->
  i < hazard_holder_size q ->
  hazard_holder q !! i = Some (Hazard false p) ->
  (forall j, start <= j < i -> exists pj, hazard_holder q !! j = Some (Hazard true pj)) ->
  Q i (set_hazard_holder <[i := Hazard true p]> q) ->
  wp (find_slot fuel start) Q q.
Proof.
  intros start fuel. revert start.
  induction fuel as [|fuel IH]; intros start q Q p Hle Hfuel Hsz Hi Hbefore HQ; [lia|].
  simpl. apply wp_bind.
  destruct (decide (start = i)) as [->|Hne].
  - eapply wp_slot_ref; [exact Hi|]. simpl.
    apply wp_bind, wp_modify. apply wp_ret. exact HQ.
  - destruct (Hbefore start) as [pj Hj]; [lia|].
    eapply wp_slot_ref; [exact Hj|]. simpl.
    apply wp_bind, wp_modify. apply wp_bind, wp_gets.
    rewrite set_hazard_holder_id by (apply list_insert_id; exact Hj).
    rewrite Nat.mod_small by lia.
    eapply IH; eauto; try lia.
    intros j Hj'. apply Hbefore. lia.
Qed.

Lemma wp_publish_head fuel slot h q (Q : option addr -> Queue_TS -> Prop) :
  hazard_holder q !! slot = Some h ->
  Q (head q) (set_hazard_holder <[slot := Hazard (slot_taken h) (head q)]> q) ->
  wp (publish_head (S fuel) slot) Q q.
Proof.
  intros Hs HQ. simpl. apply wp_bind, wp_gets. apply wp_bind. unfold publish.
  apply wp_bind. eapply wp_slot_ref; [exact Hs|]. apply wp_modify.
  apply wp_bind, wp_gets. simpl.
  rewrite decide_True by reflexivity. apply wp_ret. exact HQ.
Qed.

Lemma wp_load_head_set_hazard fuel i q (Q : nat * option addr -> Queue_TS -> Prop) :
  first_free (hazard_holder q) i ->
  i < hazard_holder_size q -> i < fuel ->
  Q (i, head q) (set_hazard_holder <[i := Hazard true (head q)]> q) ->
  wp (load_head_set_hazard fuel) Q q.
Proof.
  intros [[p Hi] Hbefore] Hsz Hfuel HQ. unfold load_head_set_hazard.
  apply wp_bind. eapply (wp_find_slot i 0); eauto; try lia.
  { intros j Hj. apply Hbefore. lia. }
  apply wp_bind. destruct fuel as [|fuel]; [lia|].
  eapply wp_publish_head.
  { simpl. apply list_lookup_insert_eq. eapply lookup_lt_Some, Hi. }
  apply wp_ret. simpl.
  destruct q; unfold set_hazard_holder in *; simpl in *.
  rewrite list_insert_insert_eq. exact HQ.
Qed.

Lemma wp_clear_hazard slot q (Q : unit -> Queue_TS -> Prop) :
  slot < length (hazard_holder q) ->
  Q tt (set_hazard_holder <[slot := Hazard false None]> q) ->
  wp (clear_hazard slot) Q q.
Proof.
  intros Hlt HQ. unfold clear_hazard.
  destruct (lookup_lt_is_Some_2 _ _ Hlt) as [h Hh].
  apply wp_bind. eapply wp_slot_ref; [exact Hh|].
  apply wp_bind, wp_modify. apply wp_bind.
  eapply wp_slot_ref; [simpl; apply list_lookup_insert_eq; exact Hlt|].
  apply wp_modify.
  destruct q; unfold set_hazard_holder in *; simpl in *.
  rewrite list_insert_insert_eq. exact HQ.
Qed.

(** One round of the claim loop of [pop] when the head's flag is free:
    the flag is set and the hazard table is as before, but for the slot
    used, which ends up free and null. *)
Lemma wp_pop_claim fuel i h n q (Q : option addr -> Queue_TS -> Prop) :
  first_free (hazard_holder q) i ->
  i < hazard_holder_size q -> i <= fuel ->
  head q = Some h ->
  mem q !! h = Some n -> taken n = false ->
  Q (Some h)
    (set_hazard_holder <[i := Hazard false None]>
       (set_mem <[h := Node true (data n) (next n)]> q)) ->
  wp (pop_claim (S fuel)) Q q.
Proof.
  intros Hfree Hsz Hfuel Hh Hn Htaken HQ.
  assert (Hlen : i < length (hazard_holder q)).
  { destruct Hfree as [[p Hp] _]. eapply lookup_lt_Some, Hp. }
  simpl. apply wp_bind.
  eapply wp_load_head_set_hazard; eauto; try lia.
  rewrite Hh. unfold pop_try. apply wp_bind, wp_bind.
  eapply wp_test_and_set; [exact Hn|].
  apply wp_bind. apply wp_clear_hazard.
  { simpl. rewrite length_insert. exact Hlen. }
  apply wp_ret. rewrite Htaken. apply wp_ret.
  destruct q; unfold set_hazard_holder, set_mem in *; simpl in *.
  rewrite list_insert_insert_eq. exact HQ.
Qed.

(** **** Disposing of a node *)

Lemma wp_push_to_garbage fuel a n q (Q : unit -> Queue_TS -> Prop) :
  mem q !! a = Some n ->
  Q tt (set_garbage_size size_incr
         (set_garbage (Some a)
           (set_mem <[a := Node (taken n) (data n) (garbage q)]>
             (record (Deferred a (hazard_holder q)) q)))) ->
  wp (push_to_garbage (S fuel) (Some a)) Q q.
Proof.
  intros Ha HQ. unfold push_to_garbage.
  apply wp_bind. eapply wp_deref; [exact Ha|].
  apply wp_bind, wp_gets. apply wp_bind, wp_modify. apply wp_bind, wp_gets.
  apply wp_bind. eapply wp_store_next; [exact Ha|].
  apply wp_bind. simpl garbage_cas.
  apply wp_bind. eapply wp_deref; [simpl; apply lookup_insert_eq|].
  apply wp_bind, wp_gets. simpl.
  rewrite decide_True by reflexivity.
  apply wp_modify. apply wp_modify. exact HQ.
Qed.

Lemma wp_delete_node fuel a n q (Q : unit -> Queue_TS -> Prop) :
  mem q !! a = Some n -> next n = None ->
  Q tt (set_mem (delete a) (record (Freed a (hazard_holder q)) q)) ->
  wp (delete_node (S fuel) (Some a)) Q q.
Proof.
  intros Ha Hnext HQ. simpl.
  apply wp_bind. eapply wp_deref; [exact Ha|]. rewrite Hnext.
  apply wp_bind, wp_ret. apply wp_bind, wp_gets.
  apply wp_bind, wp_modify. apply wp_modify. exact HQ.
Qed.

(** **** The quiescent queue *)

Lemma protected_clear (k : nat) d :
  d <> None -> protected (replicate k (Hazard false None)) d = false.
Proof.
  intros Hd. unfold protected. apply bool_decide_eq_false.
  rewrite fmap_replicate. simpl. intros [-> _]%elem_of_replicate. congruence.
Qed.

Lemma first_free_clear (k : nat) :
  0 < k -> first_free (replicate k (Hazard false None)) 0.
Proof.
  intros Hk. split.
  - exists None. apply lookup_replicate_2. exact Hk.
  - intros j Hj. lia.
Qed.

Lemma insert_clear (k : nat) :
  <[0 := Hazard false None]> (replicate k (Hazard false None))
  = replicate k (Hazard false None).
Proof. destruct k; reflexivity. Qed.

(** Two walks from the same node to the tail carry the same values. *)
Lemma chain_functional m t : forall vals1 vals2 p dt nt,
  m !! t = Some (Node false None nt) ->
  chain m p vals1 t -> chain m p vals2 dt -> dt = t -> vals1 = vals2.
Proof.
  induction vals1 as [|v1 vals1 IH]; intros [|v2 vals2] p dt nt Ht H1 H2 ->; simpl in *.
  - reflexivity.
  - subst p. destruct H2 as (p' & Hp & _). congruence.
  - subst p. destruct H1 as (p' & Hp & _). congruence.
  - destruct H1 as (p1 & Hp1 & H1). destruct H2 as (p2 & Hp2 & H2).
    rewrite Hp1 in Hp2. injection Hp2 as -> ->. f_equal. eauto.
Qed.

(** Removing a node from which the walk to the tail is longer leaves a
    shorter walk as it is. *)
Lemma chain_delete m t a nt : forall vals p,
  m !! t = Some (Node false None nt) ->
  (forall vals', chain m a vals' t -> length vals < length vals') ->
  a <> t ->
  chain m p vals t -> chain (delete a m) p vals t.
Proof.
  induction vals as [|v vals IH]; intros p Ht Hlong Hat Hc; simpl in *.
  - exact Hc.
  - destruct Hc as (p' & Hp & Hc). exists p'. split.
    + rewrite lookup_delete_ne; [exact Hp|]. intros ->.
      specialize (Hlong (v :: vals)). simpl in Hlong.
      assert (length vals < length vals) by (apply Nat.succ_lt_mono, Hlong; eauto).
      lia.
    + apply IH; auto. intros vals' Hv. specialize (Hlong vals' Hv). lia.
Qed.

(** Nodes off the walk do not matter to it. *)
Lemma chain_frame m m' t : forall vals p,
  (forall a n, m !! a = Some n -> data n <> None -> m' !! a = Some n) ->
  chain m p vals t -> chain m' p vals t.
Proof.
  induction vals as [|v vals IH]; intros p Hsame Hc; simpl in *.
  - exact Hc.
  - destruct Hc as (p' & Hp & Hc). exists p'. split; [|eauto].
    apply Hsame; [exact Hp|]. simpl. congruence.
Qed.

Lemma chain_snoc m t t' v : forall vals p,
  m !! t = Some (Node false (Some v) (Some t')) ->
  chain m p vals t -> chain m p (vals ++ [v]) t'.
Proof.
  induction vals as [|v0 vals IH]; intros p Ht Hc; simpl in *.
  - subst p. exists t'. auto.
  - destruct Hc as (p' & Hp & Hc). exists p'. auto.
Qed.

Lemma pop_nonempty fuel q v vals :
  holds q (v :: vals) ->
  wp (pop (S fuel)) (fun r q' => r = Some v /\ holds q' vals) q.
Proof.
  intros (h & t & Hh & Ht & Hchain & Hmt & Hg & Hgs & Hsz & Hhz).
  pose proof Hchain as (p' & Hp & Hc).
  assert (Hne : h <> t) by (intros ->; congruence).
  assert (Hfinal : holds
    (Mk (delete h (mem q)) (Some p') (tail q) None 0%N (garbage_max_size q)
        (hazard_holder q) (hazard_holder_size q)
        (Freed h (hazard_holder q) :: history q)) vals).
  { exists p', t. qsimpl. repeat split; auto.
    - eapply chain_delete; eauto.
      intros vals' Hv. rewrite (chain_functional _ _ _ _ _ _ _ Hmt Hv Hchain eq_refl).
      simpl. lia.
    - rewrite lookup_delete_ne by congruence. exact Hmt. }
  destruct q as [m hd tl g gs gm hh hs hist]. qsimpl. subst hd tl g gs hh.
  unfold pop. apply wp_bind.
  eapply (wp_pop_claim fuel 0); qsimpl; eauto; try lia.
  { apply first_free_clear. exact Hsz. }
  qnorm. rewrite insert_clear.
  unfold pop_finish. apply wp_bind, wp_gets. qsimpl.
  rewrite decide_False by congruence.
  apply wp_bind. unfold unlink.
  apply wp_bind. eapply wp_deref; [qsimpl; apply lookup_insert_eq|]. qsimpl.
  apply wp_bind, wp_modify. qnorm.
  apply wp_bind. eapply wp_deref; [qsimpl; apply lookup_insert_eq|]. qsimpl.
  apply wp_bind. eapply wp_store_data; [qsimpl; apply lookup_insert_eq|]. qnorm.
  apply wp_bind. eapply wp_store_next; [qsimpl; apply lookup_insert_eq|]. qnorm.
  apply wp_ret. unfold dispose.
  apply wp_bind. apply wp_is_hazardous.
  { qsimpl. rewrite length_replicate. reflexivity. }
  qsimpl. rewrite protected_clear by congruence.
  apply wp_bind. eapply wp_delete_node; [qsimpl; apply lookup_insert_eq|reflexivity|].
  qnorm. rewrite !insert_insert_eq, delete_insert_eq.
  apply wp_bind. unfold is_garbage_full.
  apply wp_bind, wp_gets. apply wp_bind, wp_gets. qsimpl.
  destruct (decide (0 < gm)%N).
  - apply wp_ret. apply wp_bind, wp_ret. apply wp_ret. split; [reflexivity|].
    exact Hfinal.
  - apply wp_ret. apply wp_bind. unfold collect_garbage.
    apply wp_bind, wp_gets. qsimpl.
    apply wp_bind, wp_modify. qnorm. apply wp_ret. apply wp_ret.
    split; [reflexivity|]. exact Hfinal.
Qed.

Lemma pop_empty fuel q :
  holds q [] -> pop (S fuel) q = Ret None q.
Proof.
  intros (h & t & Hh & Ht & Hchain & Hmt & Hg & Hgs & Hsz & Hhz).
  simpl in Hchain. subst h.
  cut (wp (pop (S fuel)) (fun r q' => r = None /\ q' = q) q).
  { intros (a & s' & -> & -> & ->)%wp_Ret. reflexivity. }
  destruct q as [m hd tl g gs gm hh hs hist]. qsimpl. subst hd tl g gs hh.
  unfold pop. apply wp_bind.
  eapply (wp_pop_claim fuel 0); qsimpl; eauto; try lia.
  { apply first_free_clear. exact Hsz. }
  qnorm. rewrite insert_clear.
  unfold pop_finish. apply wp_bind, wp_gets. qsimpl.
  rewrite decide_True by reflexivity.
  apply wp_bind. eapply wp_clear_taken; [qsimpl; apply lookup_insert_eq|].
  apply wp_ret. qnorm. split; [reflexivity|].
  rewrite insert_insert_eq, insert_id by exact Hmt. reflexivity.
Qed.

Lemma push_holds fuel q v vals :
  holds q vals ->
  wp (push alloc (S fuel) v) (fun _ q' => holds q' (vals ++ [v])) q.
Proof.
  intros (h & t & Hh & Ht & Hchain & Hmt & Hg & Hgs & Hsz & Hhz).
  destruct q as [m hd tl g gs gm hh hs hist]. qsimpl. subst hd tl g gs hh.
  pose proof (alloc_fresh m) as Hfresh.
  assert (Hnt : alloc m <> t) by (intros E; rewrite E in Hfresh; congruence).
  unfold push. apply wp_bind. unfold new_node. unfold wp at 1. qnorm.
  apply wp_bind. simpl push_claim. apply wp_bind, wp_gets. qsimpl.
  apply wp_bind. unfold claim_data. apply wp_bind.
  eapply wp_deref; [qsimpl; rewrite lookup_insert_ne by exact Hnt; exact Hmt|].
  qsimpl. apply wp_bind, wp_modify. apply wp_ret. apply wp_ret.
  apply wp_bind. eapply wp_store_next; [qnorm; apply lookup_insert_eq|].
  apply wp_modify. qnorm. rewrite insert_insert_eq.
  exists h, (alloc m). qsimpl. repeat split; auto.
  - apply chain_snoc with (t := t).
    + apply lookup_insert_eq.
    + eapply chain_frame; [|exact Hchain].
      intros a n Ha Hd. rewrite !lookup_insert_ne; [exact Ha| |].
      * intros <-. congruence.
      * intros <-. rewrite Hmt in Ha. injection Ha as <-. apply Hd. reflexivity.
  - rewrite lookup_insert_ne by congruence. apply lookup_insert_eq.
Qed.

Lemma ctor_holds hs gm : 0 < hs -> holds (ctor alloc hs gm) [].
Proof.
  intros Hhs. exists (alloc ∅), (alloc ∅). unfold ctor. qsimpl.
  repeat split; auto. apply lookup_singleton_eq.
Qed.

(** Any sequence of calls on a quiescent queue answers as the first-in
    first-out list does. *)
Lemma run_fifo fuel calls : forall q content,
  holds q content ->
  wp (run alloc (S fuel) calls) (fun rs _ => rs = fifo calls content) q.
Proof.
  induction calls as [|c calls IH]; intros q content Hq.
  - apply wp_ret. reflexivity.
  - destruct c as [v|]; cbn [run fifo].
    + apply wp_bind. eapply wp_mono; [apply push_holds; exact Hq|].
      intros u q' Hq'. cbn beta. apply IH. exact Hq'.
    + apply wp_bind. destruct content as [|v content].
      * eapply wp_eq; [apply pop_empty; exact Hq|].
        apply wp_bind. eapply wp_mono; [apply IH; exact Hq|].
        intros rs q' ->. apply wp_ret. reflexivity.
      * eapply wp_mono; [apply pop_nonempty; exact Hq|].
        intros r q' [-> Hq']. cbn beta.
        apply wp_bind. eapply wp_mono; [apply IH; exact Hq'|].
        intros rs q'' ->. apply wp_ret. reflexivity.
Qed.

(** **** Every disposal is in order *)

Lemma keeps_shape {A} (c : M (Queue_TS (T:=T)) A) : keeps table_obs c -> keeps shape_obs c.
Proof.
  intros H s. eapply wlp_mono; [apply H|]. intros a s' Hs'. cbn beta in *.
  unfold table_obs, shape_obs in *. congruence.
Qed.

Lemma keeps_deref {O} (obs : Queue_TS (T:=T) -> O) p : keeps obs (deref p).
Proof.
  intros s. unfold wlp, deref. destruct p as [a|]; [|exact I].
  destruct (mem s !! a); [reflexivity|exact I].
Qed.

Lemma keeps_slot_ref {O} (obs : Queue_TS (T:=T) -> O) i : keeps obs (slot_ref i).
Proof.
  intros s. unfold wlp, slot_ref. destruct (hazard_holder s !! i); [reflexivity|exact I].
Qed.

Lemma keeps_slot_update i h : keeps shape_obs (slot_update i h).
Proof.
  apply keeps_modify. intros s. unfold shape_obs. qnorm. rewrite length_insert. reflexivity.
Qed.

Ltac keeps_step :=
  match goal with
  | |- keeps _ (bind _ _) => apply keeps_bind; [|intros ?]
  | |- keeps _ (ret _) => apply keeps_ret
  | |- keeps _ (gets _) => apply keeps_gets
  | |- keeps _ spin => apply keeps_spin
  | |- keeps _ fault => apply keeps_fault
  | |- keeps _ (deref _) => apply keeps_deref
  | |- keeps _ (slot_ref _) => apply keeps_slot_ref
  | |- keeps shape_obs (slot_update _ _) => apply keeps_slot_update
  | |- keeps _ (update _ _) => apply keeps_modify; intros ?; reflexivity
  | |- keeps _ (modify _) => apply keeps_modify; intros ?; reflexivity
  | H : context [keeps _ _] |- keeps _ _ => apply H
  | |- keeps _ (match ?x with _ => _ end) => destruct x
  | |- keeps shape_obs _ => apply keeps_shape
  end.
Ltac keeps_auto := repeat keeps_step.

Lemma keeps_test_and_set p : keeps table_obs (test_and_set p).
Proof. unfold test_and_set. keeps_auto. Qed.
Lemma keeps_clear_taken p : keeps table_obs (clear_taken p).
Proof. unfold clear_taken. keeps_auto. Qed.
Lemma keeps_store_data p d : keeps table_obs (store_data p d).
Proof. unfold store_data. keeps_auto. Qed.
Lemma keeps_store_next p x : keeps table_obs (store_next p x).
Proof. unfold store_next. keeps_auto. Qed.
Lemma keeps_is_garbage_full : keeps table_obs is_garbage_full.
Proof. unfold is_garbage_full. keeps_auto. Qed.

Lemma keeps_garbage_cas fuel : forall p, keeps table_obs (garbage_cas fuel p).
Proof.
  induction fuel as [|fuel IH]; intros p; simpl; [apply keeps_spin|].
  pose proof keeps_store_next. keeps_auto.
Qed.

Lemma keeps_find_slot fuel : forall slot, keeps shape_obs (find_slot fuel slot).
Proof. induction fuel as [|fuel IH]; intros slot; simpl; keeps_auto. Qed.

Lemma keeps_publish_head fuel : forall slot, keeps shape_obs (publish_head fuel slot).
Proof. induction fuel as [|fuel IH]; intros slot; simpl; unfold publish; keeps_auto. Qed.

Lemma keeps_load_head_set_hazard fuel : keeps shape_obs (load_head_set_hazard fuel).
Proof.
  unfold load_head_set_hazard.
  pose proof keeps_find_slot. pose proof keeps_publish_head. keeps_auto.
Qed.

Lemma keeps_clear_hazard slot : keeps shape_obs (clear_hazard slot).
Proof. unfold clear_hazard. keeps_auto. Qed.

Lemma keeps_pop_try slot p : keeps shape_obs (pop_try slot p).
Proof.
  unfold pop_try. pose proof keeps_clear_hazard.
  apply keeps_bind; [apply keeps_shape, keeps_test_and_set|intros ?]. keeps_auto.
Qed.

Lemma keeps_pop_claim fuel : keeps shape_obs (pop_claim fuel).
Proof.
  induction fuel as [|fuel IH]; simpl; [apply keeps_spin|].
  pose proof keeps_load_head_set_hazard. pose proof keeps_pop_try. keeps_auto.
Qed.

Lemma in_order_shape (s0 s s' : Queue_TS (T:=T)) :
  shape_obs s' = shape_obs s -> in_order s0 s -> in_order s0 s'.
Proof.
  unfold shape_obs, in_order, disposed_ok. intros [= -> Hl ->] [Hd Hs]. split; [exact Hd|].
  congruence.
Qed.

Lemma wlp_keeps {A} (c : M (Queue_TS (T:=T)) A) s0 s :
  keeps shape_obs c -> in_order s0 s -> wlp c (fun _ s' => in_order s0 s') s.
Proof.
  intros Hc Hs. eapply wlp_mono; [apply Hc|]. intros a s' Hs'. cbn beta in *.
  eapply in_order_shape; eauto.
Qed.

Lemma in_order_record s0 s d :
  disposal_ok d -> in_order s0 s -> in_order s0 (record d s).
Proof.
  intros Hd [(new & Hh & Hnew) Hs]. split; [|exact Hs].
  exists (d :: new). qnorm. rewrite Hh. split; [reflexivity|]. constructor; auto.
Qed.

Lemma wlp_deref p s (Q : addr * node -> Queue_TS -> Prop) :
  (forall a n, p = Some a -> mem s !! a = Some n -> Q (a, n) s) ->
  wlp (deref p) Q s.
Proof.
  intros H. unfold wlp, deref. destruct p as [a|]; [|exact I].
  destruct (mem s !! a) as [n|] eqn:E; [|exact I]. apply H; auto.
Qed.

Lemma push_to_garbage_in_order fuel p s0 s :
  in_order s0 s -> protected (hazard_holder s) p = true ->
  wlp (push_to_garbage fuel p) (fun _ s' => in_order s0 s') s.
Proof.
  intros Hs Hp. unfold push_to_garbage.
  apply wlp_bind, wlp_deref. intros a n -> Ha.
  apply wlp_bind, wlp_gets. apply wlp_bind, wlp_modify.
  apply wlp_keeps.
  - pose proof keeps_store_next. pose proof keeps_garbage_cas. keeps_auto.
  - apply in_order_record; auto.
Qed.

Lemma delete_node_in_order fuel a n s0 s :
  in_order s0 s -> mem s !! a = Some n -> next n = None ->
  protected (hazard_holder s) (Some a) = false ->
  wlp (delete_node fuel (Some a)) (fun _ s' => in_order s0 s') s.
Proof.
  intros Hs Ha Hn Hp. destruct fuel as [|fuel]; [exact I|]. simpl.
  apply wlp_bind. apply wp_wlp. eapply wp_deref; [exact Ha|]. rewrite Hn.
  apply wlp_bind, wlp_ret. apply wlp_bind, wlp_gets. apply wlp_bind, wlp_modify.
  apply wlp_modify.
  eapply in_order_shape; [|apply in_order_record; [|exact Hs]]; [reflexivity|exact Hp].
Qed.

(** The check and what follows it, in [pop] and in [collect_garbage]. *)
Lemma dispose_in_order {B} fuel a n s0 s (k : M (Queue_TS (T:=T)) B) Q :
  in_order s0 s -> mem s !! a = Some n -> next n = None ->
  (forall s', in_order s0 s' -> wlp k Q s') ->
  wlp (bind (is_hazardous (Some a))
         (fun hz : bool =>
            bind (if hz then push_to_garbage fuel (Some a)
                  else delete_node fuel (Some a))
                 (fun _ => k)))
      Q s.
Proof.
  intros Hs Ha Hn Hk. apply wlp_bind. apply wp_wlp.
  apply wp_is_hazardous; [apply Hs|].
  apply wlp_bind.
  destruct (protected (hazard_holder s) (Some a)) eqn:Hp.
  - eapply wlp_mono; [apply push_to_garbage_in_order; eauto|]. intros u s'. apply Hk.
  - eapply wlp_mono; [eapply delete_node_in_order; eauto|]. intros u s'. apply Hk.
Qed.

Lemma wlp_store_next_None p s (Q : unit -> Queue_TS -> Prop) :
  (forall a n, p = Some a -> mem s !! a = Some n ->
     Q tt (set_mem <[a := Node (taken n) (data n) None]> s)) ->
  wlp (store_next p None) Q s.
Proof.
  intros H. unfold store_next. apply wlp_bind, wlp_deref. intros a n -> Ha.
  apply wlp_modify. apply H; auto.
Qed.

Lemma collect_loop_in_order s0 fuel : forall g s,
  in_order s0 s -> wlp (collect_loop fuel g) (fun _ s' => in_order s0 s') s.
Proof.
  induction fuel as [|fuel IH]; intros [a|] s Hs; cbn [collect_loop];
    try exact I; try exact Hs.
  apply wlp_bind, wlp_modify. apply wlp_bind, wlp_deref. intros a' n [= <-] Ha.
  apply wlp_bind, wlp_store_next_None. intros a' n' [= <-] Ha'.
  eapply (dispose_in_order _ a).
  - eapply in_order_shape; [|exact Hs]. reflexivity.
  - qnorm. apply lookup_insert_eq.
  - reflexivity.
  - intros s' Hs'. apply IH. exact Hs'.
Qed.

Lemma collect_garbage_in_order s0 fuel s :
  in_order s0 s -> wlp (collect_garbage fuel) (fun _ s' => in_order s0 s') s.
Proof.
  intros Hs. unfold collect_garbage. apply wlp_bind, wlp_gets.
  apply wlp_bind, wlp_modify. apply collect_loop_in_order.
  eapply in_order_shape; [|exact Hs]. reflexivity.
Qed.

Lemma pop_finish_in_order s0 fuel p s :
  in_order s0 s -> wlp (pop_finish fuel p) (fun _ s' => in_order s0 s') s.
Proof.
  intros Hs. unfold pop_finish. apply wlp_bind, wlp_gets.
  destruct (decide (p = tail s)) as [Heq|Hne].
  { apply wlp_keeps; [|exact Hs]. pose proof keeps_clear_taken. keeps_auto. }
  apply wlp_bind. unfold unlink.
  apply wlp_bind, wlp_deref. intros a n -> Ha.
  apply wlp_bind, wlp_modify.
  apply wlp_bind, wlp_deref. intros a' n' [= <-] Ha'.
  apply wlp_bind. unfold store_data.
  apply wlp_bind, wlp_deref. intros a' n'' [= <-] Ha''. apply wlp_modify.
  apply wlp_bind, wlp_store_next_None. intros a' n3 [= <-] Ha3.
  apply wlp_ret. unfold dispose.
  eapply (dispose_in_order _ a).
  - eapply in_order_shape; [|exact Hs]. reflexivity.
  - qnorm. apply lookup_insert_eq.
  - reflexivity.
  - intros s' Hs'.
    apply wlp_bind. eapply wlp_mono.
    { apply wlp_keeps; [|exact Hs']. apply keeps_shape, keeps_is_garbage_full. }
    intros full s'' Hs''. cbn beta.
    apply wlp_bind. destruct full.
    + eapply wlp_mono; [apply collect_garbage_in_order; exact Hs''|].
      intros u' s3 Hs3. apply wlp_ret. exact Hs3.
    + apply wlp_ret. apply wlp_ret. exact Hs''.
Qed.

Lemma pop_in_order s0 fuel s :
  in_order s0 s -> wlp (pop fuel) (fun _ s' => in_order s0 s') s.
Proof.
  intros Hs. unfold pop. apply wlp_bind.
  eapply wlp_mono; [apply wlp_keeps; [apply keeps_pop_claim|exact Hs]|].
  intros p s' Hs'. cbn beta. apply pop_finish_in_order. exact Hs'.
Qed.

Lemma in_order_refl s :
  hazard_holder_size s = length (hazard_holder s) -> in_order s s.
Proof. intros H. split; [|exact H]. exists []. split; [reflexivity|constructor]. Qed.

(** **** The sweep *)

Lemma size_incr_of_nat (k : nat) :
  (N.of_nat (S k) < size_max)%N -> size_incr (N.of_nat k) = N.of_nat (S k).
Proof.
  intros H. unfold size_incr. rewrite N.mod_small; lia.
Qed.

Lemma size_decr_of_nat (k : nat) :
  (N.of_nat (S k) < size_max)%N -> size_decr (N.of_nat (S k)) = N.of_nat k.
Proof.
  intros H. unfold size_decr.
  replace (N.of_nat (S k) + (size_max - 1))%N with (N.of_nat k + 1 * size_max)%N by lia.
  rewrite N.Div0.mod_add. apply N.mod_small. lia.
Qed.

Lemma glist_insert m a n : forall l p,
  a ∉ l -> glist m p l -> glist (<[a := n]> m) p l.
Proof.
  induction l as [|b l IH]; intros p Hnotin Hl; simpl in *; [exact Hl|].
  destruct Hl as (-> & nb & Hb & Hl). split; [reflexivity|].
  exists nb. split.
  - rewrite lookup_insert_ne; [exact Hb|]. intros ->. apply Hnotin. left.
  - apply IH; [|exact Hl]. intros Hin. apply Hnotin. right. exact Hin.
Qed.

Lemma glist_delete m a : forall l p,
  a ∉ l -> glist m p l -> glist (delete a m) p l.
Proof.
  induction l as [|b l IH]; intros p Hnotin Hl; simpl in *; [exact Hl|].
  destruct Hl as (-> & nb & Hb & Hl). split; [reflexivity|].
  exists nb. split.
  - rewrite lookup_delete_ne; [exact Hb|]. intros ->. apply Hnotin. left.
  - apply IH; [|exact Hl]. intros Hin. apply Hnotin. right. exact Hin.
Qed.

Lemma collect_loop_spec : forall l fuel q acc g,
  glist (mem q) g l -> glist (mem q) (garbage q) acc ->
  NoDup (l ++ acc) ->
  garbage_size q = N.of_nat (length l + length acc) ->
  (N.of_nat (length l + length acc) < size_max)%N ->
  hazard_holder_size q = length (hazard_holder q) ->
  length l <= fuel ->
  wp (collect_loop fuel g)
     (fun _ q' =>
        hazard_holder q' = hazard_holder q /\
        garbage_max_size q' = garbage_max_size q /\
        head q' = head q /\ tail q' = tail q /\
        glist (mem q') (garbage q') (rev (kept (hazard_holder q) l) ++ acc) /\
        garbage_size q' = N.of_nat (length (rev (kept (hazard_holder q) l) ++ acc)))
     q.
Proof.
  induction l as [|a l IH]; intros fuel q acc g Hl Hacc Hnd Hsize Hmax Hlen Hfuel.
  - simpl in Hl. subst g. destruct fuel; simpl; apply wp_ret; repeat split; auto.
  - destruct Hl as (-> & n & Ha & Hl).
    destruct fuel as [|fuel]; [simpl in Hfuel; lia|].
    simpl in Hnd. apply NoDup_cons in Hnd as [Hnotin Hnd].
    apply not_elem_of_app in Hnotin as [Hal Haacc].
    cbn [collect_loop].
    apply wp_bind, wp_modify.
    apply wp_bind. eapply wp_deref; [qnorm; exact Ha|].
    apply wp_bind. eapply wp_store_next; [qnorm; exact Ha|].
    apply wp_bind. apply wp_is_hazardous; [qnorm; exact Hlen|]. qsimpl.
    unfold kept. cbn [length] in *.
    destruct (protected (hazard_holder q) (Some a)) eqn:Hp.
    + apply wp_bind. eapply wp_push_to_garbage; [qnorm; apply lookup_insert_eq|].
      eapply wp_mono.
      { apply (IH fuel _ (a :: acc)); qnorm.
        - rewrite insert_insert_eq. apply glist_insert; auto.
        - split; [reflexivity|]. eexists. split; [rewrite insert_insert_eq; apply lookup_insert_eq|].
          qsimpl. rewrite insert_insert_eq. apply glist_insert; auto.
        - apply NoDup_app. apply NoDup_app in Hnd as (Hn1 & Hn2 & Hn3).
          split; [exact Hn1|]. split.
          + intros x Hx [->|Hx']%elem_of_cons; [contradiction|]. eapply Hn2; eauto.
          + apply NoDup_cons; auto.
        - rewrite Hsize.
          replace (S (length l) + length acc) with (S (length l + length acc)) by lia.
          rewrite size_decr_of_nat by (revert Hmax; simpl; intros; lia).
          rewrite size_incr_of_nat by (revert Hmax; simpl; intros; lia).
          f_equal. simpl. lia.
        - simpl. revert Hmax. simpl. intros. lia.
        - exact Hlen.
        - simpl in Hfuel. lia. }
      intros u q' (Hh & Hg & Hhd & Htl & Hgl & Hsz). qnorm.
      rewrite filter_cons_True by exact Hp. simpl rev.
      rewrite <- app_assoc. simpl. repeat split; auto.
    + apply wp_bind. eapply wp_delete_node; [qnorm; apply lookup_insert_eq|reflexivity|].
      eapply wp_mono.
      { apply (IH fuel _ acc); qnorm.
        - rewrite delete_insert_eq. apply glist_delete; auto.
        - rewrite delete_insert_eq. apply glist_delete; auto.
        - exact Hnd.
        - rewrite Hsize.
          replace (S (length l) + length acc) with (S (length l + length acc)) by lia.
          rewrite size_decr_of_nat by (revert Hmax; simpl; intros; lia).
          reflexivity.
        - revert Hmax. simpl. intros. lia.
        - exact Hlen.
        - simpl in Hfuel. lia. }
      intros u q' (Hh & Hg & Hhd & Htl & Hgl & Hsz). qnorm.
      rewrite filter_cons_False by (rewrite Hp; discriminate).
      repeat split; auto.
Qed.

Lemma kept_protected table l :
  Forall (fun a => protected table (Some a) = true) (rev (kept table l)).
Proof.
  apply Forall_forall. intros a Ha.
  apply list_elem_of_In, in_rev, list_elem_of_In in Ha.
  unfold kept in Ha. apply list_elem_of_filter in Ha. tauto.
Qed.

(** [pop] on a queue that is [ready]: it returns the payload of the head
    node and leaves the garbage [swept]. *)
Lemma pop_swept fuel q i h n gs :
  ready q i h n gs ->
  i <= fuel -> length gs <= fuel ->
  wp (pop (S fuel))
     (fun r q' => r = data n /\ head q' = next n /\
                  hazard_holder q' = <[i := Hazard false None]> (hazard_holder q) /\
                  swept q') q.
Proof.
  intros (Hlen & Hfree & Hh & Hn & Htaken & Htail & Hgl & Hnd & Hnotin & Hsize & Hmax) Hi Hfuel.
  assert (Hisz : i < hazard_holder_size q).
  { destruct Hfree as [[p Hp] _]. rewrite Hlen. eapply lookup_lt_Some, Hp. }
  destruct q as [m hd tl g gs0 gm hh hs hist]. qsimpl. subst hd gs0.
  unfold pop. apply wp_bind.
  eapply (wp_pop_claim fuel i); qsimpl; eauto. qnorm.
  unfold pop_finish. apply wp_bind, wp_gets. qsimpl.
  rewrite decide_False by congruence.
  apply wp_bind. unfold unlink.
  apply wp_bind. eapply wp_deref; [qsimpl; apply lookup_insert_eq|]. qsimpl.
  apply wp_bind, wp_modify. qnorm.
  apply wp_bind. eapply wp_deref; [qsimpl; apply lookup_insert_eq|]. qsimpl.
  apply wp_bind. eapply wp_store_data; [qsimpl; apply lookup_insert_eq|]. qnorm.
  apply wp_bind. eapply wp_store_next; [qsimpl; apply lookup_insert_eq|]. qnorm.
  apply wp_ret. unfold dispose.
  rewrite !insert_insert_eq.
  apply wp_bind. apply wp_is_hazardous.
  { qsimpl. rewrite length_insert. exact Hlen. }
  qsimpl.
  set (table := <[i := Hazard false None]> hh).
  assert (Hmax' : (N.of_nat (S (length gs)) < size_max)%N) by lia.
  destruct (protected table (Some h)) eqn:Hp.
  - (* the old head is protected: it goes on the garbage list *)
    apply wp_bind. eapply wp_push_to_garbage; [qsimpl; apply lookup_insert_eq|]. qnorm.
    rewrite insert_insert_eq, size_incr_of_nat by exact Hmax'.
    assert (Hgl' : glist (<[h := Node true None g]> m) (Some h) (h :: gs)).
    { split; [reflexivity|]. eexists. split; [apply lookup_insert_eq|].
      qsimpl. apply glist_insert; auto. }
    apply wp_bind. unfold is_garbage_full.
    apply wp_bind, wp_gets. apply wp_bind, wp_gets. qsimpl.
    destruct (decide (N.of_nat (S (length gs)) < gm)%N) as [Hlt|Hge].
    + apply wp_ret. apply wp_bind, wp_ret. apply wp_ret.
      split; [reflexivity|]. split; [reflexivity|]. split; [reflexivity|].
      exists (h :: gs). split; [exact Hgl'|]. split; [reflexivity|]. left. exact Hlt.
    + apply wp_ret. apply wp_bind. unfold collect_garbage.
      apply wp_bind, wp_gets. apply wp_bind, wp_modify. qnorm.
      eapply wp_mono.
      { apply (collect_loop_spec (h :: gs) (S fuel) _ []); qsimpl;
          [ exact Hgl' | reflexivity
          | rewrite app_nil_r; apply NoDup_cons; auto
          | simpl; f_equal; lia
          | simpl; rewrite Nat.add_0_r; exact Hmax'
          | unfold table; rewrite length_insert; exact Hlen
          | simpl; lia ]. }
      intros u q' (Hh' & Hgm & Hhd & Htl & Hgl2 & Hsz). qsimpl.
      apply wp_ret. split; [reflexivity|]. split; [exact Hhd|]. split; [exact Hh'|].
      eexists. split; [exact Hgl2|]. split; [exact Hsz|]. right.
      rewrite app_nil_r, Hh'. apply kept_protected.
  - (* it is not: it is deleted *)
    apply wp_bind. eapply wp_delete_node; [qsimpl; apply lookup_insert_eq|reflexivity|].
    qnorm. rewrite delete_insert_eq.
    assert (Hgl' : glist (delete h m) g gs) by (apply glist_delete; auto).
    apply wp_bind. unfold is_garbage_full.
    apply wp_bind, wp_gets. apply wp_bind, wp_gets. qsimpl.
    destruct (decide (N.of_nat (length gs) < gm)%N) as [Hlt|Hge].
    + apply wp_ret. apply wp_bind, wp_ret. apply wp_ret.
      split; [reflexivity|]. split; [reflexivity|]. split; [reflexivity|].
      exists gs. split; [exact Hgl'|]. split; [reflexivity|]. left. exact Hlt.
    + apply wp_ret. apply wp_bind. unfold collect_garbage.
      apply wp_bind, wp_gets. apply wp_bind, wp_modify. qnorm.
      eapply wp_mono.
      { apply (collect_loop_spec gs (S fuel) _ []); qsimpl;
          [ exact Hgl' | reflexivity
          | rewrite app_nil_r; exact Hnd
          | f_equal; simpl; lia
          | simpl; rewrite Nat.add_0_r; lia
          | unfold table; rewrite length_insert; exact Hlen
          | lia ]. }
      intros u q' (Hh' & Hgm & Hhd & Htl & Hgl2 & Hsz). qsimpl.
      apply wp_ret. split; [reflexivity|]. split; [exact Hhd|]. split; [exact Hh'|].
      eexists. split; [exact Hgl2|]. split; [exact Hsz|]. right.
      rewrite app_nil_r, Hh'. apply kept_protected.
Qed.

(** **** The stretches of a thread make up the calls *)

Lemma wp_run {A} (c : M (Queue_TS (T:=T)) A) s a s' :
  wp c (fun r q => r = a /\ q = s') s -> c s = Ret a s'.
Proof. intros (r & q & -> & -> & ->)%wp_Ret. reflexivity. Qed.

(** A producer running alone on a queue whose tail node is unclaimed: its
    two stretches are [push]. *)
Lemma producer_alone fuel q v todo ps os t n :
  tail q = Some t -> mem q !! t = Some n -> data n = None ->
  QueueThreads.alone alloc (S fuel) 2
    (QueueThreads.Thread (QueueThreads.Producer (v :: todo)) QueueThreads.Idle ps os) q
  = bind (push alloc (S fuel) v)
      (fun _ => ret (QueueThreads.Thread (QueueThreads.Producer todo) QueueThreads.Idle
                       (ps ++ [v]) os)) q.
Proof.
  intros Ht Hn Hd.
  pose proof (alloc_fresh (mem q)) as Hfresh.
  assert (Hne : alloc (mem q) <> t) by (intros E; rewrite E in Hfresh; congruence).
  destruct q as [m hd tl g gs gm hh hs hist]. qsimpl. subst tl.
  unfold push. cbn [push_claim].
  destruct todo;
    repeat (cbn [QueueThreads.alone QueueThreads.thread_step QueueThreads.job
                 QueueThreads.at_pc QueueThreads.pushed QueueThreads.popped];
            unfold new_node, claim_data, store_next, update, modify, gets, ret, bind, deref;
            qnorm;
            rewrite ?lookup_insert_eq, ?(lookup_insert_ne _ _ _ _ Hne), ?Hn, ?Hd);
    reflexivity.
Qed.

Ltac stretch :=
  cbn [QueueThreads.alone QueueThreads.thread_step QueueThreads.job QueueThreads.at_pc
       QueueThreads.pushed QueueThreads.popped].

(** A consumer running alone on a queue with a free hazard slot and an
    unclaimed head node: its five stretches are [pop] (four, and one in
    which nothing is left to do, when the queue is empty). *)
Lemma consumer_alone fuel q ps os i h n :
  hazard_holder_size q = length (hazard_holder q) ->
  first_free (hazard_holder q) i -> i <= fuel ->
  head q = Some h -> mem q !! h = Some n -> taken n = false ->
  QueueThreads.alone alloc (S fuel) 5
    (QueueThreads.Thread (QueueThreads.Consumer false) QueueThreads.Idle ps os) q
  = bind (pop (S fuel))
      (fun r => ret (QueueThreads.returned
                       (QueueThreads.Thread (QueueThreads.Consumer false)
                          QueueThreads.Idle ps os) r)) q.
Proof.
  intros Hlen Hfree Hfuel Hh Hn Htaken.
  pose proof Hfree as [[p Hp] Hbefore].
  assert (Hi : i < length (hazard_holder q)) by (eapply lookup_lt_Some, Hp).
  set (q3 := set_hazard_holder <[i := Hazard false None]>
               (set_mem <[h := Node true (data n) (next n)]> q)).
  assert (Hclaim : pop_claim (S fuel) q = Ret (Some h) q3).
  { apply wp_run. eapply (wp_pop_claim fuel i); eauto; lia. }
  assert (Hfind : find_slot (S fuel) 0 q
                  = Ret i (set_hazard_holder <[i := Hazard true p]> q)).
  { apply wp_run. eapply (wp_find_slot i 0); eauto; try lia.
    intros j Hj. apply Hbefore. lia. }
  assert (Htry : pop_try i (Some h)
                   (set_hazard_holder <[i := Hazard true (Some h)]> q)
                 = Ret false q3).
  { apply wp_run. unfold pop_try. apply wp_bind.
    eapply wp_test_and_set; [qnorm; exact Hn|].
    apply wp_bind. apply wp_clear_hazard; [qnorm; rewrite length_insert; exact Hi|].
    apply wp_ret. split; [exact Htaken|].
    unfold q3. destruct q; qnorm. rewrite list_insert_insert_eq. reflexivity. }
  assert (Hpub : publish i (Some h) (set_hazard_holder <[i := Hazard true p]> q)
                 = Ret tt (set_hazard_holder <[i := Hazard true (Some h)]> q)).
  { apply wp_run. unfold publish. apply wp_bind.
    eapply wp_slot_ref; [qnorm; apply list_lookup_insert_eq; exact Hi|].
    apply wp_modify. split; [reflexivity|].
    destruct q; qnorm. subst. rewrite list_insert_insert_eq. reflexivity. }
  assert (Hpop : bind (pop (S fuel))
      (fun r => ret (QueueThreads.returned
                       (QueueThreads.Thread (QueueThreads.Consumer false)
                          QueueThreads.Idle ps os) r)) q
    = bind (pop_finish (S fuel) (Some h))
        (fun r => ret (QueueThreads.returned
                         (QueueThreads.Thread (QueueThreads.Consumer false)
                            QueueThreads.Idle ps os) r)) q3).
  { unfold pop, bind. rewrite Hclaim. reflexivity. }
  rewrite Hpop. clear Hpop Hclaim.
  stretch. unfold bind at 1 2 3. rewrite Hfind. unfold gets at 1, ret at 1.
  cbv beta iota. replace (head (set_hazard_holder <[i:=Hazard true p]> q)) with (Some h)
    by (symmetry; exact Hh).
  stretch. unfold bind at 1 2. rewrite Hpub. unfold ret at 1. cbv beta iota.
  stretch. unfold bind at 1 2. unfold gets at 1. cbv beta iota.
  replace (head (set_hazard_holder <[i:=Hazard true (Some h)]> q)) with (Some h)
    by (symmetry; exact Hh).
  rewrite decide_True by reflexivity. unfold ret at 1. cbv beta iota.
  stretch. unfold bind at 1 2. rewrite Htry. cbv beta iota.
  unfold pop_finish. unfold bind, gets, ret. cbv beta iota.
  destruct (decide (Some h = tail q3)) as [Heq|Hne].
  - destruct (clear_taken (Some h) q3); reflexivity.
  - destruct (unlink (Some h) q3) as [old_data q4| | |]; try reflexivity.
    destruct (is_hazardous (Some h) q4) as [hz q5| | |]; try reflexivity.
    stretch. unfold bind, ret.
    destruct (dispose (S fuel) (Some h) hz old_data q5) as [r q6| | |]; reflexivity.
Qed.

(** **** Whole calls as equations *)

Lemma push_eq fuel q v t n :
  tail q = Some t -> mem q !! t = Some n -> data n = None ->
  push alloc (S fuel) v q = Ret tt (pushed alloc t n v q).
Proof.
  intros Ht Hn Hd. apply wp_run.
  pose proof (alloc_fresh (mem q)) as Hfresh.
  assert (Hnt : alloc (mem q) <> t) by (intros E; rewrite E in Hfresh; congruence).
  unfold push. apply wp_bind. unfold new_node. unfold wp at 1.
  apply wp_bind. simpl push_claim. apply wp_bind, wp_gets. qnorm. rewrite Ht.
  apply wp_bind. unfold claim_data. apply wp_bind.
  eapply wp_deref; [qsimpl; rewrite lookup_insert_ne by exact Hnt; exact Hn|].
  rewrite Hd. apply wp_bind, wp_modify. apply wp_ret. apply wp_ret.
  apply wp_bind. eapply wp_store_next; [qnorm; apply lookup_insert_eq|].
  apply wp_modify. split; [reflexivity|].
  unfold pushed. destruct q. qnorm. rewrite insert_insert_eq. reflexivity.
Qed.

Lemma pop_eq fuel q v vals :
  holds q (v :: vals) ->
  exists h n,
    head q = Some h /\ mem q !! h = Some n /\
    pop (S fuel) q
    = Ret (Some v)
        (set_head (next n)
           (set_mem (delete h) (record (Freed h (hazard_holder q)) q))).
Proof.
  intros (h & t & Hh & Ht & Hchain & Hmt & Hg & Hgs & Hsz & Hhz).
  pose proof Hchain as (p' & Hp & Hc).
  assert (Hne : h <> t) by (intros ->; congruence).
  exists h, (Node false (Some v) (Some p')). split; [exact Hh|]. split; [exact Hp|].
  apply wp_run.
  destruct q as [m hd tl g gs gm hh hs hist]. qsimpl. subst hd tl g gs hh.
  unfold pop. apply wp_bind.
  eapply (wp_pop_claim fuel 0); qsimpl; eauto; try lia.
  { apply first_free_clear. exact Hsz. }
  qnorm. rewrite insert_clear.
  unfold pop_finish. apply wp_bind, wp_gets. qsimpl.
  rewrite decide_False by congruence.
  apply wp_bind. unfold unlink.
  apply wp_bind. eapply wp_deref; [qsimpl; apply lookup_insert_eq|]. qsimpl.
  apply wp_bind, wp_modify. qnorm.
  apply wp_bind. eapply wp_deref; [qsimpl; apply lookup_insert_eq|]. qsimpl.
  apply wp_bind. eapply wp_store_data; [qsimpl; apply lookup_insert_eq|]. qnorm.
  apply wp_bind. eapply wp_store_next; [qsimpl; apply lookup_insert_eq|]. qnorm.
  apply wp_ret. unfold dispose.
  apply wp_bind. apply wp_is_hazardous.
  { qsimpl. rewrite length_replicate. reflexivity. }
  qsimpl. rewrite protected_clear by congruence.
  apply wp_bind. eapply wp_delete_node; [qsimpl; apply lookup_insert_eq|reflexivity|].
  qnorm. rewrite !insert_insert_eq, delete_insert_eq.
  apply wp_bind. unfold is_garbage_full.
  apply wp_bind, wp_gets. apply wp_bind, wp_gets. qsimpl.
  destruct (decide (0 < gm)%N).
  - apply wp_ret. apply wp_bind, wp_ret. apply wp_ret. split; reflexivity.
  - apply wp_ret. apply wp_bind. unfold collect_garbage.
    apply wp_bind, wp_gets. qsimpl.
    apply wp_bind, wp_modify. qnorm. apply wp_ret. apply wp_ret.
    split; reflexivity.
Qed.

(** **** Nothing but the live list in the free store *)

Lemma push_tidy fuel q v vals :
  tidy q vals ->
  wp (push alloc (S fuel) v) (fun _ q' => tidy q' (vals ++ [v])) q.
Proof.
  intros [Hq Hsize].
  pose proof (push_holds fuel q v vals Hq) as Hw.
  pose proof Hq as (h & t & Hh & Ht & Hchain & Hmt & _).
  apply wp_Ret in Hw as (u & q' & Hrun & Hq').
  eapply wp_eq; [exact Hrun|]. split; [exact Hq'|].
  rewrite (push_eq fuel q v t _ Ht Hmt eq_refl) in Hrun. injection Hrun as Hrun.
  subst q'. clear Hq'. unfold pushed. qnorm.
  rewrite map_size_insert_Some.
  2:{ rewrite lookup_insert_ne; [rewrite Hmt; eauto|].
      intros E. pose proof (alloc_fresh (mem q)) as Hf. rewrite E in Hf. congruence. }
  rewrite map_size_insert_None by apply alloc_fresh.
  rewrite length_app. simpl. lia.
Qed.

Lemma pop_tidy fuel q v vals :
  tidy q (v :: vals) ->
  wp (pop (S fuel)) (fun r q' => r = Some v /\ tidy q' vals) q.
Proof.
  intros [Hq Hsize].
  pose proof (pop_nonempty fuel q v vals Hq) as Hw.
  destruct (pop_eq fuel q v vals Hq) as (h & n & Hh & Hn & Hrun).
  apply wp_Ret in Hw as (r & q' & Hrun' & -> & Hq').
  eapply wp_eq; [exact Hrun'|]. split; [reflexivity|]. split; [exact Hq'|].
  rewrite Hrun in Hrun'. injection Hrun' as Hrun'. subst q'. clear Hq'. qnorm.
  rewrite map_size_delete_Some by (rewrite Hn; eauto).
  rewrite Hsize. reflexivity.
Qed.

Lemma ctor_tidy hs gm : 0 < hs -> tidy (ctor alloc hs gm) [].
Proof.
  intros Hhs. split; [apply ctor_holds; exact Hhs|].
  unfold ctor. qsimpl. apply map_size_singleton.
Qed.

(** Calls made one after the other on a tidy queue answer as the list
    does and leave a tidy queue that holds what the list is left with. *)
Lemma run_tidy fuel calls : forall q content,
  tidy q content ->
  wp (run alloc (S fuel) calls)
     (fun rs q' => rs = fifo calls content /\ tidy q' (content_after calls content)) q.
Proof.
  induction calls as [|c calls IH]; intros q content Hq.
  - apply wp_ret. split; [reflexivity|exact Hq].
  - destruct c as [v|]; cbn [run fifo content_after].
    + apply wp_bind. eapply wp_mono; [apply push_tidy; exact Hq|].
      intros u q' Hq'. cbn beta. apply IH. exact Hq'.
    + apply wp_bind. destruct content as [|v content].
      * eapply wp_eq; [apply pop_empty; apply Hq|].
        apply wp_bind. eapply wp_mono; [apply IH; exact Hq|].
        intros rs q' [-> Hq']. apply wp_ret. split; [reflexivity|exact Hq'].
      * eapply wp_mono; [apply pop_tidy; exact Hq|].
        intros r q' [-> Hq']. cbn beta.
        apply wp_bind. eapply wp_mono; [apply IH; exact Hq'|].
        intros rs q'' [-> Hq'']. apply wp_ret. split; [reflexivity|exact Hq''].
Qed.

Lemma content_after_length calls : forall content : list T,
  length (content_after calls content) <= length content + length calls.
Proof.
  induction calls as [|c calls IH]; intros content; simpl; [lia|].
  destruct c as [v|].
  - etransitivity; [apply IH|]. rewrite length_app. simpl. lia.
  - etransitivity; [apply IH|]. rewrite length_drop. lia.
Qed.

(** **** Lists of nodes *)

Lemma glist_functional m : forall l1 l2 p,
  glist m p l1 -> glist m p l2 -> l1 = l2.
Proof.
  induction l1 as [|a l1 IH]; intros [|b l2] p H1 H2; simpl in *.
  - reflexivity.
  - destruct H2 as [-> _]. discriminate.
  - destruct H1 as [-> _]. discriminate.
  - destruct H1 as (-> & n1 & Ha & H1). destruct H2 as ([= <-] & n2 & Hb & H2).
    rewrite Ha in Hb. injection Hb as <-. f_equal. eauto.
Qed.

(** From a node on the list, the rest of the list is a shorter list. *)
Lemma glist_suffix m a : forall l p,
  glist m p l -> a ∈ l ->
  exists l', glist m (Some a) (a :: l') /\ length l' < length l.
Proof.
  induction l as [|b l IH]; intros p Hl Hin; [inversion Hin|].
  destruct (decide (a = b)) as [->|Hne].
  - destruct Hl as (-> & n & Hb & Hl). exists l. split; [|simpl; lia].
    split; [reflexivity|]. eauto.
  - destruct Hl as (-> & n & Hb & Hl).
    apply elem_of_cons in Hin as [?|Hin]; [contradiction|].
    destruct (IH _ Hl Hin) as (l' & Hl' & Hlen). exists l'. split; [exact Hl'|].
    simpl. lia.
Qed.

Lemma glist_NoDup m : forall l p, glist m p l -> NoDup l.
Proof.
  induction l as [|a l IH]; intros p Hl; [constructor|].
  pose proof Hl as (-> & n & Ha & Hl'). constructor; [|eauto].
  intros Hin. destruct (glist_suffix _ _ _ _ Hl' Hin) as (l' & Hs & Hlen).
  pose proof (glist_functional _ _ _ _ Hs Hl) as E. injection E as ->. lia.
Qed.

Lemma glist_lookup m a : forall l p, glist m p l -> a ∈ l -> is_Some (m !! a).
Proof.
  induction l as [|b l IH]; intros p Hl Hin; [inversion Hin|].
  destruct Hl as (-> & n & Hb & Hl).
  apply elem_of_cons in Hin as [->|Hin]; [eauto|]. eapply IH; eauto.
Qed.

Lemma chain_glist m t : forall vals p,
  m !! t = Some (Node false None None) -> chain m p vals t ->
  exists l, glist m (Some p) l /\ length l = S (length vals).
Proof.
  induction vals as [|v vals IH]; intros p Ht Hc; simpl in Hc.
  - subst p. exists [t]. split; [|reflexivity].
    split; [reflexivity|]. exists (Node false None None). split; [exact Ht|reflexivity].
  - destruct Hc as (p' & Hp & Hc). destruct (IH _ Ht Hc) as (l & Hl & Hlen).
    exists (p :: l). split; [|simpl; lia].
    split; [reflexivity|]. eexists. split; [exact Hp|exact Hl].
Qed.

Lemma lookup_without m a : forall l,
  without l m !! a = if bool_decide (a ∈ l) then None else m !! a.
Proof.
  induction l as [|b l IH]; [reflexivity|].
  unfold without in *. cbn [foldr].
  destruct (decide (a = b)) as [->|Hne].
  - rewrite lookup_delete_eq, bool_decide_eq_true_2 by left. reflexivity.
  - rewrite lookup_delete_ne by congruence. rewrite IH.
    apply (f_equal (fun b : bool => if b then None else m !! a)).
    apply bool_decide_ext. rewrite elem_of_cons. split; [auto|].
    intros [E|E]; [contradiction|exact E].
Qed.

Lemma glist_without m : forall l' l p,
  (forall a, a ∈ l' -> a ∉ l) -> glist m p l -> glist (without l' m) p l.
Proof.
  induction l' as [|b l' IH]; intros l p Hdis Hl; [exact Hl|].
  unfold without. cbn [foldr]. apply glist_delete.
  - apply Hdis. left.
  - apply IH; [|exact Hl]. intros a Ha. apply Hdis. right. exact Ha.
Qed.

Lemma size_without m : forall l,
  NoDup l -> (forall a, a ∈ l -> is_Some (m !! a)) ->
  size (without l m) + length l = size m.
Proof.
  induction l as [|a l IH]; intros Hnd Hin; [simpl; lia|].
  apply NoDup_cons in Hnd as [Ha Hnd].
  unfold without in *. cbn [foldr length].
  rewrite map_size_delete_Some.
  2:{ fold (without l m). rewrite lookup_without, bool_decide_eq_false_2 by exact Ha.
      apply Hin. left. }
  assert (0 < size (foldr delete m l)).
  { destruct (Hin a) as [n Hn]; [left|].
    assert (Hl : foldr delete m l !! a = Some n).
    { fold (without l m). rewrite lookup_without, bool_decide_eq_false_2 by exact Ha.
      exact Hn. }
    destruct (decide (size (foldr delete m l) = 0)) as [E|E]; [|lia].
    apply map_size_empty_iff in E. rewrite E in Hl. rewrite lookup_empty in Hl.
    discriminate. }
  specialize (IH Hnd). rewrite <- IH; [lia|].
  intros b Hb. apply Hin. right. exact Hb.
Qed.

(** **** Deleting a list of nodes *)

Lemma released_nil q : released [] q = q.
Proof. destruct q. reflexivity. Qed.

Lemma delete_node_list : forall l fuel p q,
  l <> [] -> glist (mem q) p l -> length l <= fuel ->
  delete_node fuel p q = Ret tt (released l q).
Proof.
  induction l as [|a l IH]; intros fuel p q Hne Hl Hfuel; [congruence|].
  destruct Hl as (-> & n & Ha & Hl).
  destruct fuel as [|fuel]; [simpl in Hfuel; lia|].
  cbn [delete_node]. unfold bind at 1. unfold deref. rewrite Ha.
  destruct l as [|b l].
  - simpl in Hl. rewrite Hl. destruct q. reflexivity.
  - pose proof Hl as [Hb _]. rewrite Hb. rewrite <- Hb.
    unfold bind at 1. unfold bind at 1.
    rewrite (IH fuel (next n) q); [|discriminate|exact Hl|simpl in *; lia].
    destruct q. reflexivity.
Qed.

Lemma dtor_eq q ls gs fuel :
  glist (mem q) (head q) ls -> glist (mem q) (garbage q) gs ->
  (forall a, a ∈ ls -> a ∉ gs) ->
  length ls <= fuel -> length gs <= fuel ->
  dtor fuel q = Ret tt (released gs (released ls q)).
Proof.
  intros Hls Hgs Hdis Hfl Hfg. unfold dtor. unfold bind at 1. unfold gets at 1.
  assert (H1 : (match head q with
                | Some _ => delete_node fuel (head q)
                | None => ret tt
                end) q = Ret tt (released ls q)).
  { destruct ls as [|a ls].
    - simpl in Hls. rewrite Hls, released_nil. reflexivity.
    - pose proof Hls as [Ha _]. rewrite Ha. rewrite <- Ha.
      apply delete_node_list; [discriminate|exact Hls|exact Hfl]. }
  unfold bind at 1. rewrite H1. unfold bind at 1. unfold gets at 1.
  change (garbage (released ls q)) with (garbage q).
  destruct gs as [|g gs].
  - simpl in Hgs. rewrite Hgs, released_nil. reflexivity.
  - pose proof Hgs as [Hg _]. rewrite Hg. rewrite <- Hg.
    apply delete_node_list; [discriminate| |exact Hfg].
    unfold released at 1. qsimpl. apply glist_without; [exact Hdis|exact Hgs].
Qed.

(** Calls made one after the other on a new queue, and then its
    destructor: the calls answer as the list does and the destructor
    leaves no node in the free store. *)
Lemma teardown fuel calls hs gm :
  0 < hs -> length calls <= fuel ->
  wp (bind (run alloc (S fuel) calls) (fun rs => dtor (S fuel);; ret rs))
     (fun rs q' => rs = fifo calls [] /\ mem q' = ∅)
     (ctor alloc hs gm).
Proof.
  intros Hhs Hfuel. apply wp_bind.
  eapply wp_mono; [apply run_tidy, ctor_tidy; exact Hhs|].
  intros rs q' [-> [Hq Hsize]]. cbn beta.
  pose proof (content_after_length calls []) as Hlen. simpl in Hlen.
  destruct Hq as (h & t & Hh & Ht & Hchain & Hmt & Hg & _).
  destruct (chain_glist _ _ _ _ Hmt Hchain) as (l & Hl & Hll).
  apply wp_bind. eapply wp_eq.
  { apply (dtor_eq q' l []); [rewrite Hh; exact Hl|rewrite Hg; reflexivity| | |simpl; lia].
    - intros a _ Hin. inversion Hin.
    - lia. }
  apply wp_ret. split; [reflexivity|].
  rewrite released_nil. unfold released. qsimpl.
  apply map_size_empty_iff.
  pose proof (size_without (mem q') l (glist_NoDup _ _ _ Hl)
                (fun a Ha => glist_lookup _ a _ _ Hl Ha)) as Hs.
  lia.
Qed.

(** **** A head that is already claimed *)

Lemma wlp_slot_ref i q (Q : hazard -> Queue_TS -> Prop) :
  (forall h, hazard_holder q !! i = Some h -> Q h q) -> wlp (slot_ref i) Q q.
Proof.
  intros H. unfold wlp, slot_ref.
  destruct (hazard_holder q !! i) eqn:E; [apply H; reflexivity|exact I].
Qed.

Lemma keeps_nodes_find_slot fuel : forall slot,
  keeps (fun q => (head q, mem q)) (find_slot fuel slot).
Proof. induction fuel as [|fuel IH]; intros slot; simpl; unfold slot_update; keeps_auto. Qed.

Lemma keeps_nodes_clear_hazard slot :
  keeps (fun q => (head q, mem q)) (clear_hazard slot).
Proof. unfold clear_hazard, slot_update. keeps_auto. Qed.

(** Run alone, the second loop of [load_head_set_hazard] returns the head
    as it is. *)
Lemma wlp_publish_head fuel : forall slot q,
  wlp (publish_head fuel slot)
      (fun old_head q' => old_head = head q' /\ head q' = head q /\ mem q' = mem q) q.
Proof.
  induction fuel as [|fuel IH]; intros slot q; simpl; [exact I|].
  apply wlp_bind, wlp_gets. apply wlp_bind. unfold publish.
  apply wlp_bind, wlp_slot_ref. intros h Hh. unfold slot_update. apply wlp_modify.
  apply wlp_bind, wlp_gets. qnorm.
  rewrite decide_True by reflexivity. apply wlp_ret. auto.
Qed.

Lemma pop_claim_blocked h : forall fuel q n,
  head q = Some h -> mem q !! h = Some n -> taken n = true ->
  wlp (pop_claim fuel) (fun _ _ => False) q.
Proof.
  induction fuel as [|fuel IH]; intros q n Hh Hn Ht; [exact I|].
  cbn [pop_claim]. apply wlp_bind. unfold load_head_set_hazard.
  apply wlp_bind.
  eapply wlp_mono; [apply (keeps_nodes_find_slot (S fuel) 0 q)|].
  intros slot q1 [= Hh1 Hm1].
  apply wlp_bind. eapply wlp_mono; [apply wlp_publish_head|].
  intros old_head q2 (-> & Hh2 & Hm2). apply wlp_ret.
  apply wlp_bind. unfold pop_try. apply wlp_bind.
  rewrite Hh2, Hh1, Hh. apply wp_wlp.
  eapply wp_test_and_set; [rewrite Hm2, Hm1; exact Hn|].
  apply wlp_bind.
  eapply wlp_mono; [apply keeps_nodes_clear_hazard|].
  intros u q3 [= Hh3 Hm3]. apply wlp_ret. rewrite Ht.
  eapply IH.
  - rewrite Hh3. qnorm. congruence.
  - rewrite Hm3. qnorm. apply lookup_insert_eq.
  - reflexivity.
Qed.

(** **** No free hazard slot *)

Lemma find_slot_all_taken q :
  hazard_holder_size q <= length (hazard_holder q) ->
  (forall j h, j < hazard_holder_size q -> hazard_holder q !! j = Some h ->
     slot_taken h = true) ->
  forall fuel slot, slot < hazard_holder_size q -> find_slot fuel slot q = Spin.
Proof.
  intros Hlen Hall. induction fuel as [|fuel IH]; intros slot Hslot; [reflexivity|].
  cbn [find_slot]. unfold bind at 1. unfold slot_ref.
  destruct (hazard_holder q !! slot) as [[tk p]|] eqn:Hs.
  2:{ apply lookup_ge_None in Hs. lia. }
  pose proof (Hall _ _ Hslot Hs) as Ht. simpl in Ht. subst tk.
  unfold bind at 1. unfold slot_update, modify. qsimpl.
  rewrite set_hazard_holder_id by (apply list_insert_id; exact Hs).
  unfold bind at 1. unfold gets. apply IH. apply Nat.mod_upper_bound. lia.
Qed.

Lemma pop_no_slot q fuel :
  0 < hazard_holder_size q ->
  hazard_holder_size q <= length (hazard_holder q) ->
  (forall j h, j < hazard_holder_size q -> hazard_holder q !! j = Some h ->
     slot_taken h = true) ->
  pop fuel q = Spin.
Proof.
  intros Hsz Hlen Hall. unfold pop. destruct fuel as [|fuel]; [reflexivity|].
  cbn [pop_claim]. unfold load_head_set_hazard. unfold bind.
  rewrite (find_slot_all_taken q Hlen Hall) by exact Hsz. reflexivity.
Qed.

(** **** A tail that is already claimed *)

Lemma push_claim_claimed v t n d q :
  tail q = Some t -> mem q !! t = Some n -> data n = Some d ->
  forall fuel, push_claim fuel v q = Spin.
Proof.
  intros Ht Hn Hd. induction fuel as [|fuel IH]; [reflexivity|].
  cbn [push_claim]. unfold bind at 1. unfold gets. rewrite Ht.
  unfold claim_data, bind, deref. rewrite Hn. cbv beta iota. rewrite Hd. exact IH.
Qed.

Lemma push_claimed_tail v t n d q fuel :
  tail q = Some t -> mem q !! t = Some n -> data n = Some d ->
  push alloc fuel v q = Spin.
Proof.
  intros Ht Hn Hd. unfold push. unfold bind at 1. unfold new_node.
  unfold bind at 1.
  rewrite (push_claim_claimed v t n d); [reflexivity|exact Ht| |exact Hd].
  qnorm. rewrite lookup_insert_ne; [exact Hn|].
  intros E. pose proof (alloc_fresh (mem q)) as Hf. rewrite E in Hf. congruence.
Qed.

(** **** An empty queue with other threads at work *)

Lemma pop_empty_any fuel q i h n :
  hazard_holder_size q = length (hazard_holder q) ->
  first_free (hazard_holder q) i -> i <= fuel ->
  head q = Some h -> tail q = Some h ->
  mem q !! h = Some n -> taken n = false ->
  pop (S fuel) q = Ret None (set_hazard_holder <[i := Hazard false None]> q).
Proof.
  intros Hlen Hfree Hfuel Hh Ht Hn Htaken. apply wp_run.
  assert (Hisz : i < hazard_holder_size q).
  { destruct Hfree as [[p Hp] _]. rewrite Hlen. eapply lookup_lt_Some, Hp. }
  unfold pop. apply wp_bind.
  eapply (wp_pop_claim fuel i); eauto.
  unfold pop_finish. apply wp_bind, wp_gets. qnorm. rewrite Ht.
  rewrite decide_True by reflexivity.
  apply wp_bind. eapply wp_clear_taken; [qsimpl; apply lookup_insert_eq|].
  apply wp_ret. split; [reflexivity|].
  destruct q, n. qnorm. subst.
  rewrite insert_insert_eq, insert_id by exact Hn. reflexivity.
Qed.

(** **** What a sweep frees *)

Lemma collect_loop_mem : forall l fuel q g,
  glist (mem q) g l ->
  hazard_holder_size q = length (hazard_holder q) ->
  wlp (collect_loop fuel g)
      (fun _ q' =>
         (forall b, b ∉ l -> mem q' !! b = mem q !! b) /\
         (forall b, b ∈ l -> protected (hazard_holder q) (Some b) = false ->
            mem q' !! b = None)) q.
Proof.
  induction l as [|a l IH]; intros fuel q g Hl Hlen.
  - simpl in Hl. subst g. destruct fuel; simpl; apply wlp_ret;
      (split; [reflexivity|intros b Hb; inversion Hb]).
  - pose proof (glist_NoDup _ _ _ Hl) as [Hal _]%NoDup_cons.
    destruct Hl as (-> & n & Ha & Hl).
    destruct fuel as [|fuel]; [exact I|].
    cbn [collect_loop].
    apply wlp_bind, wlp_modify.
    apply wlp_bind, wp_wlp. eapply wp_deref; [qnorm; exact Ha|].
    apply wlp_bind, wp_wlp. eapply wp_store_next; [qnorm; exact Ha|].
    apply wlp_bind, wp_wlp. apply wp_is_hazardous; [qnorm; exact Hlen|]. qsimpl.
    destruct (protected (hazard_holder q) (Some a)) eqn:Hp.
    + apply wlp_bind, wp_wlp.
      eapply wp_push_to_garbage; [qnorm; apply lookup_insert_eq|].
      eapply wlp_mono.
      { apply (IH fuel); qnorm.
        - rewrite insert_insert_eq. apply glist_insert; auto.
        - exact Hlen. }
      intros u q' [Hout Hin]. qnorm. split.
      * intros b Hb. apply not_elem_of_cons in Hb as [Hba Hbl].
        rewrite Hout by exact Hbl. rewrite insert_insert_eq.
        apply lookup_insert_ne. congruence.
      * intros b [->|Hb]%elem_of_cons Hpb; [congruence|]. apply Hin; auto.
    + apply wlp_bind, wp_wlp.
      eapply wp_delete_node; [qnorm; apply lookup_insert_eq|reflexivity|].
      eapply wlp_mono.
      { apply (IH fuel); qnorm.
        - rewrite delete_insert_eq. apply glist_delete; auto.
        - exact Hlen. }
      intros u q' [Hout Hin]. qnorm. split.
      * intros b Hb. apply not_elem_of_cons in Hb as [Hba Hbl].
        rewrite Hout by exact Hbl. rewrite delete_insert_eq.
        apply lookup_delete_ne. congruence.
      * intros b [->|Hb]%elem_of_cons Hpb; [|apply Hin; auto].
        rewrite Hout by exact Hal. rewrite delete_insert_eq. apply lookup_delete_eq.
Qed.

Lemma collect_garbage_spec fuel q gs :
  glist (mem q) (garbage q) gs ->
  garbage_size q = N.of_nat (length gs) ->
  (N.of_nat (length gs) < size_max)%N ->
  hazard_holder_size q = length (hazard_holder q) ->
  length gs <= fuel ->
  wp (collect_garbage fuel)
     (fun _ q' =>
        glist (mem q') (garbage q') (rev (kept (hazard_holder q) gs)) /\
        garbage_size q' = N.of_nat (length (kept (hazard_holder q) gs)) /\
        hazard_holder q' = hazard_holder q /\
        head q' = head q /\ tail q' = tail q /\
        (forall b, b ∉ gs -> mem q' !! b = mem q !! b) /\
        (forall b, b ∈ gs -> protected (hazard_holder q) (Some b) = false ->
           mem q' !! b = None)) q.
Proof.
  intros Hgl Hsize Hmax Hlen Hfuel. unfold collect_garbage.
  apply wp_bind, wp_gets. apply wp_bind, wp_modify.
  eapply wp_mono.
  { apply wp_wlp_conj.
    - apply (collect_loop_spec gs fuel _ []); qnorm;
        [ exact Hgl | reflexivity
        | rewrite app_nil_r; eapply glist_NoDup; exact Hgl
        | rewrite Hsize; f_equal; simpl; lia
        | simpl; rewrite Nat.add_0_r; exact Hmax
        | exact Hlen
        | exact Hfuel ].
    - apply (collect_loop_mem gs fuel); qnorm; [exact Hgl|exact Hlen]. }
  intros u q' [(Hh & Hgm & Hhd & Htl & Hgl' & Hsz) [Hout Hin]]. qnorm.
  rewrite app_nil_r in Hgl', Hsz. rewrite length_rev in Hsz.
  repeat split; auto.
Qed.

(** **** One producer and one consumer *)

Lemma chain_insert_longer m t a n nt : forall vals p,
  m !! t = Some (Node false None nt) ->
  (forall vals', chain m a vals' t -> length vals < length vals') ->
  a <> t ->
  chain m p vals t -> chain (<[a := n]> m) p vals t.
Proof.
  induction vals as [|v vals IH]; intros p Ht Hlong Hat Hc; simpl in *.
  - exact Hc.
  - destruct Hc as (p' & Hp & Hc). exists p'. split.
    + rewrite lookup_insert_ne; [exact Hp|]. intros ->.
      specialize (Hlong (v :: vals)). simpl in Hlong.
      assert (length vals < length vals) by (apply Nat.succ_lt_mono, Hlong; eauto).
      lia.
    + apply IH; auto. intros vals' Hv. specialize (Hlong vals' Hv). lia.
Qed.

Lemma producer_at_frame all q q' t p :
  producer_at all q t p ->
  (forall a, a <> t -> mem q !! a = Some (Node false None None) ->
     mem q' !! a = Some (Node false None None)) ->
  producer_at all q' t p.
Proof.
  intros Hp Hm. inversion Hp; subst; constructor; auto.
Qed.

Lemma consumer_at_frame q q' done vals c :
  consumer_at q done vals c ->
  hazard_holder q' = hazard_holder q ->
  hazard_holder_size q' = hazard_holder_size q ->
  head q' = head q ->
  (forall d, mem q !! d = Some (Node true None None) ->
     mem q' !! d = Some (Node true None None)) ->
  consumer_at q' done vals c.
Proof.
  intros Hc Hh Hs Hhd Hm.
  inversion Hc; subst; try rewrite <- Hhd; econstructor; rewrite ?Hh, ?Hs; eauto.
Qed.

Lemma consumer_at_snoc q done vals c v :
  consumer_at q done vals c -> consumer_at q (done ++ [v]) (vals ++ [v]) c.
Proof.
  intros Hc. inversion Hc; subst; econstructor; eauto;
    rewrite <- ?app_assoc; reflexivity.
Qed.

Lemma producer_loaded_stretch fuel todo v a old_tail ps os :
  QueueThreads.thread_step alloc fuel
    (QueueThreads.Thread (QueueThreads.Producer todo)
       (QueueThreads.PushLoaded v a old_tail) ps os)
  = (let* ok := claim_data old_tail v in
     if ok : bool then
       store_next old_tail (Some a);;
       modify (set_tail (Some a));;
       ret (QueueThreads.Thread (QueueThreads.Producer todo) QueueThreads.Idle
              (ps ++ [v]) os)
     else
       let* old_tail := gets tail in
       ret (QueueThreads.Thread (QueueThreads.Producer todo)
              (QueueThreads.PushLoaded v a old_tail) ps os)).
Proof. destruct todo; reflexivity. Qed.

Lemma spsc_producer_step fuel all q p c :
  spsc all q p c ->
  wp (QueueThreads.thread_step alloc fuel p) (fun p' q' => spsc all q' p' c) q.
Proof.
  intros (h & t & vals & Hh & Ht & Hchain & Hmt & Hg & Hgs & Hsz & Hp & Hc).
  inversion Hp as [todo ps os Hall | todo v a ps os Hall Hat Ha]; subst p.
  - destruct todo as [|v todo].
    { stretch. apply wp_ret. exists h, t, vals. auto 10. }
    stretch. apply wp_bind. unfold new_node. unfold wp at 1.
    apply wp_bind, wp_gets. apply wp_ret. qnorm.
    pose proof (alloc_fresh (mem q)) as Hfresh.
    assert (Hnt : alloc (mem q) <> t) by (intros E; rewrite E in Hfresh; congruence).
    exists h, t, vals. qnorm.
    split; [exact Hh|]. split; [exact Ht|]. split.
    { eapply chain_frame; [|exact Hchain].
      intros b n Hb _. rewrite lookup_insert_ne; [exact Hb|]. congruence. }
    split; [rewrite lookup_insert_ne by exact Hnt; exact Hmt|].
    split; [exact Hg|]. split; [exact Hgs|]. split; [exact Hsz|]. split.
    + rewrite Ht. constructor; [exact Hall|exact Hnt|apply lookup_insert_eq].
    + eapply consumer_at_frame; [exact Hc|reflexivity..|].
      intros d Hd. qsimpl. rewrite lookup_insert_ne; [exact Hd|]. congruence.
  - rewrite producer_loaded_stretch. apply wp_bind. unfold claim_data. apply wp_bind.
    eapply wp_deref; [exact Hmt|]. qsimpl.
    apply wp_bind, wp_modify. apply wp_ret.
    apply wp_bind. eapply wp_store_next; [qnorm; apply lookup_insert_eq|].
    apply wp_bind, wp_modify. apply wp_ret. qnorm. rewrite insert_insert_eq.
    exists h, a, (vals ++ [v]). qnorm.
    split; [exact Hh|]. split; [reflexivity|]. split.
    { apply chain_snoc with (t := t); [apply lookup_insert_eq|].
      eapply chain_frame; [|exact Hchain].
      intros b n Hb Hd. rewrite lookup_insert_ne; [exact Hb|].
      intros <-. rewrite Hmt in Hb. injection Hb as <-. apply Hd. reflexivity. }
    split; [rewrite lookup_insert_ne by congruence; exact Ha|].
    split; [exact Hg|]. split; [exact Hgs|]. split; [exact Hsz|]. split.
    + constructor. rewrite Hall, <- app_assoc. reflexivity.
    + apply consumer_at_snoc.
      eapply consumer_at_frame; [exact Hc|reflexivity..|].
      intros d Hd. qsimpl. rewrite lookup_insert_ne; [exact Hd|].
      intros <-. rewrite Hmt in Hd. discriminate.
Qed.

Lemma table_clear_again (k : nat) x :
  <[0 := Hazard false None]> (<[0 := Hazard true x]> (replicate k (Hazard false None)))
  = replicate k (Hazard false None).
Proof. rewrite list_insert_insert_eq. apply insert_clear. Qed.

Lemma consumer_at_loaded q done vals x ps os old_head :
  old_head = head q ->
  hazard_holder q
  = <[0 := Hazard true x]> (replicate (hazard_holder_size q) (Hazard false None)) ->
  done = os ++ vals ->
  consumer_at q done vals
    (QueueThreads.Thread (QueueThreads.Consumer false)
       (QueueThreads.PopLoaded 0 old_head) ps os).
Proof. intros ->. apply consumer_loaded. Qed.

Lemma consumer_at_published q done vals x ps os old_head :
  old_head = head q ->
  hazard_holder q
  = <[0 := Hazard true x]> (replicate (hazard_holder_size q) (Hazard false None)) ->
  done = os ++ vals ->
  consumer_at q done vals
    (QueueThreads.Thread (QueueThreads.Consumer false)
       (QueueThreads.PopPublished 0 old_head) ps os).
Proof. intros ->. apply consumer_published. Qed.

Lemma consumer_at_protected q done vals x ps os old_head :
  old_head = head q ->
  hazard_holder q
  = <[0 := Hazard true x]> (replicate (hazard_holder_size q) (Hazard false None)) ->
  done = os ++ vals ->
  consumer_at q done vals
    (QueueThreads.Thread (QueueThreads.Consumer false)
       (QueueThreads.PopProtected 0 old_head) ps os).
Proof. intros ->. apply consumer_protected. Qed.

Lemma spsc_consumer_step fuel all q p c :
  spsc all q p c ->
  wp (QueueThreads.thread_step alloc (S fuel) c) (fun c' q' => spsc all q' p c') q.
Proof.
  intros (h & t & vals & Hh & Ht & Hchain & Hmt & Hg & Hgs & Hsz & Hp & Hc).
  destruct q as [m hd tl g gs gm hh hs hist]. qsimpl. subst hd tl g gs.
  inversion Hc as [drained ps os Htab Hdone | x ps os Htab Hdone
                  | x ps os Htab Hdone | x ps os Htab Hdone
                  | d v ps os Hd Htab Hdone]; subst c; qsimpl; clear Hc.
  - (* between two calls *)
    destruct drained.
    { stretch. apply wp_ret. exists h, t, vals. qsimpl.
      repeat (split; [solve [auto]|]). constructor; auto. }
    stretch. apply wp_bind.
    eapply (wp_find_slot 0 0);
      [lia|lia|exact Hsz|qsimpl; rewrite Htab; apply lookup_replicate_2; exact Hsz
      |intros j Hj; lia|].
    apply wp_bind, wp_gets. apply wp_ret. qnorm.
    exists h, t, vals. qsimpl.
    repeat (split; [solve [auto]|]). split.
    + eapply producer_at_frame; [exact Hp|]. intros a _ Ha. exact Ha.
    + apply (consumer_at_loaded _ _ _ None); qsimpl;
        [reflexivity|rewrite Htab; reflexivity|exact Hdone].
  - (* the head is read *)
    stretch. apply wp_bind. unfold publish. apply wp_bind.
    eapply wp_slot_ref.
    { qsimpl. rewrite Htab. apply list_lookup_insert_eq. rewrite length_replicate. exact Hsz. }
    apply wp_modify. apply wp_ret. qnorm.
    exists h, t, vals. qsimpl.
    repeat (split; [solve [auto]|]). split.
    + eapply producer_at_frame; [exact Hp|]. intros a _ Ha. exact Ha.
    + apply (consumer_at_published _ _ _ (Some h)); qsimpl;
        [reflexivity| |exact Hdone].
      rewrite Htab, list_insert_insert_eq. reflexivity.
  - (* the head is published *)
    stretch. apply wp_bind, wp_gets. qsimpl.
    rewrite decide_True by reflexivity. apply wp_ret.
    exists h, t, vals. qsimpl.
    repeat (split; [solve [auto]|]).
    apply (consumer_at_protected _ _ _ x); qsimpl; [reflexivity|exact Htab|exact Hdone].
  - (* the claim *)
    assert (Hlen : 0 < length hh).
    { rewrite Htab, length_insert, length_replicate. exact Hsz. }
    stretch. apply wp_bind. unfold pop_try. apply wp_bind.
    destruct vals as [|v vals]; simpl in Hchain.
    + subst h.
      eapply wp_test_and_set; [qsimpl; exact Hmt|].
      apply wp_bind. apply wp_clear_hazard; [qnorm; exact Hlen|].
      apply wp_ret. qnorm. apply wp_bind, wp_gets. qsimpl.
      rewrite decide_True by reflexivity.
      apply wp_bind. eapply wp_clear_taken; [qsimpl; apply lookup_insert_eq|].
      apply wp_ret. qnorm.
      rewrite insert_insert_eq, insert_id by exact Hmt.
      rewrite Htab, table_clear_again.
      exists t, t, []. qsimpl. cbn [chain].
      repeat (split; [solve [auto]|]). split.
      * eapply producer_at_frame; [exact Hp|]. intros a _ Ha. exact Ha.
      * unfold QueueThreads.returned. stretch. constructor; qsimpl; auto.
    + destruct Hchain as (p' & Hhp & Hchain').
      assert (Hht : h <> t) by (intros ->; congruence).
      eapply wp_test_and_set; [qsimpl; exact Hhp|].
      apply wp_bind. apply wp_clear_hazard; [qnorm; exact Hlen|].
      apply wp_ret. qnorm. apply wp_bind, wp_gets. qsimpl.
      rewrite decide_False by congruence.
      apply wp_bind. unfold unlink.
      apply wp_bind. eapply wp_deref; [qsimpl; apply lookup_insert_eq|]. qsimpl.
      apply wp_bind, wp_modify. qnorm.
      apply wp_bind. eapply wp_deref; [qsimpl; apply lookup_insert_eq|]. qsimpl.
      apply wp_bind. eapply wp_store_data; [qsimpl; apply lookup_insert_eq|]. qnorm.
      apply wp_bind. eapply wp_store_next; [qsimpl; apply lookup_insert_eq|]. qnorm.
      apply wp_ret. rewrite !insert_insert_eq.
      rewrite Htab, table_clear_again.
      apply wp_bind. apply wp_is_hazardous.
      { qsimpl. rewrite length_replicate. reflexivity. }
      qsimpl. rewrite protected_clear by congruence. apply wp_ret.
      exists p', t, vals. qsimpl.
      split; [reflexivity|]. split; [reflexivity|]. split.
      { eapply chain_insert_longer; eauto.
        intros vals' Hv.
        assert (Hfull : chain m h (v :: vals) t) by (exists p'; auto).
        rewrite (chain_functional _ _ _ _ _ _ _ Hmt Hv Hfull eq_refl). simpl. lia. }
      split; [rewrite lookup_insert_ne by congruence; exact Hmt|].
      repeat (split; [solve [auto]|]). split.
      * eapply producer_at_frame; [exact Hp|]. intros a Hat Ha. qsimpl.
        rewrite lookup_insert_ne; [exact Ha|]. intros <-. congruence.
      * constructor; qsimpl; [apply lookup_insert_eq|reflexivity|exact Hdone].
  - (* the disposal *)
    stretch. apply wp_bind. unfold dispose.
    apply wp_bind. eapply wp_delete_node; [qsimpl; exact Hd|reflexivity|]. qnorm.
    assert (Hfinal : spsc all
      (Mk (delete d m) (Some h) (Some t) None 0%N gm hh hs (Freed d hh :: hist)) p
      (QueueThreads.returned
         (QueueThreads.Thread (QueueThreads.Consumer false)
            (QueueThreads.PopChecked (Some d) false (Some v)) ps os) (Some v))).
    { exists h, t, vals. qsimpl.
      split; [reflexivity|]. split; [reflexivity|]. split.
      { eapply chain_frame; [|exact Hchain].
        intros b n Hb Hdata. rewrite lookup_delete_ne; [exact Hb|].
        intros <-. rewrite Hd in Hb. injection Hb as <-. apply Hdata. reflexivity. }
      split; [rewrite lookup_delete_ne by (intros <-; congruence); exact Hmt|].
      repeat (split; [solve [auto]|]). split.
      * eapply producer_at_frame; [exact Hp|]. intros a Hat Ha. qsimpl.
        rewrite lookup_delete_ne; [exact Ha|]. intros <-. congruence.
      * unfold QueueThreads.returned. stretch. constructor; qsimpl; [exact Htab|].
        rewrite Hdone, <- app_assoc. reflexivity. }
    apply wp_bind. unfold is_garbage_full.
    apply wp_bind, wp_gets. apply wp_bind, wp_gets. qsimpl.
    destruct (decide (0 < gm)%N).
    + apply wp_ret. apply wp_bind, wp_ret. apply wp_ret. apply wp_ret. exact Hfinal.
    + apply wp_ret. apply wp_bind. unfold collect_garbage.
      apply wp_bind, wp_gets. qsimpl.
      apply wp_bind, wp_modify. qnorm. apply wp_ret. apply wp_ret. apply wp_ret.
      exact Hfinal.
Qed.

Lemma spsc_ctor hs gm (all : list T) :
  0 < hs ->
  spsc all (ctor alloc hs gm)
    (QueueThreads.Thread (QueueThreads.Producer all) QueueThreads.Idle [] [])
    (QueueThreads.Thread (QueueThreads.Consumer false) QueueThreads.Idle [] []).
Proof.
  intros Hhs. exists (alloc ∅), (alloc ∅), []. unfold ctor. qsimpl. cbn [chain].
  split; [reflexivity|]. split; [reflexivity|]. split; [reflexivity|].
  split; [apply lookup_singleton_eq|].
  split; [reflexivity|]. split; [reflexivity|]. split; [exact Hhs|]. split.
  - constructor. reflexivity.
  - constructor; reflexivity.
Qed.

(** Whatever the order in which the two threads take their turns, no
    stretch faults or waits, and the two threads stay where [spsc] says. *)
Lemma spsc_run fuel all : forall schedule q p c,
  Forall (fun i => i < 2) schedule ->
  spsc all q p c ->
  wp (QueueThreads.run_schedule alloc (S fuel) schedule)
     (fun _ cfg => exists p' c', snd cfg = [p'; c'] /\ spsc all (fst cfg) p' c')
     (q, [p; c]).
Proof.
  induction schedule as [|i schedule IH]; intros q p c Hsched Hinv.
  - apply wp_ret. exists p, c. split; [reflexivity|exact Hinv].
  - apply Forall_cons in Hsched as [Hi Hsched].
    cbn [QueueThreads.run_schedule]. apply wp_bind.
    destruct i as [|[|i]]; [| |lia].
    + pose proof (spsc_producer_step (S fuel) all q p c Hinv) as Hstep.
      apply wp_Ret in Hstep as (p' & q' & Hrun & Hinv').
      unfold wp at 1, QueueThreads.step.
      change ([p; c] !! 0) with (Some p). cbv beta iota. rewrite Hrun.
      change (<[0:=p']> [p; c]) with [p'; c].
      apply IH; [exact Hsched|exact Hinv'].
    + pose proof (spsc_consumer_step fuel all q p c Hinv) as Hstep.
      apply wp_Ret in Hstep as (c' & q' & Hrun & Hinv').
      unfold wp at 1, QueueThreads.step.
      change ([p; c] !! 1) with (Some c). cbv beta iota. rewrite Hrun.
      change (<[1:=c']> [p; c]) with [p; c'].
      apply IH; [exact Hsched|exact Hinv'].
Qed.

Lemma spsc_order all q p c :
  spsc all q p c ->
  QueueThreads.popped c `prefix_of` QueueThreads.pushed p /\
  QueueThreads.pushed p `prefix_of` all /\
  (QueueThreads.finished p = true -> QueueThreads.pushed p = all).
Proof.
  intros (h & t & vals & _ & _ & _ & _ & _ & _ & _ & Hp & Hc). split; [|split].
  - inversion Hc; subst; stretch; eexists; eassumption.
  - inversion Hp as [todo ps os Hall | todo v a ps os Hall Hat Ha]; subst p; stretch;
      rewrite Hall; eexists; reflexivity.
  - inversion Hp as [todo ps os Hall | todo v a ps os Hall Hat Ha]; subst p;
      unfold QueueThreads.finished; stretch.
    + destruct todo; [|discriminate]. intros _. rewrite Hall, app_nil_r. reflexivity.
    + destruct todo; discriminate.
Qed.

(** **** What a dequeue touches *)

(** [pop] on a queue that is [ready]: besides what [pop_swept] says, the
    tail is as before, no node but the one dequeued and those of the
    garbage list is touched, and the node dequeued is freed when no slot
    protects it and is on the garbage list when one does. *)
Lemma pop_ready_frame fuel q i h n gs :
  ready q i h n gs ->
  i <= fuel -> length gs <= fuel ->
  wp (pop (S fuel))
     (fun r q' =>
        r = data n /\ head q' = next n /\ tail q' = tail q /\
        hazard_holder q' = <[i := Hazard false None]> (hazard_holder q) /\
        (forall b, b ∉ h :: gs -> mem q' !! b = mem q !! b) /\
        (if protected (<[i := Hazard false None]> (hazard_holder q)) (Some h)
         then exists gs', glist (mem q') (garbage q') gs' /\ h ∈ gs'
         else mem q' !! h = None))
     q.
Proof.
  intros (Hlen & Hfree & Hh & Hn & Htaken & Htail & Hgl & Hnd & Hnotin & Hsize & Hmax) Hi Hfuel.
  assert (Hisz : i < hazard_holder_size q).
  { destruct Hfree as [[p Hp] _]. rewrite Hlen. eapply lookup_lt_Some, Hp. }
  destruct q as [m hd tl g gs0 gm hh hs hist]. qsimpl. subst hd gs0.
  unfold pop. apply wp_bind.
  eapply (wp_pop_claim fuel i); qsimpl; eauto. qnorm.
  unfold pop_finish. apply wp_bind, wp_gets. qsimpl.
  rewrite decide_False by congruence.
  apply wp_bind. unfold unlink.
  apply wp_bind. eapply wp_deref; [qsimpl; apply lookup_insert_eq|]. qsimpl.
  apply wp_bind, wp_modify. qnorm.
  apply wp_bind. eapply wp_deref; [qsimpl; apply lookup_insert_eq|]. qsimpl.
  apply wp_bind. eapply wp_store_data; [qsimpl; apply lookup_insert_eq|]. qnorm.
  apply wp_bind. eapply wp_store_next; [qsimpl; apply lookup_insert_eq|]. qnorm.
  apply wp_ret. unfold dispose.
  rewrite !insert_insert_eq.
  apply wp_bind. apply wp_is_hazardous.
  { qsimpl. rewrite length_insert. exact Hlen. }
  qsimpl.
  set (table := <[i := Hazard false None]> hh).
  assert (Hmax' : (N.of_nat (S (length gs)) < size_max)%N) by lia.
  assert (Htl : length table = hs) by (unfold table; rewrite length_insert; auto).
  destruct (protected table (Some h)) eqn:Hp.
  - apply wp_bind. eapply wp_push_to_garbage; [qsimpl; apply lookup_insert_eq|]. qnorm.
    rewrite insert_insert_eq, size_incr_of_nat by exact Hmax'.
    assert (Hgl' : glist (<[h := Node true None g]> m) (Some h) (h :: gs)).
    { split; [reflexivity|]. eexists. split; [apply lookup_insert_eq|].
      qsimpl. apply glist_insert; auto. }
    apply wp_bind. unfold is_garbage_full.
    apply wp_bind, wp_gets. apply wp_bind, wp_gets. qsimpl.
    destruct (decide (N.of_nat (S (length gs)) < gm)%N) as [Hlt|Hge].
    + apply wp_ret. apply wp_bind, wp_ret. apply wp_ret. qsimpl.
      repeat (split; [reflexivity|]). split.
      * intros b Hb. apply not_elem_of_cons in Hb as [Hb _].
        apply lookup_insert_ne. congruence.
      * exists (h :: gs). split; [exact Hgl'|left].
    + apply wp_ret. apply wp_bind. eapply wp_mono.
      { apply (collect_garbage_spec (S fuel) _ (h :: gs)); qsimpl;
          [exact Hgl'|reflexivity|exact Hmax'|symmetry; exact Htl|simpl; lia]. }
      intros u q' (Hgl2 & Hsz & Hh' & Hhd & Htl' & Hout & Hin). qsimpl.
      apply wp_ret. split; [reflexivity|]. split; [exact Hhd|]. split; [exact Htl'|].
      split; [exact Hh'|]. split.
      * intros b Hb. rewrite Hout by exact Hb.
        apply not_elem_of_cons in Hb as [Hb _]. apply lookup_insert_ne. congruence.
      * eexists. split; [exact Hgl2|].
        apply list_elem_of_In. apply (proj1 (in_rev _ _)). apply list_elem_of_In.
        unfold kept. apply list_elem_of_filter. split; [exact Hp|left].
  - apply wp_bind. eapply wp_delete_node; [qsimpl; apply lookup_insert_eq|reflexivity|].
    qnorm. rewrite delete_insert_eq.
    assert (Hgl' : glist (delete h m) g gs) by (apply glist_delete; auto).
    apply wp_bind. unfold is_garbage_full.
    apply wp_bind, wp_gets. apply wp_bind, wp_gets. qsimpl.
    destruct (decide (N.of_nat (length gs) < gm)%N) as [Hlt|Hge].
    + apply wp_ret. apply wp_bind, wp_ret. apply wp_ret. qsimpl.
      repeat (split; [reflexivity|]). split; [|apply lookup_delete_eq].
      intros b Hb. apply not_elem_of_cons in Hb as [Hb _].
      apply lookup_delete_ne. congruence.
    + apply wp_ret. apply wp_bind. eapply wp_mono.
      { apply (collect_garbage_spec (S fuel) _ gs); qsimpl;
          [exact Hgl'|reflexivity|lia|symmetry; exact Htl|lia]. }
      intros u q' (Hgl2 & Hsz & Hh' & Hhd & Htl' & Hout & Hin). qsimpl.
      apply wp_ret. split; [reflexivity|]. split; [exact Hhd|]. split; [exact Htl'|].
      split; [exact Hh'|]. split.
      * intros b Hb. apply not_elem_of_cons in Hb as [Hb Hbg].
        rewrite Hout by exact Hbg. apply lookup_delete_ne. congruence.
      * rewrite Hout by exact Hnotin. apply lookup_delete_eq.
Qed.
End QueueFacts.
End QueueFacts.

Module StackFacts.
Section StackFacts.
Import Stack StackSpec.
Variable alloc : gmap addr node -> addr.
Hypothesis alloc_fresh : forall m, m !! alloc m = None.

Implicit Types (s : state) (m : gmap addr node).

Ltac ssimpl :=
  cbn [mem self history head garbage hazard_arr hazard_max_size
       set_mem set_head set_garbage set_hazard_arr record
       next data thread_id pointer fst snd fmap option_fmap option_map] in *.
Ltac snorm :=
  unfold set_mem, set_head, set_garbage, set_hazard_arr, record in *; ssimpl.

Lemma stack_wp_deref a n s (Q : addr * node -> state -> Prop) :
  mem s !! a = Some n -> Q (a, n) s -> wp (deref (Some a)) Q s.
Proof. unfold wp, deref. intros ->. exact id. Qed.

Lemma stack_wp_slot_ref i arr h s (Q : hazard_ptr -> state -> Prop) :
  hazard_arr (self s) = Some arr -> arr !! i = Some h ->
  Q h s -> wp (slot_ref i) Q s.
Proof. unfold wp, slot_ref. intros -> ->. exact id. Qed.

Lemma stack_wp_store_next a n x s (Q : unit -> state -> Prop) :
  mem s !! a = Some n ->
  Q tt (set_mem <[a := Node x (data n)]> s) ->
  wp (store_next (Some a) x) Q s.
Proof.
  intros Ha HQ. unfold store_next. apply wp_bind. eapply stack_wp_deref; [exact Ha|].
  apply wp_modify. exact HQ.
Qed.

Lemma stack_scan_hazards_spec count : forall i s d arr,
  hazard_arr (self s) = Some arr ->
  i + count <= length arr ->
  scan_hazards count i d s = Ret (protected (take count (drop i arr)) d) s.
Proof.
  induction count as [|count IH]; intros i s d arr Harr Hlen; simpl.
  - reflexivity.
  - unfold bind, slot_ref. rewrite Harr.
    destruct (arr !! i) as [h|] eqn:Hi.
    2:{ apply lookup_ge_None in Hi. lia. }
    rewrite (drop_S _ _ _ Hi). simpl.
    unfold protected. simpl.
    destruct (decide (pointer h = d)) as [<-|Hne].
    + unfold ret. f_equal. symmetry. apply bool_decide_eq_true. left.
    + rewrite (IH _ _ _ arr) by (auto; lia). f_equal. unfold protected.
      apply bool_decide_ext. rewrite elem_of_cons. split; [auto|].
      intros [E|E]; [congruence|exact E].
Qed.

Lemma wp_hazard_existed d arr s (Q : bool -> state -> Prop) :
  hazard_arr (self s) = Some arr ->
  hazard_max_size (self s) = length arr ->
  Q (protected arr d) s ->
  wp (hazard_existed d) Q s.
Proof.
  intros Harr Hlen HQ. unfold hazard_existed. apply wp_bind, wp_gets.
  eapply wp_eq; [apply (stack_scan_hazards_spec _ _ _ _ arr Harr); lia|].
  rewrite Hlen, firstn_all. exact HQ.
Qed.

(** **** Acquiring and releasing a hazard slot *)

Lemma wp_claim_slot tid arr i : forall count start s (Q : option nat -> state -> Prop) p,
  hazard_arr (self s) = Some arr ->
  start <= i -> i < start + count ->
  arr !! i = Some (HazardPtr None p) ->
  (forall j, start <= j < i -> exists h, arr !! j = Some h /\ thread_id h <> None) ->
  Q (Some i) (set_hazard_arr <[i := HazardPtr tid p]> s) ->
  wp (claim_slot tid count start) Q s.
Proof.
  induction count as [|count IH]; intros start s Q p Harr Hle Hcount Hi Hbefore HQ; [lia|].
  simpl. apply wp_bind.
  destruct (decide (start = i)) as [->|Hne].
  - eapply stack_wp_slot_ref; [exact Harr|exact Hi|]. ssimpl.
    rewrite decide_True by reflexivity.
    apply wp_bind, wp_modify. apply wp_ret. exact HQ.
  - destruct (Hbefore start) as (h & Hj & Hown); [lia|].
    eapply stack_wp_slot_ref; [exact Harr|exact Hj|].
    rewrite decide_False by exact Hown.
    eapply IH; eauto; try lia.
    intros j Hj'. apply Hbefore. lia.
Qed.

Lemma wp_acquire fuel tid arr i p s (Q : nat -> state -> Prop) :
  hazard_arr (self s) = Some arr ->
  first_unowned arr i -> arr !! i = Some (HazardPtr None p) ->
  i < hazard_max_size (self s) ->
  Q i (set_hazard_arr <[i := HazardPtr tid p]> s) ->
  wp (acquire (S fuel) tid) Q s.
Proof.
  intros Harr [_ Hbefore] Hi Hsz HQ. simpl. apply wp_bind.
  unfold get_hazard_pointer. apply wp_bind, wp_gets.
  eapply (wp_claim_slot tid arr i); [exact Harr|lia|lia|exact Hi| |].
  { intros j Hj. apply Hbefore. lia. }
  apply wp_ret. exact HQ.
Qed.

Lemma wp_set_hazard_pointer hp arr h s (Q : option addr -> state -> Prop) :
  hazard_arr (self s) = Some arr -> arr !! hp = Some h ->
  Q (head (self s))
    (set_hazard_arr <[hp := HazardPtr (thread_id h) (head (self s))]> s) ->
  wp (set_hazard_pointer hp) Q s.
Proof.
  intros Harr Hh HQ. unfold set_hazard_pointer. apply wp_bind, wp_gets.
  apply wp_bind. eapply stack_wp_slot_ref; [exact Harr|exact Hh|].
  apply wp_bind, wp_modify. apply wp_ret. exact HQ.
Qed.

Lemma wp_clear_hazard_pointer hp arr s (Q : unit -> state -> Prop) :
  hazard_arr (self s) = Some arr -> hp < length arr ->
  Q tt (set_hazard_arr (fun _ => <[hp := HazardPtr None None]> arr) s) ->
  wp (clear_hazard_pointer hp) Q s.
Proof.
  intros Harr Hlt HQ. unfold clear_hazard_pointer.
  destruct (lookup_lt_is_Some_2 _ _ Hlt) as [h Hh].
  apply wp_bind. eapply stack_wp_slot_ref; [exact Harr|exact Hh|].
  apply wp_bind, wp_modify. apply wp_bind.
  eapply stack_wp_slot_ref; [snorm; rewrite Harr; reflexivity|apply list_lookup_insert_eq; exact Hlt|].
  apply wp_modify.
  destruct s as [m [hd g ha hm] hist]; snorm. subst ha. ssimpl.
  rewrite list_insert_insert_eq. exact HQ.
Qed.

(** **** Disposing of a node *)

Lemma wp_claim_later fuel a n s (Q : unit -> state -> Prop) :
  mem s !! a = Some n ->
  Q tt (set_garbage (Some a)
         (set_mem <[a := Node (garbage (self s)) (data n)]>
           (record (Deferred a (default [] (hazard_arr (self s)))) s))) ->
  wp (claim_later (S fuel) (Some a)) Q s.
Proof.
  intros Ha HQ. unfold claim_later.
  apply wp_bind. eapply stack_wp_deref; [exact Ha|].
  apply wp_bind, wp_gets. apply wp_bind, wp_modify. apply wp_bind, wp_gets.
  apply wp_bind. eapply stack_wp_store_next; [exact Ha|].
  simpl garbage_cas.
  apply wp_bind. eapply stack_wp_deref; [ssimpl; apply lookup_insert_eq|].
  apply wp_bind, wp_gets. ssimpl.
  rewrite decide_True by reflexivity.
  apply wp_modify. exact HQ.
Qed.

Lemma stack_wp_delete_node fuel a n s (Q : unit -> state -> Prop) :
  mem s !! a = Some n -> next n = None ->
  Q tt (set_mem (delete a) (record (Freed a (default [] (hazard_arr (self s)))) s)) ->
  wp (delete_node (S fuel) (Some a)) Q s.
Proof.
  intros Ha Hnext HQ. simpl.
  apply wp_bind. eapply stack_wp_deref; [exact Ha|]. rewrite Hnext.
  apply wp_bind, wp_ret. apply wp_bind, wp_gets.
  apply wp_bind, wp_modify. apply wp_modify. exact HQ.
Qed.

(** **** The quiescent stack *)

Lemma stack_protected_clear (k : nat) d :
  d <> None -> protected (replicate k (HazardPtr None None)) d = false.
Proof.
  intros Hd. unfold protected. apply bool_decide_eq_false.
  rewrite fmap_replicate. simpl. intros [-> _]%elem_of_replicate. congruence.
Qed.

Lemma first_unowned_clear (k : nat) :
  0 < k -> first_unowned (replicate k (HazardPtr None None)) 0.
Proof.
  intros Hk. split.
  - exists None. apply lookup_replicate_2. exact Hk.
  - intros j Hj. lia.
Qed.

Lemma stack_chain_functional m : forall vals1 vals2 p,
  chain m p vals1 -> chain m p vals2 -> vals1 = vals2.
Proof.
  induction vals1 as [|v1 vals1 IH]; intros [|v2 vals2] p H1 H2; simpl in *.
  - reflexivity.
  - subst p. destruct H2 as (a & nx & ? & _). discriminate.
  - subst p. destruct H1 as (a & nx & ? & _). discriminate.
  - destruct H1 as (a1 & n1 & -> & Hp1 & H1). destruct H2 as (a2 & n2 & [= <-] & Hp2 & H2).
    rewrite Hp1 in Hp2. injection Hp2 as <- <-. f_equal. eauto.
Qed.

Lemma stack_chain_delete m a : forall vals p,
  (forall vals', chain m (Some a) vals' -> length vals < length vals') ->
  chain m p vals -> chain (delete a m) p vals.
Proof.
  induction vals as [|v vals IH]; intros p Hlong Hc; simpl in *.
  - exact Hc.
  - destruct Hc as (b & nx & -> & Hb & Hc). exists b, nx. split; [reflexivity|]. split.
    + rewrite lookup_delete_ne; [exact Hb|]. intros ->.
      specialize (Hlong (v :: vals)). simpl in Hlong.
      assert (length vals < length vals) by (apply Nat.succ_lt_mono, Hlong; eauto).
      lia.
    + apply IH; auto. intros vals' Hv. specialize (Hlong vals' Hv). lia.
Qed.

Lemma chain_insert_fresh m a n : forall vals p,
  m !! a = None -> chain m p vals -> chain (<[a := n]> m) p vals.
Proof.
  induction vals as [|v vals IH]; intros p Hfresh Hc; simpl in *.
  - exact Hc.
  - destruct Hc as (b & nx & -> & Hb & Hc). exists b, nx. split; [reflexivity|]. split.
    + rewrite lookup_insert_ne; [exact Hb|]. intros ->. congruence.
    + apply IH; auto.
Qed.

(** [pop] on an empty stack with a free hazard slot hands the slot back
    and changes nothing. *)
Lemma stack_pop_empty fuel tid s arr i :
  hazard_arr (self s) = Some arr ->
  i < hazard_max_size (self s) ->
  first_unowned arr i -> arr !! i = Some (HazardPtr None None) ->
  head (self s) = None ->
  pop (S fuel) tid s = Ret None s.
Proof.
  intros Harr Hsz Hfree Hi Hhead.
  cut (wp (pop (S fuel) tid) (fun r s' => r = None /\ s' = s) s).
  { intros (a & s' & -> & -> & ->)%wp_Ret. reflexivity. }
  assert (Hlen : i < length arr) by (eapply lookup_lt_Some, Hi).
  destruct s as [m [hd g ha hm] hist]. ssimpl. subst hd ha.
  unfold pop. apply wp_bind.
  eapply wp_acquire; [ssimpl; reflexivity|exact Hfree|exact Hi|ssimpl; lia|].
  snorm. apply wp_bind. simpl pop_swing. apply wp_bind.
  eapply wp_set_hazard_pointer; [ssimpl; reflexivity|apply list_lookup_insert_eq; exact Hlen|].
  snorm. apply wp_ret. apply wp_bind.
  eapply wp_clear_hazard_pointer; [ssimpl; reflexivity|rewrite !length_insert; exact Hlen|].
  snorm. apply wp_ret. split; [reflexivity|].
  rewrite !list_insert_insert_eq, list_insert_id by exact Hi. reflexivity.
Qed.

Lemma node_data_long (v : T) :
  ElementType.node_data ElementType.c_long v = Some v.
Proof. reflexivity. Qed.

Lemma stack_pop_nonempty fuel tid s v vals :
  holds s (v :: vals) ->
  wp (pop (S fuel) tid) (fun r s' => r = Some v /\ holds s' vals) s.
Proof.
  intros (Hchain & Hg & Hsz & Hhz).
  pose proof Hchain as (a & nx & Hh & Ha & Hc).
  assert (Hfinal : holds
    (State (delete a (mem s))
       (Mk nx None (hazard_arr (self s)) (hazard_max_size (self s)))
       (Freed a (replicate (hazard_max_size (self s)) (HazardPtr None None))
        :: history s)) vals).
  { repeat split; ssimpl; auto.
    eapply stack_chain_delete; eauto.
    intros vals' Hv. rewrite <- Hh in Hv.
    rewrite (stack_chain_functional _ _ _ _ Hv Hchain). simpl. lia. }
  destruct s as [m [hd g ha hm] hist]. ssimpl. subst hd g ha.
  unfold pop. apply wp_bind.
  eapply (wp_acquire _ _ _ 0);
    [ssimpl; reflexivity|apply first_unowned_clear; exact Hsz
    |apply lookup_replicate_2; exact Hsz|ssimpl; lia|].
  snorm. apply wp_bind. simpl pop_swing. apply wp_bind.
  eapply wp_set_hazard_pointer;
    [ssimpl; reflexivity
    |apply list_lookup_insert_eq; rewrite length_replicate; exact Hsz|].
  snorm. apply wp_bind. eapply stack_wp_deref; [ssimpl; exact Ha|].
  apply wp_bind, wp_gets. ssimpl. rewrite decide_True by reflexivity.
  apply wp_bind, wp_modify. apply wp_ret. snorm.
  apply wp_bind.
  eapply wp_clear_hazard_pointer;
    [ssimpl; reflexivity|rewrite !length_insert, length_replicate; exact Hsz|].
  snorm. rewrite !list_insert_insert_eq.
  replace (<[0:=HazardPtr None None]> (replicate hm (HazardPtr None None)))
    with (replicate hm (HazardPtr None None)) by (destruct hm; reflexivity).
  apply wp_bind. eapply stack_wp_deref; [ssimpl; exact Ha|]. ssimpl.
  apply wp_bind. unfold update. apply wp_modify. snorm.
  apply wp_bind. eapply stack_wp_store_next; [ssimpl; apply lookup_insert_eq|]. snorm.
  apply wp_bind. eapply wp_hazard_existed;
    [ssimpl; reflexivity|ssimpl; rewrite length_replicate; reflexivity|].
  rewrite stack_protected_clear by congruence.
  apply wp_bind. eapply stack_wp_delete_node; [ssimpl; apply lookup_insert_eq|reflexivity|].
  snorm. rewrite !insert_insert_eq, delete_insert_eq.
  apply wp_bind. unfold collect_garbage. apply wp_bind, wp_gets. ssimpl.
  apply wp_bind, wp_modify. snorm. apply wp_ret. apply wp_ret.
  split; [reflexivity|]. exact Hfinal.
Qed.

Lemma stack_push_holds fuel s v vals :
  holds s vals ->
  wp (push alloc (S fuel) v) (fun _ s' => holds s' (v :: vals)) s.
Proof.
  intros (Hchain & Hg & Hsz & Hhz).
  destruct s as [m [hd g ha hm] hist]. ssimpl. subst g ha.
  pose proof (alloc_fresh m) as Hfresh.
  unfold push. apply wp_bind. unfold new_node. rewrite node_data_long.
  unfold wp at 1. snorm.
  apply wp_bind, wp_gets. ssimpl.
  apply wp_bind. eapply stack_wp_store_next; [ssimpl; apply lookup_insert_eq|]. snorm.
  simpl push_cas. apply wp_bind. eapply stack_wp_deref; [ssimpl; apply lookup_insert_eq|].
  apply wp_bind, wp_gets. ssimpl. rewrite decide_True by reflexivity.
  apply wp_modify. snorm. rewrite insert_insert_eq.
  repeat split; ssimpl; auto.
  exists (alloc m), hd. split; [reflexivity|]. split; [apply lookup_insert_eq|].
  apply chain_insert_fresh; auto.
Qed.

Lemma stack_ctor_holds k : 0 < k -> holds (State ∅ (ctor k) []) [].
Proof. intros Hk. repeat split; ssimpl; auto. Qed.

Lemma holds_empty_pop fuel tid s : holds s [] -> pop (S fuel) tid s = Ret None s.
Proof.
  intros (Hchain & Hg & Hsz & Hhz). simpl in Hchain.
  eapply (stack_pop_empty _ _ _ _ 0); eauto.
  - apply first_unowned_clear. exact Hsz.
  - apply lookup_replicate_2. exact Hsz.
Qed.

Lemma run_lifo fuel tid calls : forall s content,
  holds s content ->
  wp (run alloc (S fuel) tid calls) (fun rs _ => rs = lifo calls content) s.
Proof.
  induction calls as [|c calls IH]; intros s content Hs.
  - apply wp_ret. reflexivity.
  - destruct c as [v|]; cbn [run lifo].
    + apply wp_bind. eapply wp_mono; [apply stack_push_holds; exact Hs|].
      intros u s' Hs'. cbn beta. apply IH. exact Hs'.
    + apply wp_bind. destruct content as [|v content].
      * eapply wp_eq; [apply holds_empty_pop; exact Hs|].
        apply wp_bind. eapply wp_mono; [apply IH; exact Hs|].
        intros rs s' ->. apply wp_ret. reflexivity.
      * eapply wp_mono; [apply stack_pop_nonempty; exact Hs|].
        intros r s' [-> Hs']. cbn beta.
        apply wp_bind. eapply wp_mono; [apply IH; exact Hs'|].
        intros rs s'' ->. apply wp_ret. reflexivity.
Qed.

(** **** Every disposal is in order *)

Lemma stack_keeps_shape {A} (c : M state A) : keeps table_obs c -> keeps shape_obs c.
Proof.
  intros H s. eapply wlp_mono; [apply H|]. intros a s' Hs'. cbn beta in *.
  unfold table_obs, shape_obs in *. congruence.
Qed.

Lemma stack_keeps_deref {O} (obs : state -> O) p : keeps obs (deref p).
Proof.
  intros s. unfold wlp, deref. destruct p as [a|]; [|exact I].
  destruct (mem s !! a); [reflexivity|exact I].
Qed.

Lemma stack_keeps_slot_ref {O} (obs : state -> O) i : keeps obs (slot_ref i).
Proof.
  intros s. unfold wlp, slot_ref. destruct (hazard_arr (self s)) as [arr|]; [|exact I].
  destruct (arr !! i); [reflexivity|exact I].
Qed.

Lemma stack_keeps_slot_update i h : keeps shape_obs (slot_update i h).
Proof.
  apply keeps_modify. intros s. unfold shape_obs. snorm.
  destruct (hazard_arr (self s)); ssimpl; [|reflexivity].
  rewrite length_insert. reflexivity.
Qed.

Ltac keeps_step :=
  match goal with
  | |- keeps _ (bind _ _) => apply keeps_bind; [|intros ?]
  | |- keeps _ (ret _) => apply keeps_ret
  | |- keeps _ (gets _) => apply keeps_gets
  | |- keeps _ spin => apply keeps_spin
  | |- keeps _ fault => apply keeps_fault
  | |- keeps _ (deref _) => apply stack_keeps_deref
  | |- keeps _ (slot_ref _) => apply stack_keeps_slot_ref
  | |- keeps shape_obs (slot_update _ _) => apply stack_keeps_slot_update
  | |- keeps _ (update _ _) => apply keeps_modify; intros ?; reflexivity
  | |- keeps _ (modify _) => apply keeps_modify; intros ?; reflexivity
  | H : context [keeps _ _] |- keeps _ _ => apply H
  | |- keeps _ (match ?x with _ => _ end) => destruct x
  | |- keeps shape_obs _ => apply stack_keeps_shape
  end.
Ltac keeps_auto := repeat keeps_step.

Lemma stack_keeps_store_next p x : keeps table_obs (store_next p x).
Proof. unfold store_next. keeps_auto. Qed.

Lemma stack_keeps_garbage_cas fuel : forall p, keeps table_obs (garbage_cas fuel p).
Proof.
  induction fuel as [|fuel IH]; intros p; simpl; [apply keeps_spin|].
  pose proof stack_keeps_store_next. keeps_auto.
Qed.

Lemma keeps_claim_slot tid count : forall idx, keeps shape_obs (claim_slot tid count idx).
Proof. induction count as [|count IH]; intros idx; simpl; keeps_auto. Qed.

Lemma keeps_acquire fuel tid : keeps shape_obs (acquire fuel tid).
Proof.
  induction fuel as [|fuel IH]; simpl; [apply keeps_spin|].
  unfold get_hazard_pointer. pose proof keeps_claim_slot. keeps_auto.
Qed.

Lemma keeps_pop_swing fuel : forall hp, keeps shape_obs (pop_swing fuel hp).
Proof.
  induction fuel as [|fuel IH]; intros hp; simpl; [apply keeps_spin|].
  unfold set_hazard_pointer. keeps_auto.
Qed.

Lemma keeps_clear_hazard_pointer hp : keeps shape_obs (clear_hazard_pointer hp).
Proof. unfold clear_hazard_pointer. keeps_auto. Qed.

Lemma stack_in_order_shape s0 s s' :
  shape_obs s' = shape_obs s -> in_order s0 s -> in_order s0 s'.
Proof.
  unfold shape_obs, in_order, disposed_ok. intros [= -> Hl ->] [Hd Hs]. split; [exact Hd|].
  congruence.
Qed.

Lemma stack_wlp_keeps {A} (c : M state A) s0 s :
  keeps shape_obs c -> in_order s0 s -> wlp c (fun _ s' => in_order s0 s') s.
Proof.
  intros Hc Hs. eapply wlp_mono; [apply Hc|]. intros a s' Hs'. cbn beta in *.
  eapply stack_in_order_shape; eauto.
Qed.

Lemma stack_in_order_record s0 s d :
  disposal_ok d -> in_order s0 s -> in_order s0 (record d s).
Proof.
  intros Hd [(new & Hh & Hnew) Hs]. split; [|exact Hs].
  exists (d :: new). snorm. rewrite Hh. split; [reflexivity|]. constructor; auto.
Qed.

Lemma stack_wlp_deref p s (Q : addr * node -> state -> Prop) :
  (forall a n, p = Some a -> mem s !! a = Some n -> Q (a, n) s) ->
  wlp (deref p) Q s.
Proof.
  intros H. unfold wlp, deref. destruct p as [a|]; [|exact I].
  destruct (mem s !! a) as [n|] eqn:E; [|exact I]. apply H; auto.
Qed.

Lemma claim_later_in_order fuel p s0 s :
  in_order s0 s -> protected (default [] (hazard_arr (self s))) p = true ->
  wlp (claim_later fuel p) (fun _ s' => in_order s0 s') s.
Proof.
  intros Hs Hp. unfold claim_later.
  apply wlp_bind, stack_wlp_deref. intros a n -> Ha.
  apply wlp_bind, wlp_gets. apply wlp_bind, wlp_modify.
  apply stack_wlp_keeps.
  - pose proof stack_keeps_store_next. pose proof stack_keeps_garbage_cas. keeps_auto.
  - apply stack_in_order_record; auto.
Qed.

Lemma stack_delete_node_in_order fuel a n s0 s :
  in_order s0 s -> mem s !! a = Some n -> next n = None ->
  protected (default [] (hazard_arr (self s))) (Some a) = false ->
  wlp (delete_node fuel (Some a)) (fun _ s' => in_order s0 s') s.
Proof.
  intros Hs Ha Hn Hp. destruct fuel as [|fuel]; [exact I|]. simpl.
  apply wlp_bind. apply wp_wlp. eapply stack_wp_deref; [exact Ha|]. rewrite Hn.
  apply wlp_bind, wlp_ret. apply wlp_bind, wlp_gets. apply wlp_bind, wlp_modify.
  apply wlp_modify.
  eapply stack_in_order_shape; [|apply stack_in_order_record; [|exact Hs]]; [reflexivity|exact Hp].
Qed.

(** The check and what follows it, in [pop] and in [collect_garbage]
    (which has the two branches the other way round). *)
Lemma stack_dispose_in_order {B} fuel a n s0 s (k : M state B) Q :
  in_order s0 s -> mem s !! a = Some n -> next n = None ->
  (forall s', in_order s0 s' -> wlp k Q s') ->
  wlp (bind (hazard_existed (Some a))
         (fun hz : bool =>
            bind (if hz then claim_later fuel (Some a)
                  else delete_node fuel (Some a))
                 (fun _ => k)))
      Q s.
Proof.
  intros Hs Ha Hn Hk. apply wlp_bind. apply wp_wlp.
  destruct Hs as [Hd Hlen].
  destruct (hazard_arr (self s)) as [arr|] eqn:Harr; [|discriminate].
  injection Hlen as Hlen.
  eapply wp_hazard_existed; [exact Harr|congruence|].
  assert (Hs : in_order s0 s) by (split; [exact Hd|rewrite Harr; simpl; congruence]).
  apply wlp_bind.
  destruct (protected arr (Some a)) eqn:Hp.
  - eapply wlp_mono; [apply claim_later_in_order; [exact Hs|rewrite Harr; exact Hp]|].
    intros u s'. apply Hk.
  - eapply wlp_mono; [eapply stack_delete_node_in_order; eauto; rewrite Harr; exact Hp|].
    intros u s'. apply Hk.
Qed.

Lemma stack_wlp_store_next_None p s (Q : unit -> state -> Prop) :
  (forall a n, p = Some a -> mem s !! a = Some n ->
     Q tt (set_mem <[a := Node None (data n)]> s)) ->
  wlp (store_next p None) Q s.
Proof.
  intros H. unfold store_next. apply wlp_bind, stack_wlp_deref. intros a n -> Ha.
  apply wlp_modify. apply H; auto.
Qed.

Lemma stack_collect_loop_in_order s0 fuel : forall g s,
  in_order s0 s -> wlp (collect_loop fuel g) (fun _ s' => in_order s0 s') s.
Proof.
  induction fuel as [|fuel IH]; intros [a|] s Hs; cbn [collect_loop];
    try exact I; try exact Hs.
  apply wlp_bind, stack_wlp_deref. intros a' n [= <-] Ha.
  apply wlp_bind, stack_wlp_store_next_None. intros a' n' [= <-] Ha'.
  eapply (stack_dispose_in_order _ a).
  - eapply stack_in_order_shape; [|exact Hs]. reflexivity.
  - snorm. apply lookup_insert_eq.
  - reflexivity.
  - intros s' Hs'. apply IH. exact Hs'.
Qed.

Lemma stack_collect_garbage_in_order s0 fuel s :
  in_order s0 s -> wlp (collect_garbage fuel) (fun _ s' => in_order s0 s') s.
Proof.
  intros Hs. unfold collect_garbage. apply wlp_bind, wlp_gets.
  apply wlp_bind, wlp_modify. apply stack_collect_loop_in_order.
  eapply stack_in_order_shape; [|exact Hs]. reflexivity.
Qed.

Lemma stack_pop_in_order s0 fuel tid s :
  in_order s0 s -> wlp (pop fuel tid) (fun _ s' => in_order s0 s') s.
Proof.
  intros Hs. unfold pop. apply wlp_bind.
  eapply wlp_mono; [apply stack_wlp_keeps; [apply keeps_acquire|exact Hs]|].
  intros hp s1 Hs1. cbn beta. apply wlp_bind.
  eapply wlp_mono; [apply stack_wlp_keeps; [apply keeps_pop_swing|exact Hs1]|].
  intros p s2 Hs2. cbn beta. apply wlp_bind.
  eapply wlp_mono; [apply stack_wlp_keeps; [apply keeps_clear_hazard_pointer|exact Hs2]|].
  intros u s3 Hs3. cbn beta.
  destruct p as [a|]; [|apply wlp_ret; exact Hs3].
  apply wlp_bind, stack_wlp_deref. intros a' n [= <-] Ha.
  apply wlp_bind. unfold update. apply wlp_modify.
  apply wlp_bind, stack_wlp_store_next_None. intros a' n' [= <-] Ha'.
  eapply (stack_dispose_in_order _ a).
  - eapply stack_in_order_shape; [|exact Hs3]. reflexivity.
  - snorm. apply lookup_insert_eq.
  - reflexivity.
  - intros s' Hs'. apply wlp_bind.
    eapply wlp_mono; [apply stack_collect_garbage_in_order; exact Hs'|].
    intros u' s4 Hs4. apply wlp_ret. exact Hs4.
Qed.

Lemma stack_in_order_refl s :
  length <$> hazard_arr (self s) = Some (hazard_max_size (self s)) -> in_order s s.
Proof. intros H. split; [|exact H]. exists []. split; [reflexivity|constructor]. Qed.

(** **** Whole calls as equations *)

Lemma stack_wp_run {A} (c : M state A) s a s' :
  wp c (fun r x => r = a /\ x = s') s -> c s = Ret a s'.
Proof. intros (r & x & -> & -> & ->)%wp_Ret. reflexivity. Qed.

(** [push] run alone returns in its first round, whatever the state. *)
Lemma stack_push_eq fuel s v :
  push alloc (S fuel) v s
  = Ret tt (set_head (Some (alloc (mem s)))
              (set_mem <[alloc (mem s) := Node (head (self s)) (Some v)]> s)).
Proof.
  apply stack_wp_run.
  destruct s as [m [hd g ha hm] hist].
  unfold push. apply wp_bind. unfold new_node. rewrite node_data_long.
  unfold wp at 1. snorm.
  apply wp_bind, wp_gets. ssimpl.
  apply wp_bind. eapply stack_wp_store_next; [ssimpl; apply lookup_insert_eq|]. snorm.
  simpl push_cas. apply wp_bind. eapply stack_wp_deref; [ssimpl; apply lookup_insert_eq|].
  apply wp_bind, wp_gets. ssimpl. rewrite decide_True by reflexivity.
  apply wp_modify. snorm. rewrite insert_insert_eq. split; reflexivity.
Qed.

Lemma stack_pop_eq fuel tid s v vals :
  holds s (v :: vals) ->
  exists a n,
    head (self s) = Some a /\ mem s !! a = Some n /\ data n = Some v /\
    pop (S fuel) tid s
    = Ret (Some v)
        (set_head (next n)
           (set_mem (delete a)
              (record (Freed a (default [] (hazard_arr (self s)))) s))).
Proof.
  intros (Hchain & Hg & Hsz & Hhz).
  pose proof Hchain as (a & nx & Hh & Ha & Hc).
  exists a, (Node nx (Some v)). split; [exact Hh|]. split; [exact Ha|].
  split; [reflexivity|]. apply stack_wp_run.
  destruct s as [m [hd g ha hm] hist]. ssimpl. subst hd g ha.
  unfold pop. apply wp_bind.
  eapply (wp_acquire _ _ _ 0);
    [ssimpl; reflexivity|apply first_unowned_clear; exact Hsz
    |apply lookup_replicate_2; exact Hsz|ssimpl; lia|].
  snorm. apply wp_bind. simpl pop_swing. apply wp_bind.
  eapply wp_set_hazard_pointer;
    [ssimpl; reflexivity
    |apply list_lookup_insert_eq; rewrite length_replicate; exact Hsz|].
  snorm. apply wp_bind. eapply stack_wp_deref; [ssimpl; exact Ha|].
  apply wp_bind, wp_gets. ssimpl. rewrite decide_True by reflexivity.
  apply wp_bind, wp_modify. apply wp_ret. snorm.
  apply wp_bind.
  eapply wp_clear_hazard_pointer;
    [ssimpl; reflexivity|rewrite !length_insert, length_replicate; exact Hsz|].
  snorm. rewrite !list_insert_insert_eq.
  replace (<[0:=HazardPtr None None]> (replicate hm (HazardPtr None None)))
    with (replicate hm (HazardPtr None None)) by (destruct hm; reflexivity).
  apply wp_bind. eapply stack_wp_deref; [ssimpl; exact Ha|]. ssimpl.
  apply wp_bind. unfold update. apply wp_modify. snorm.
  apply wp_bind. eapply stack_wp_store_next; [ssimpl; apply lookup_insert_eq|]. snorm.
  apply wp_bind. eapply wp_hazard_existed;
    [ssimpl; reflexivity|ssimpl; rewrite length_replicate; reflexivity|].
  rewrite stack_protected_clear by congruence.
  apply wp_bind. eapply stack_wp_delete_node; [ssimpl; apply lookup_insert_eq|reflexivity|].
  snorm. rewrite !insert_insert_eq, delete_insert_eq.
  apply wp_bind. unfold collect_garbage. apply wp_bind, wp_gets. ssimpl.
  apply wp_bind, wp_modify. snorm. apply wp_ret. apply wp_ret.
  split; reflexivity.
Qed.


Lemma is_empty_holds s vals :
  holds s vals -> is_empty s = Ret (bool_decide (vals = [])) s.
Proof.
  intros (Hchain & _). unfold is_empty, bind, gets.
  destruct vals as [|v vals]; simpl in Hchain.
  - rewrite Hchain. reflexivity.
  - destruct Hchain as (a & nx & -> & _). reflexivity.
Qed.

(** **** Nothing but the live list in the free store *)

Lemma stack_push_tidy fuel s v vals :
  tidy s vals ->
  wp (push alloc (S fuel) v) (fun _ s' => tidy s' (v :: vals)) s.
Proof.
  intros [Hs Hsize].
  pose proof (stack_push_holds fuel s v vals Hs) as Hw.
  apply wp_Ret in Hw as (u & s' & Hrun & Hs').
  eapply wp_eq; [exact Hrun|]. split; [exact Hs'|].
  rewrite stack_push_eq in Hrun. injection Hrun as Hrun. subst s'. clear Hs'.
  snorm. rewrite map_size_insert_None by apply alloc_fresh.
  rewrite Hsize. reflexivity.
Qed.

Lemma stack_pop_tidy fuel tid s v vals :
  tidy s (v :: vals) ->
  wp (pop (S fuel) tid) (fun r s' => r = Some v /\ tidy s' vals) s.
Proof.
  intros [Hs Hsize].
  pose proof (stack_pop_nonempty fuel tid s v vals Hs) as Hw.
  destruct (stack_pop_eq fuel tid s v vals Hs) as (a & n & Ha & Hn & _ & Hrun).
  apply wp_Ret in Hw as (r & s' & Hrun' & -> & Hs').
  eapply wp_eq; [exact Hrun'|]. split; [reflexivity|]. split; [exact Hs'|].
  rewrite Hrun in Hrun'. injection Hrun' as Hrun'. subst s'. clear Hs'. snorm.
  rewrite map_size_delete_Some by (rewrite Hn; eauto).
  rewrite Hsize. reflexivity.
Qed.

Lemma stack_ctor_tidy k : 0 < k -> tidy (State ∅ (ctor k) []) [].
Proof. intros Hk. split; [apply stack_ctor_holds; exact Hk|]. reflexivity. Qed.

Lemma stack_run_tidy fuel tid calls : forall s content,
  tidy s content ->
  wp (run alloc (S fuel) tid calls)
     (fun rs s' => rs = lifo calls content /\ tidy s' (content_after calls content)) s.
Proof.
  induction calls as [|c calls IH]; intros s content Hs.
  - apply wp_ret. split; [reflexivity|exact Hs].
  - destruct c as [v|]; cbn [run lifo content_after].
    + apply wp_bind. eapply wp_mono; [apply stack_push_tidy; exact Hs|].
      intros u s' Hs'. cbn beta. apply IH. exact Hs'.
    + apply wp_bind. destruct content as [|v content].
      * eapply wp_eq; [apply holds_empty_pop; apply Hs|].
        apply wp_bind. eapply wp_mono; [apply IH; exact Hs|].
        intros rs s' [-> Hs']. apply wp_ret. split; [reflexivity|exact Hs'].
      * eapply wp_mono; [apply stack_pop_tidy; exact Hs|].
        intros r s' [-> Hs']. cbn beta.
        apply wp_bind. eapply wp_mono; [apply IH; exact Hs'|].
        intros rs s'' [-> Hs'']. apply wp_ret. split; [reflexivity|exact Hs''].
Qed.

Lemma stack_content_after_length calls : forall content,
  length (content_after calls content) <= length content + length calls.
Proof.
  induction calls as [|c calls IH]; intros content; cbn [content_after length]; [lia|].
  destruct c as [v|].
  - etransitivity; [apply IH|]. cbn [length]. lia.
  - etransitivity; [apply IH|]. rewrite length_drop. lia.
Qed.

(** **** Lists of nodes *)

Lemma stack_glist_delete m a : forall l p,
  a ∉ l -> glist m p l -> glist (delete a m) p l.
Proof.
  induction l as [|b l IH]; intros p Hnotin Hl; simpl in *; [exact Hl|].
  destruct Hl as (-> & nb & Hb & Hl). split; [reflexivity|].
  exists nb. split.
  - rewrite lookup_delete_ne; [exact Hb|]. intros ->. apply Hnotin. left.
  - apply IH; [|exact Hl]. intros Hin. apply Hnotin. right. exact Hin.
Qed.

Lemma stack_glist_functional m : forall l1 l2 p,
  glist m p l1 -> glist m p l2 -> l1 = l2.
Proof.
  induction l1 as [|a l1 IH]; intros [|b l2] p H1 H2; simpl in *.
  - reflexivity.
  - destruct H2 as [-> _]. discriminate.
  - destruct H1 as [-> _]. discriminate.
  - destruct H1 as (-> & n1 & Ha & H1). destruct H2 as ([= <-] & n2 & Hb & H2).
    rewrite Ha in Hb. injection Hb as <-. f_equal. eauto.
Qed.

Lemma stack_glist_suffix m a : forall l p,
  glist m p l -> a ∈ l ->
  exists l', glist m (Some a) (a :: l') /\ length l' < length l.
Proof.
  induction l as [|b l IH]; intros p Hl Hin; [inversion Hin|].
  destruct (decide (a = b)) as [->|Hne].
  - destruct Hl as (-> & n & Hb & Hl). exists l. split; [|simpl; lia].
    split; [reflexivity|]. eauto.
  - destruct Hl as (-> & n & Hb & Hl).
    apply elem_of_cons in Hin as [?|Hin]; [contradiction|].
    destruct (IH _ Hl Hin) as (l' & Hl' & Hlen). exists l'. split; [exact Hl'|].
    simpl. lia.
Qed.

Lemma stack_glist_NoDup m : forall l p, glist m p l -> NoDup l.
Proof.
  induction l as [|a l IH]; intros p Hl; [constructor|].
  pose proof Hl as (-> & n & Ha & Hl'). constructor; [|eauto].
  intros Hin. destruct (stack_glist_suffix _ _ _ _ Hl' Hin) as (l' & Hs & Hlen).
  pose proof (stack_glist_functional _ _ _ _ Hs Hl) as E. injection E as ->. lia.
Qed.

Lemma stack_glist_lookup m a : forall l p, glist m p l -> a ∈ l -> is_Some (m !! a).
Proof.
  induction l as [|b l IH]; intros p Hl Hin; [inversion Hin|].
  destruct Hl as (-> & n & Hb & Hl).
  apply elem_of_cons in Hin as [->|Hin]; [eauto|]. eapply IH; eauto.
Qed.

Lemma stack_chain_glist m : forall vals p,
  chain m p vals -> exists l, glist m p l /\ length l = length vals.
Proof.
  induction vals as [|v vals IH]; intros p Hc; simpl in Hc.
  - subst p. exists []. split; reflexivity.
  - destruct Hc as (a & nx & -> & Ha & Hc). destruct (IH _ Hc) as (l & Hl & Hlen).
    exists (a :: l). split; [|cbn [length]; rewrite Hlen; reflexivity].
    split; [reflexivity|]. eexists. split; [exact Ha|exact Hl].
Qed.

Lemma stack_lookup_without m a : forall l,
  without l m !! a = if bool_decide (a ∈ l) then None else m !! a.
Proof.
  induction l as [|b l IH]; [reflexivity|].
  unfold without in *. cbn [foldr].
  destruct (decide (a = b)) as [->|Hne].
  - rewrite lookup_delete_eq, bool_decide_eq_true_2 by left. reflexivity.
  - rewrite lookup_delete_ne by congruence. rewrite IH.
    apply (f_equal (fun b : bool => if b then None else m !! a)).
    apply bool_decide_ext. rewrite elem_of_cons. split; [auto|].
    intros [E|E]; [contradiction|exact E].
Qed.

Lemma stack_glist_without m : forall l' l p,
  (forall a, a ∈ l' -> a ∉ l) -> glist m p l -> glist (without l' m) p l.
Proof.
  induction l' as [|b l' IH]; intros l p Hdis Hl; [exact Hl|].
  unfold without. cbn [foldr]. apply stack_glist_delete.
  - apply Hdis. left.
  - apply IH; [|exact Hl]. intros a Ha. apply Hdis. right. exact Ha.
Qed.

Lemma stack_size_without m : forall l,
  NoDup l -> (forall a, a ∈ l -> is_Some (m !! a)) ->
  size (without l m) + length l = size m.
Proof.
  induction l as [|a l IH]; intros Hnd Hin; [simpl; lia|].
  apply NoDup_cons in Hnd as [Ha Hnd].
  unfold without in *. cbn [foldr length].
  rewrite map_size_delete_Some.
  2:{ fold (without l m). rewrite stack_lookup_without, bool_decide_eq_false_2 by exact Ha.
      apply Hin. left. }
  assert (0 < size (foldr delete m l)).
  { destruct (Hin a) as [n Hn]; [left|].
    assert (Hl : foldr delete m l !! a = Some n).
    { fold (without l m).
      rewrite stack_lookup_without, bool_decide_eq_false_2 by exact Ha. exact Hn. }
    destruct (decide (size (foldr delete m l) = 0)) as [E|E]; [|lia].
    apply map_size_empty_iff in E. rewrite E in Hl. rewrite lookup_empty in Hl.
    discriminate. }
  specialize (IH Hnd). rewrite <- IH; [lia|].
  intros b Hb. apply Hin. right. exact Hb.
Qed.

(** **** Deleting a list of nodes *)

Lemma stack_released_nil s : released [] s = s.
Proof. destruct s. reflexivity. Qed.

Lemma stack_delete_node_list : forall l fuel p s,
  l <> [] -> glist (mem s) p l -> length l <= fuel ->
  delete_node fuel p s = Ret tt (released l s).
Proof.
  induction l as [|a l IH]; intros fuel p s Hne Hl Hfuel; [congruence|].
  destruct Hl as (-> & n & Ha & Hl).
  destruct fuel as [|fuel]; [simpl in Hfuel; lia|].
  cbn [delete_node]. unfold bind at 1. unfold deref. rewrite Ha.
  destruct l as [|b l].
  - simpl in Hl. rewrite Hl. destruct s. reflexivity.
  - pose proof Hl as [Hb _]. rewrite Hb. rewrite <- Hb.
    unfold bind at 1. unfold bind at 1.
    rewrite (IH fuel (next n) s); [|discriminate|exact Hl|simpl in *; lia].
    destruct s. reflexivity.
Qed.

Lemma stack_dtor_eq s ls gs fuel :
  glist (mem s) (head (self s)) ls -> glist (mem s) (garbage (self s)) gs ->
  (forall a, a ∈ ls -> a ∉ gs) ->
  length ls <= fuel -> length gs <= fuel ->
  dtor fuel s
  = Ret tt
      (State (without gs (without ls (mem s)))
         (Mk None None None (hazard_max_size (self s)))
         (map (fun a => Freed a (default [] (hazard_arr (self s)))) gs
          ++ map (fun a => Freed a (default [] (hazard_arr (self s)))) ls
          ++ history s)).
Proof.
  intros Hls Hgs Hdis Hfl Hfg.
  destruct s as [m [hd g ha hm] hist]. ssimpl.
  set (s1 := State m (Mk None g ha hm) hist).
  assert (H1 : (match hd with
                | Some _ => delete_node fuel hd
                | None => ret tt
                end) s1 = Ret tt (released ls s1)).
  { destruct ls as [|a ls].
    - simpl in Hls. rewrite Hls, stack_released_nil. reflexivity.
    - pose proof Hls as [Ha _]. rewrite Ha. rewrite <- Ha.
      apply stack_delete_node_list; [discriminate|exact Hls|exact Hfl]. }
  set (s2 := State (without ls m) (Mk None None ha hm) (history (released ls s1))).
  assert (H2 : (match g with
                | Some _ => delete_node fuel g
                | None => ret tt
                end) s2 = Ret tt (released gs s2)).
  { destruct gs as [|b gs].
    - simpl in Hgs. rewrite Hgs, stack_released_nil. reflexivity.
    - pose proof Hgs as [Hb _]. rewrite Hb. rewrite <- Hb.
      apply stack_delete_node_list; [discriminate| |exact Hfg].
      unfold s2. ssimpl. apply stack_glist_without; [exact Hdis|exact Hgs]. }
  unfold dtor. unfold bind at 1. unfold gets at 1. ssimpl.
  unfold bind at 1. unfold modify at 1. unfold set_head. ssimpl. fold s1.
  unfold bind at 1. rewrite H1.
  unfold bind at 1. unfold gets at 1.
  unfold bind at 1. unfold modify at 1.
  change (set_garbage None (released ls s1)) with s2.
  change (garbage (self (released ls s1))) with g.
  unfold bind at 1. rewrite H2. reflexivity.
Qed.

(** Deleting the garbage list after the live list, when the first node
    of the one is on the other, is a second [delete] of that node. *)
Lemma stack_dtor_shared s ls a fuel :
  glist (mem s) (head (self s)) ls -> garbage (self s) = Some a -> a ∈ ls ->
  length ls <= fuel ->
  dtor fuel s = Fault.
Proof.
  intros Hls Hg Hin Hfl.
  destruct s as [m [hd g ha hm] hist]. ssimpl. subst g.
  set (s1 := State m (Mk None (Some a) ha hm) hist).
  assert (H1 : (match hd with
                | Some _ => delete_node fuel hd
                | None => ret tt
                end) s1 = Ret tt (released ls s1)).
  { destruct ls as [|b ls]; [inversion Hin|].
    pose proof Hls as [Hb _]. rewrite Hb. rewrite <- Hb.
    apply stack_delete_node_list; [discriminate|exact Hls|exact Hfl]. }
  unfold dtor. unfold bind at 1. unfold gets at 1. ssimpl.
  unfold bind at 1. unfold modify at 1. unfold set_head. ssimpl. fold s1.
  unfold bind at 1. rewrite H1.
  unfold bind at 1. unfold gets at 1.
  unfold bind at 1. unfold modify at 1.
  change (garbage (self (released ls s1))) with (Some a).
  unfold bind at 1.
  destruct fuel as [|fuel]; [destruct ls; [inversion Hin|simpl in Hfl; lia]|].
  cbn [delete_node]. unfold bind at 1. unfold deref.
  unfold set_garbage, released. ssimpl.
  rewrite stack_lookup_without, bool_decide_eq_true_2 by exact Hin. reflexivity.
Qed.

(** Calls made one after the other on a new stack, and then its
    destructor. *)
Lemma stack_teardown fuel tid calls k :
  0 < k -> length calls <= fuel ->
  wp (bind (run alloc (S fuel) tid calls) (fun rs => dtor fuel;; ret rs))
     (fun rs s' => rs = lifo calls [] /\ mem s' = ∅ /\ hazard_arr (self s') = None)
     (State ∅ (ctor k) []).
Proof.
  intros Hk Hfuel. apply wp_bind.
  eapply wp_mono; [apply stack_run_tidy, stack_ctor_tidy; exact Hk|].
  intros rs s' [-> [Hs Hsize]]. cbn beta.
  pose proof (stack_content_after_length calls []) as Hlen. cbn [length] in Hlen.
  destruct Hs as (Hchain & Hg & _).
  destruct (stack_chain_glist _ _ _ Hchain) as (l & Hl & Hll).
  apply wp_bind. eapply wp_eq.
  { apply (stack_dtor_eq s' l []); [exact Hl|rewrite Hg; reflexivity| | |simpl; lia].
    - intros a _ Hin. inversion Hin.
    - lia. }
  apply wp_ret. split; [reflexivity|]. ssimpl. split; [|reflexivity].
  apply map_size_empty_iff. change (without [] (without l (mem s'))) with (without l (mem s')).
  pose proof (stack_size_without (mem s') l (stack_glist_NoDup _ _ _ Hl)
                (fun a Ha => stack_glist_lookup _ a _ _ Hl Ha)) as Hsz.
  lia.
Qed.

(** **** No hazard slot to be had *)

Lemma claim_slot_all_owned tid arr s :
  hazard_arr (self s) = Some arr ->
  forall count idx,
    idx + count <= length arr ->
    (forall j h, idx <= j < idx + count -> arr !! j = Some h -> thread_id h <> None) ->
    claim_slot tid count idx s = Ret None s.
Proof.
  intros Harr. induction count as [|count IH]; intros idx Hlen Hall; [reflexivity|].
  cbn [claim_slot]. unfold bind at 1. unfold slot_ref. rewrite Harr.
  destruct (arr !! idx) as [h|] eqn:Hi.
  2:{ apply lookup_ge_None in Hi. lia. }
  rewrite decide_False by (eapply Hall; [|exact Hi]; lia).
  apply IH; [lia|]. intros j h' Hj. apply Hall. lia.
Qed.

Lemma pop_all_owned tid arr s :
  hazard_arr (self s) = Some arr ->
  0 < hazard_max_size (self s) ->
  hazard_max_size (self s) <= length arr ->
  (forall j h, j < hazard_max_size (self s) -> arr !! j = Some h -> thread_id h <> None) ->
  forall fuel, pop fuel tid s = Spin.
Proof.
  intros Harr Hsz Hlen Hall fuel.
  assert (Hacq : acquire fuel tid s = Spin).
  { induction fuel as [|fuel IH]; [reflexivity|].
    cbn [acquire]. unfold bind at 1. unfold get_hazard_pointer. unfold bind at 1.
    unfold gets at 1.
    rewrite (claim_slot_all_owned tid arr s Harr); [|lia|intros j h Hj; apply Hall; lia].
    unfold bind at 1. unfold gets at 1.
    rewrite decide_False by lia. exact IH. }
  unfold pop. unfold bind at 1. rewrite Hacq. reflexivity.
Qed.

(** **** A stack that was moved *)

Lemma pop_moved_from fuel tid m hist this other :
  0 < hazard_max_size other ->
  pop (S fuel) tid (State m (snd (move_from this other)) hist) = Fault.
Proof.
  intros Hsz. destruct other as [hd g ha [|k]]; [simpl in Hsz; lia|]. reflexivity.
Qed.

Lemma pop_moved_to fuel tid s v vals this :
  holds s (v :: vals) ->
  pop (S fuel) tid (State (mem s) (fst (move_from this (self s))) (history s)) = Fault.
Proof.
  intros (Hchain & Hg & Hsz & Hhz).
  pose proof Hchain as (a & nx & Hh & Ha & Hc).
  destruct s as [m [hd g ha hm] hist]. ssimpl. subst hd g ha.
  unfold move_from, with_head, with_garbage, with_hazard_arr, with_hazard_max_size.
  ssimpl.
  unfold pop. apply bind_wp_eq.
  eapply (wp_acquire _ _ _ 0);
    [ssimpl; reflexivity|apply first_unowned_clear; exact Hsz
    |apply lookup_replicate_2; exact Hsz|ssimpl; lia|].
  snorm. apply bind_wp_eq. simpl pop_swing. apply wp_bind.
  eapply wp_set_hazard_pointer;
    [ssimpl; reflexivity
    |apply list_lookup_insert_eq; rewrite length_replicate; exact Hsz|].
  snorm. apply wp_bind. eapply stack_wp_deref; [ssimpl; exact Ha|].
  apply wp_bind, wp_gets. ssimpl. rewrite decide_True by reflexivity.
  apply wp_bind, wp_modify. apply wp_ret. snorm.
  apply bind_wp_eq.
  eapply wp_clear_hazard_pointer;
    [ssimpl; reflexivity|rewrite !length_insert, length_replicate; exact Hsz|].
  snorm. rewrite !list_insert_insert_eq.
  replace (<[0:=HazardPtr None None]> (replicate hm (HazardPtr None None)))
    with (replicate hm (HazardPtr None None)) by (destruct hm; reflexivity).
  apply bind_wp_eq. eapply stack_wp_deref; [ssimpl; exact Ha|]. ssimpl.
  apply bind_wp_eq. unfold update. apply wp_modify. snorm.
  apply bind_wp_eq. eapply stack_wp_store_next; [ssimpl; apply lookup_insert_eq|]. snorm.
  apply bind_wp_eq. eapply wp_hazard_existed;
    [ssimpl; reflexivity|ssimpl; rewrite length_replicate; reflexivity|].
  rewrite stack_protected_clear by congruence.
  apply bind_wp_eq. eapply stack_wp_delete_node; [ssimpl; apply lookup_insert_eq|reflexivity|].
  snorm. rewrite !insert_insert_eq, delete_insert_eq.
  unfold bind at 1. unfold collect_garbage. unfold bind at 1. unfold gets at 1. ssimpl.
  unfold bind at 1. unfold modify at 1. cbn [collect_loop].
  unfold bind at 1. unfold deref. snorm. rewrite lookup_delete_eq. reflexivity.
Qed.

Lemma dtor_moved_to fuel s v vals this :
  holds s (v :: vals) -> length vals < fuel ->
  dtor fuel (State (mem s) (fst (move_from this (self s))) (history s)) = Fault.
Proof.
  intros (Hchain & Hg & Hsz & Hhz) Hfuel.
  destruct (stack_chain_glist _ _ _ Hchain) as (l & Hl & Hll).
  pose proof Hchain as (a & nx & Hh & Ha & Hc).
  eapply (stack_dtor_shared _ l a).
  - ssimpl. exact Hl.
  - ssimpl. exact Hh.
  - rewrite Hh in Hl. destruct l as [|b l]; [destruct Hl; discriminate|].
    destruct Hl as [[= <-] _]. left.
  - rewrite Hll. cbn [length]. lia.
Qed.

(** **** The sweep *)

Lemma stack_glist_insert m a n : forall l p,
  a ∉ l -> glist m p l -> glist (<[a := n]> m) p l.
Proof.
  induction l as [|b l IH]; intros p Hnotin Hl; simpl in *; [exact Hl|].
  destruct Hl as (-> & nb & Hb & Hl). split; [reflexivity|].
  exists nb. split.
  - rewrite lookup_insert_ne; [exact Hb|]. intros ->. apply Hnotin. left.
  - apply IH; [|exact Hl]. intros Hin. apply Hnotin. right. exact Hin.
Qed.

Lemma stack_kept_protected table l :
  Forall (fun a => protected table (Some a) = true) (rev (kept table l)).
Proof.
  apply Forall_forall. intros a Ha.
  apply list_elem_of_In, in_rev, list_elem_of_In in Ha.
  unfold kept in Ha. apply list_elem_of_filter in Ha. tauto.
Qed.

Lemma stack_collect_loop_spec arr : forall l fuel s acc g,
  glist (mem s) g l -> glist (mem s) (garbage (self s)) acc ->
  NoDup (l ++ acc) ->
  hazard_arr (self s) = Some arr -> hazard_max_size (self s) = length arr ->
  length l <= fuel ->
  wp (collect_loop fuel g)
     (fun _ s' =>
        hazard_arr (self s') = Some arr /\
        hazard_max_size (self s') = hazard_max_size (self s) /\
        head (self s') = head (self s) /\
        glist (mem s') (garbage (self s')) (rev (kept arr l) ++ acc) /\
        (forall b, b ∉ l -> mem s' !! b = mem s !! b) /\
        (forall b, b ∈ l -> protected arr (Some b) = false -> mem s' !! b = None))
     s.
Proof.
  induction l as [|a l IH]; intros fuel s acc g Hl Hacc Hnd Harr Hsz Hfuel.
  - simpl in Hl. subst g. destruct fuel; simpl; apply wp_ret;
      (repeat split; auto; intros b Hb; inversion Hb).
  - destruct Hl as (-> & n & Ha & Hl).
    destruct fuel as [|fuel]; [simpl in Hfuel; lia|].
    simpl in Hnd. apply NoDup_cons in Hnd as [Hnotin Hnd].
    apply not_elem_of_app in Hnotin as [Hal Haacc].
    destruct s as [m [hd g ha hm] hist]. ssimpl. subst ha hm.
    cbn [collect_loop].
    apply wp_bind. eapply stack_wp_deref; [ssimpl; exact Ha|].
    apply wp_bind. eapply stack_wp_store_next; [ssimpl; exact Ha|]. snorm.
    apply wp_bind. eapply wp_hazard_existed; [ssimpl; reflexivity|ssimpl; reflexivity|].
    unfold kept.
    destruct (protected arr (Some a)) eqn:Hp.
    + apply wp_bind. eapply wp_claim_later; [ssimpl; apply lookup_insert_eq|]. snorm.
      rewrite insert_insert_eq.
      eapply wp_mono.
      { apply (IH fuel _ (a :: acc)); ssimpl.
        - apply stack_glist_insert; auto.
        - split; [reflexivity|]. eexists. split; [apply lookup_insert_eq|].
          ssimpl. apply stack_glist_insert; auto.
        - apply NoDup_app. apply NoDup_app in Hnd as (Hn1 & Hn2 & Hn3).
          split; [exact Hn1|]. split.
          + intros x Hx [->|Hx']%elem_of_cons; [contradiction|]. eapply Hn2; eauto.
          + apply NoDup_cons; auto.
        - reflexivity.
        - reflexivity.
        - simpl in Hfuel. lia. }
      intros u s' (Hh & Hm & Hhd & Hgl & Hout & Hin). ssimpl.
      rewrite filter_cons_True by exact Hp. simpl rev.
      rewrite <- app_assoc. simpl.
      split; [exact Hh|]. split; [exact Hm|]. split; [exact Hhd|].
      split; [exact Hgl|]. split.
      * intros b Hb. apply not_elem_of_cons in Hb as [Hba Hbl].
        rewrite Hout by exact Hbl. apply lookup_insert_ne. congruence.
      * intros b [->|Hb]%elem_of_cons Hpb; [congruence|]. apply Hin; auto.
    + apply wp_bind. eapply stack_wp_delete_node; [ssimpl; apply lookup_insert_eq|reflexivity|].
      snorm. rewrite delete_insert_eq.
      eapply wp_mono.
      { apply (IH fuel _ acc); ssimpl.
        - apply stack_glist_delete; auto.
        - apply stack_glist_delete; auto.
        - exact Hnd.
        - reflexivity.
        - reflexivity.
        - simpl in Hfuel. lia. }
      intros u s' (Hh & Hm & Hhd & Hgl & Hout & Hin). ssimpl.
      rewrite filter_cons_False by (rewrite Hp; discriminate).
      split; [exact Hh|]. split; [exact Hm|]. split; [exact Hhd|].
      split; [exact Hgl|]. split.
      * intros b Hb. apply not_elem_of_cons in Hb as [Hba Hbl].
        rewrite Hout by exact Hbl. apply lookup_delete_ne. congruence.
      * intros b [->|Hb]%elem_of_cons Hpb; [|apply Hin; auto].
        rewrite Hout by exact Hal. apply lookup_delete_eq.
Qed.

Lemma stack_collect_garbage_spec fuel s arr gs :
  glist (mem s) (garbage (self s)) gs ->
  hazard_arr (self s) = Some arr -> hazard_max_size (self s) = length arr ->
  length gs <= fuel ->
  wp (collect_garbage fuel)
     (fun _ s' =>
        hazard_arr (self s') = Some arr /\
        hazard_max_size (self s') = hazard_max_size (self s) /\
        head (self s') = head (self s) /\
        glist (mem s') (garbage (self s')) (rev (kept arr gs)) /\
        (forall b, b ∉ gs -> mem s' !! b = mem s !! b) /\
        (forall b, b ∈ gs -> protected arr (Some b) = false -> mem s' !! b = None))
     s.
Proof.
  intros Hgl Harr Hsz Hfuel. unfold collect_garbage.
  apply wp_bind, wp_gets. apply wp_bind, wp_modify.
  eapply wp_mono.
  { apply (stack_collect_loop_spec arr gs fuel _ []); snorm;
      [ exact Hgl | reflexivity
      | rewrite app_nil_r; eapply stack_glist_NoDup; exact Hgl
      | exact Harr | exact Hsz | exact Hfuel ]. }
  intros u s' (Hh & Hm & Hhd & Hgl' & Hout & Hin). snorm.
  rewrite app_nil_r in Hgl'. auto 10.
Qed.

(** [pop] on a stack that is [ready]: it returns the payload of the top
    node, hands its hazard slot back, and leaves on the garbage list
    exactly the nodes, of the old list and the node taken, that a hazard
    slot protects. *)
Lemma stack_pop_swept fuel tid s arr i a n gs :
  ready s arr i a n gs -> length gs <= fuel ->
  wp (pop (S fuel) tid)
     (fun r s' =>
        r = data n /\ head (self s') = next n /\
        hazard_arr (self s') = Some (<[i := HazardPtr None None]> arr) /\
        glist (mem s') (garbage (self s'))
          (rev (kept (<[i := HazardPtr None None]> arr) (a :: gs))) /\
        (forall b, b ∉ a :: gs -> mem s' !! b = mem s !! b) /\
        (forall b, b ∈ a :: gs ->
           protected (<[i := HazardPtr None None]> arr) (Some b) = false ->
           mem s' !! b = None))
     s.
Proof.
  intros (Harr & Hsz & Hfree & Hh & Ha & Hgl & Hnotin) Hfuel.
  pose proof Hfree as [[p Hi] _].
  assert (Hlen : i < length arr) by (eapply lookup_lt_Some, Hi).
  destruct s as [m [hd g ha hm] hist]. ssimpl. subst hd ha hm.
  set (table := <[i := HazardPtr None None]> arr).
  unfold pop. apply wp_bind.
  eapply wp_acquire; [ssimpl; reflexivity|exact Hfree|exact Hi|ssimpl; exact Hlen|].
  snorm. apply wp_bind. simpl pop_swing. apply wp_bind.
  eapply wp_set_hazard_pointer; [ssimpl; reflexivity|apply list_lookup_insert_eq; exact Hlen|].
  snorm. apply wp_bind. eapply stack_wp_deref; [ssimpl; exact Ha|].
  apply wp_bind, wp_gets. ssimpl. rewrite decide_True by reflexivity.
  apply wp_bind, wp_modify. apply wp_ret. snorm.
  apply wp_bind.
  eapply wp_clear_hazard_pointer; [ssimpl; reflexivity|rewrite !length_insert; exact Hlen|].
  snorm. rewrite !list_insert_insert_eq. fold table.
  apply wp_bind. eapply stack_wp_deref; [ssimpl; exact Ha|]. ssimpl.
  apply wp_bind. unfold update. apply wp_modify. snorm.
  apply wp_bind. eapply stack_wp_store_next; [ssimpl; apply lookup_insert_eq|]. snorm.
  rewrite insert_insert_eq.
  apply wp_bind. eapply wp_hazard_existed;
    [ssimpl; reflexivity|ssimpl; unfold table; rewrite length_insert; reflexivity|].
  destruct (protected table (Some a)) eqn:Hp.
  - apply wp_bind. eapply wp_claim_later; [ssimpl; apply lookup_insert_eq|]. snorm.
    rewrite insert_insert_eq.
    apply wp_bind. eapply wp_mono.
    { apply (stack_collect_garbage_spec (S fuel) _ table (a :: gs)); ssimpl.
      - split; [reflexivity|]. eexists. split; [apply lookup_insert_eq|].
        ssimpl. apply stack_glist_insert; auto.
      - reflexivity.
      - unfold table. rewrite length_insert. reflexivity.
      - simpl. lia. }
    intros u s' (Hh' & Hm' & Hhd' & Hgl' & Hout & Hin). ssimpl.
    apply wp_ret. split; [reflexivity|]. split; [exact Hhd'|]. split; [exact Hh'|].
    split; [exact Hgl'|]. split; [|exact Hin].
    intros b Hb. rewrite Hout by exact Hb.
    apply not_elem_of_cons in Hb as [Hba _]. apply lookup_insert_ne. congruence.
  - apply wp_bind. eapply stack_wp_delete_node; [ssimpl; apply lookup_insert_eq|reflexivity|].
    snorm. rewrite delete_insert_eq.
    apply wp_bind. eapply wp_mono.
    { apply (stack_collect_garbage_spec (S fuel) _ table gs); ssimpl.
      - apply stack_glist_delete; auto.
      - reflexivity.
      - unfold table. rewrite length_insert. reflexivity.
      - lia. }
    intros u s' (Hh' & Hm' & Hhd' & Hgl' & Hout & Hin). ssimpl.
    apply wp_ret. split; [reflexivity|]. split; [exact Hhd'|]. split; [exact Hh'|].
    unfold kept. rewrite filter_cons_False by (rewrite Hp; discriminate).
    split; [exact Hgl'|]. split.
    + intros b Hb. apply not_elem_of_cons in Hb as [Hba Hbl].
      rewrite Hout by exact Hbl. apply lookup_delete_ne. congruence.
    + intros b [->|Hb]%elem_of_cons Hpb; [|apply Hin; auto].
      rewrite Hout by exact Hnotin. apply lookup_delete_eq.
Qed.

(** **** The stretches of a thread make up [pop] *)

Ltac sstretch :=
  cbn [StackThreads.alone StackThreads.thread_step StackThreads.id
       StackThreads.at_pc StackThreads.popped].

Ltac mnorm :=
  repeat first [rewrite bind_assoc | rewrite bind_gets | rewrite bind_ret
               | rewrite bind_modify].

(** A thread running alone on a stack with a slot no thread owns: its
    stretches are [pop] (four of them, three when the stack is empty). *)
Lemma stack_thread_alone fuel tid s arr i p os :
  hazard_arr (self s) = Some arr ->
  first_unowned arr i -> arr !! i = Some (HazardPtr None p) ->
  i < hazard_max_size (self s) ->
  StackThreads.alone (S fuel) (match head (self s) with Some _ => 4 | None => 3 end)
    (StackThreads.Thread tid StackThreads.Idle os) s
  = bind (pop (S fuel) tid)
      (fun r => ret (StackThreads.Thread tid StackThreads.Idle (os ++ [r]))) s.
Proof.
  intros Harr Hfree Hi Hsz.
  assert (Hlen : i < length arr) by (eapply lookup_lt_Some, Hi).
  set (s1 := set_hazard_arr <[i := HazardPtr tid p]> s).
  assert (Hacq : acquire (S fuel) tid s = Ret i s1).
  { apply stack_wp_run. eapply wp_acquire; eauto. }
  set (s2 := set_hazard_arr <[i := HazardPtr tid (head (self s))]> s1).
  assert (Hset : set_hazard_pointer i s1 = Ret (head (self s)) s2).
  { apply stack_wp_run. eapply wp_set_hazard_pointer.
    - unfold s1. snorm. rewrite Harr. reflexivity.
    - apply list_lookup_insert_eq. exact Hlen.
    - split; reflexivity. }
  assert (Hslot : slot_ref i s1 = Ret (HazardPtr tid p) s1).
  { unfold slot_ref, s1. snorm. rewrite Harr. ssimpl.
    rewrite list_lookup_insert_eq by exact Hlen. reflexivity. }
  assert (Hh2 : head (self s2) = head (self s)) by reflexivity.
  assert (Hh1 : head (self s1) = head (self s)) by reflexivity.
  unfold pop.
  destruct (head (self s)) as [a|] eqn:Hhead; sstretch.
  - rewrite !bind_assoc. rewrite !(bind_Ret _ _ _ _ _ Hacq).
    mnorm. rewrite Hh1. sstretch. mnorm.
    rewrite (bind_Ret _ _ _ _ _ Hslot). unfold slot_update. mnorm. fold s2. sstretch.
    cbn [pop_swing]. mnorm. rewrite (bind_Ret _ _ _ _ _ Hset). mnorm.
    change (set_hazard_arr _ s1) with s2.
    apply bind_ext. intros [a' n] s3 Hd.
    assert (s3 = s2) as ->.
    { unfold deref in Hd. destruct (mem s2 !! a); [|discriminate]. congruence. }
    mnorm. rewrite Hh2, !decide_True by reflexivity. mnorm.
    apply bind_ext. intros u s4 _. mnorm.
    apply bind_ext. intros [a2 n2] s5 _. cbv beta iota. unfold update. mnorm.
    apply bind_ext. intros u' s6 _. mnorm.
    apply bind_ext. intros hz s7 _. mnorm. sstretch. mnorm.
    apply bind_ext. intros u'' s8 _. mnorm.
    apply bind_ext. intros u3 s9 _. reflexivity.
  - rewrite !bind_assoc. rewrite !(bind_Ret _ _ _ _ _ Hacq).
    mnorm. rewrite Hh1. sstretch. mnorm.
    rewrite (bind_Ret _ _ _ _ _ Hslot). unfold slot_update. mnorm. sstretch.
    cbn [pop_swing]. mnorm. rewrite (bind_Ret _ _ _ _ _ Hset). mnorm.
    change (set_hazard_arr _ s1) with s2.
    apply bind_ext. intros u s3 _. reflexivity.
Qed.
End StackFacts.
End StackFacts.

(** * The claims *)

Import Scenario.

Lemma alloc0_fresh {V} (m : gmap addr V) : m !! alloc0 m = None.
Proof. apply not_elem_of_dom. apply is_fresh. Qed.

(** [protected_queue] is where a freshly constructed queue is after a
    [push] of 1 and the three stretches of another thread's [pop] up to the
    return of [load_head_set_hazard]. *)
Lemma protected_queue_reached :
  QueueThreads.run_schedule alloc0 5 ([0; 0] ++ [1; 1; 1])
    (Queue.ctor alloc0 3 1,
     [ QueueThreads.Thread (QueueThreads.Producer [1%Z]) QueueThreads.Idle [] [];
       QueueThreads.Thread (QueueThreads.Consumer false) QueueThreads.Idle [] [] ])
  = Ret tt
      (protected_queue,
       [ QueueThreads.Thread (QueueThreads.Producer []) QueueThreads.Idle [1%Z] [];
         QueueThreads.Thread (QueueThreads.Consumer false)
           (QueueThreads.PopProtected 0 (Some 1%positive)) [] [] ]).
Proof. vm_compute. reflexivity. Qed.

(** [small_stack] is a freshly constructed stack after [push(1)] and
    [push(2)]. *)
Lemma small_stack_reached :
  bind (Stack.push alloc0 1 1%Z) (fun _ => Stack.push alloc0 1 2%Z)
    (Stack.State ∅ (Stack.ctor 2) [])
  = Ret tt small_stack.
Proof. vm_compute. reflexivity. Qed.

(** ** Queue_TS, one thread *)

Lemma fifo_pushes {T} (vals : list T) : forall rest content,
  QueueSpec.fifo (map QueueSpec.Push vals ++ rest) content
  = QueueSpec.fifo rest (content ++ vals).
Proof.
  induction vals as [|v vals IH]; intros rest content; simpl.
  - rewrite app_nil_r. reflexivity.
  - rewrite IH, <- app_assoc. reflexivity.
Qed.

Lemma fifo_pops {T} (content : list T) :
  QueueSpec.fifo (replicate (length content) QueueSpec.Pop) content = map Some content.
Proof. induction content as [|v content IH]; simpl; [reflexivity|]. rewrite IH. reflexivity. Qed.

(** C3.  On a freshly constructed queue (with at least one hazard slot) used
    by one thread: pushing [a], [b], [c] and popping four times returns [a],
    [b], [c] and then the empty result -- for the values 1, 2, 3 of the
    scenario in particular; pushing any values and popping as many times
    returns them in the order pushed; and whatever the order of the calls,
    each [pop] returns what a first-in first-out list would. *)
Theorem queue_fifo {T : Type} (alloc : gmap addr (Queue.node (T:=T)) -> addr)
    (hs : nat) (gm : N) (a b c : T) (vals : list T)
    (calls : list (QueueSpec.call (T:=T))) (fuel : nat) :
  (forall m, m !! alloc m = None) ->
  0 < hs ->
  let fresh := Queue.ctor alloc hs gm in
  (exists q', QueueSpec.run alloc (S fuel)
                [QueueSpec.Push a; QueueSpec.Push b; QueueSpec.Push c;
                 QueueSpec.Pop; QueueSpec.Pop; QueueSpec.Pop; QueueSpec.Pop] fresh
              = Ret [Some a; Some b; Some c; None] q') /\
  (exists q', QueueSpec.run alloc (S fuel)
                (map QueueSpec.Push vals ++ replicate (length vals) QueueSpec.Pop) fresh
              = Ret (map Some vals) q') /\
  (exists q', QueueSpec.run alloc (S fuel) calls fresh
              = Ret (QueueSpec.fifo calls []) q').
Proof.
  intros Hfresh Hhs fresh.
  assert (Hrun : forall calls', exists q',
    QueueSpec.run alloc (S fuel) calls' fresh = Ret (QueueSpec.fifo calls' []) q').
  { intros calls'.
    pose proof (QueueFacts.run_fifo alloc Hfresh fuel calls' fresh []
                  (QueueFacts.ctor_holds alloc hs gm Hhs)) as H.
    apply wp_Ret in H as (rs & q' & Hr & ->). exists q'. exact Hr. }
  split; [|split].
  - apply (Hrun [QueueSpec.Push a; QueueSpec.Push b; QueueSpec.Push c;
                 QueueSpec.Pop; QueueSpec.Pop; QueueSpec.Pop; QueueSpec.Pop]).
  - destruct (Hrun (map QueueSpec.Push vals ++ replicate (length vals) QueueSpec.Pop))
      as [q' Hq'].
    exists q'. rewrite Hq', fifo_pushes. simpl. rewrite fifo_pops. reflexivity.
  - apply Hrun.
Qed.

Lemma queue_fifo_witness :
  0 < 16 /\
  let fresh := Queue.ctor (T:=Z) alloc0 16 1024 in
  (exists q', QueueSpec.run alloc0 6
                [QueueSpec.Push 1%Z; QueueSpec.Push 2%Z; QueueSpec.Push 3%Z;
                 QueueSpec.Pop; QueueSpec.Pop; QueueSpec.Pop; QueueSpec.Pop] fresh
              = Ret [Some 1%Z; Some 2%Z; Some 3%Z; None] q') /\
  (exists q', QueueSpec.run alloc0 6
                (map QueueSpec.Push [4%Z; 5%Z] ++ replicate 2 QueueSpec.Pop) fresh
              = Ret [Some 4%Z; Some 5%Z] q') /\
  (exists q', QueueSpec.run alloc0 6 [QueueSpec.Pop; QueueSpec.Push 7%Z; QueueSpec.Pop] fresh
              = Ret [None; Some 7%Z] q').
Proof.
  split; [lia|].
  apply (queue_fifo alloc0 16 1024 1%Z 2%Z 3%Z [4%Z; 5%Z]
           [QueueSpec.Pop; QueueSpec.Push 7%Z; QueueSpec.Pop] 5).
  - intros m. apply alloc0_fresh.
  - lia.
Defined.

(** ** Stack_TS, one thread *)

Lemma lifo_pushes (vals : list Stack.T) : forall rest content,
  StackSpec.lifo (map StackSpec.Push vals ++ rest) content
  = StackSpec.lifo rest (rev vals ++ content).
Proof.
  induction vals as [|v vals IH]; intros rest content; simpl.
  - reflexivity.
  - rewrite IH, <- app_assoc. reflexivity.
Qed.

Lemma lifo_pops (content : list Stack.T) :
  StackSpec.lifo (replicate (length content) StackSpec.Pop) content = map Some content.
Proof.
  induction content as [|v content IH]; [reflexivity|].
  cbn [length replicate StackSpec.lifo map]. f_equal. exact IH.
Qed.

(** C4.  On a freshly constructed stack of [long] (with at least one hazard
    slot) used by one thread: pushing 1, 2, 3 and popping four times returns
    3, 2, 1 and then the empty result; pushing any values and popping as
    many times returns them in the reverse of the order pushed; and whatever
    the order of the calls, each [pop] returns what a last-in first-out list
    would. *)
Theorem stack_lifo (alloc : gmap addr Stack.node -> addr) (max_size : nat)
    (tid : Stack.thread_id_t) (vals : list Stack.T) (calls : list StackSpec.call)
    (fuel : nat) :
  (forall m, m !! alloc m = None) ->
  0 < max_size ->
  let fresh := Stack.State ∅ (Stack.ctor max_size) [] in
  (exists s', StackSpec.run alloc (S fuel) tid
                [StackSpec.Push 1%Z; StackSpec.Push 2%Z; StackSpec.Push 3%Z;
                 StackSpec.Pop; StackSpec.Pop; StackSpec.Pop; StackSpec.Pop] fresh
              = Ret [Some 3%Z; Some 2%Z; Some 1%Z; None] s') /\
  (exists s', StackSpec.run alloc (S fuel) tid
                (map StackSpec.Push vals ++ replicate (length vals) StackSpec.Pop) fresh
              = Ret (map Some (rev vals)) s') /\
  (exists s', StackSpec.run alloc (S fuel) tid calls fresh
              = Ret (StackSpec.lifo calls []) s').
Proof.
  intros Hfresh Hsz fresh.
  assert (Hrun : forall calls', exists s',
    StackSpec.run alloc (S fuel) tid calls' fresh = Ret (StackSpec.lifo calls' []) s').
  { intros calls'.
    pose proof (StackFacts.run_lifo alloc Hfresh fuel tid calls' fresh []
                  (StackFacts.stack_ctor_holds max_size Hsz)) as H.
    apply wp_Ret in H as (rs & s' & Hr & ->). exists s'. exact Hr. }
  split; [|split].
  - apply (Hrun [StackSpec.Push 1%Z; StackSpec.Push 2%Z; StackSpec.Push 3%Z;
                 StackSpec.Pop; StackSpec.Pop; StackSpec.Pop; StackSpec.Pop]).
  - destruct (Hrun (map StackSpec.Push vals ++ replicate (length vals) StackSpec.Pop))
      as [s' Hs'].
    exists s'. rewrite Hs', lifo_pushes, app_nil_r.
    rewrite <- (length_rev vals). rewrite lifo_pops. reflexivity.
  - apply Hrun.
Qed.

Lemma stack_lifo_witness :
  0 < 32 /\
  let fresh := Stack.State ∅ (Stack.ctor 32) [] in
  (exists s', StackSpec.run alloc0 6 (Some 1)
                [StackSpec.Push 1%Z; StackSpec.Push 2%Z; StackSpec.Push 3%Z;
                 StackSpec.Pop; StackSpec.Pop; StackSpec.Pop; StackSpec.Pop] fresh
              = Ret [Some 3%Z; Some 2%Z; Some 1%Z; None] s') /\
  (exists s', StackSpec.run alloc0 6 (Some 1)
                (map StackSpec.Push [4%Z; 5%Z] ++ replicate 2 StackSpec.Pop) fresh
              = Ret [Some 5%Z; Some 4%Z] s') /\
  (exists s', StackSpec.run alloc0 6 (Some 1)
                [StackSpec.Pop; StackSpec.Push 7%Z; StackSpec.Pop] fresh
              = Ret [None; Some 7%Z] s').
Proof.
  split; [lia|].
  apply (stack_lifo alloc0 32 (Some 1) [4%Z; 5%Z]
           [StackSpec.Pop; StackSpec.Push 7%Z; StackSpec.Pop] 5).
  - intros m. apply alloc0_fresh.
  - lia.
Defined.

(** ** Popping an empty container *)

(** On a stack constructed with no hazard slot [get_hazard_pointer] has
    nothing to give, and [while(!hp)] is never left with a slot. *)
Lemma acquire_no_slot fuel tid m hist :
  is_Ret (Stack.acquire fuel tid (Stack.State m (Stack.ctor 0) hist)) = false.
Proof. destruct fuel; reflexivity. Qed.

(** C5 as stated: a stack constructed with no hazard slot has a null head,
    and [pop] on it never returns: [while(!hp)] has no way out. *)
Lemma stack_pop_without_slot_spins :
  Stack.head (Stack.ctor 0) = None /\
  ~ exists fuel r s',
      Stack.pop fuel (Some 1) (Stack.State ∅ (Stack.ctor 0) []) = Ret r s'.
Proof.
  split; [reflexivity|]. intros (fuel & r & s' & H).
  pose proof (acquire_no_slot fuel (Some 1) ∅ []) as E.
  unfold Stack.pop, bind in H.
  destruct (Stack.acquire fuel (Some 1) (Stack.State ∅ (Stack.ctor 0) []));
    discriminate.
Qed.

(** A queue constructed with no hazard slot: [pop] indexes past the end of
    the empty table. *)
Lemma queue_pop_without_slot_faults fuel :
  Queue.pop (T:=Z) (S fuel) (Queue.ctor alloc0 0 1024) = Fault.
Proof. reflexivity. Qed.

(** C5, amended.  [pop] on a queue freshly constructed with at least one
    hazard slot returns the empty result in the first round of its loops
    and leaves the queue as it was, the claim flag of the dummy node clear
    again; [pop] on a stack whose head is null and whose hazard table has a
    slot no thread owns (the first such slot holding a null pointer) returns
    the empty result in the first round of its loops and leaves the stack as
    it was. *)
Theorem empty_pop_with_free_slot {T : Type}
    (alloc : gmap addr (Queue.node (T:=T)) -> addr) (hs : nat) (gm : N)
    (s : Stack.state) (arr : list Stack.hazard_ptr) (i : nat)
    (tid : Stack.thread_id_t) (fuel : nat) :
  0 < hs ->
  Stack.head (Stack.self s) = None ->
  Stack.hazard_arr (Stack.self s) = Some arr ->
  i < Stack.hazard_max_size (Stack.self s) ->
  StackSpec.first_unowned arr i ->
  arr !! i = Some (Stack.HazardPtr None None) ->
  Queue.head (Queue.ctor alloc hs gm) = Queue.tail (Queue.ctor alloc hs gm) /\
  Queue.pop (S fuel) (Queue.ctor alloc hs gm) = Ret None (Queue.ctor alloc hs gm) /\
  Stack.pop (S fuel) tid s = Ret None s.
Proof.
  intros Hhs Hhead Harr Hi Hfree Hslot. split; [reflexivity|]. split.
  - apply QueueFacts.pop_empty. apply QueueFacts.ctor_holds. exact Hhs.
  - eapply StackFacts.stack_pop_empty; eauto.
Qed.

Lemma empty_pop_with_free_slot_witness :
  Queue.pop (T:=Z) 1 (Queue.ctor alloc0 16 1024) = Ret None (Queue.ctor alloc0 16 1024) /\
  Stack.pop 1 (Some 7) busy_stack = Ret None busy_stack.
Proof.
  refine (let H := empty_pop_with_free_slot (T:=Z) alloc0 16 1024 busy_stack
                     [Stack.HazardPtr (Some 5) None; Stack.HazardPtr None None] 1
                     (Some 7) 0 _ _ _ _ _ _ in conj (proj1 (proj2 H)) (proj2 (proj2 H))).
  - lia.
  - reflexivity.
  - reflexivity.
  - simpl. lia.
  - split.
    + exists None. reflexivity.
    + intros j Hj. assert (j = 0) as -> by lia. eexists. split; [reflexivity|discriminate].
  - reflexivity.
Defined.

(** ** The element type *)

(** C6.  The payload that [node(T arg)] builds is a [shared_ptr<long>]: at
    [long] it holds the argument, at any other element type the member
    initialiser is ill-formed, for [int] and the value 7 in particular. *)
Theorem node_data_only_long :
  (forall v, ElementType.node_data ElementType.c_long v = Some v) /\
  ElementType.node_data ElementType.c_int 7%Z = None /\
  (forall t v, t <> ElementType.c_long -> ElementType.node_data t v = None).
Proof.
  split; [reflexivity|]. split; [reflexivity|].
  intros t v Ht. destruct t; try reflexivity. congruence.
Qed.

(** ** Moving a stack *)

(** C9.  Move assignment into a stack whose hazard table has a size above
    zero throws, and neither object has changed when it does. *)
Theorem move_assign_initialized_throws (this other : Stack.Stack_TS) :
  0 < Stack.hazard_max_size this ->
  Stack.move_assign (this, other)
  = Throw "Can not assign to an intialized stack" (this, other).
Proof.
  intros H. unfold Stack.move_assign. rewrite decide_True by exact H. reflexivity.
Qed.

Lemma move_assign_initialized_throws_witness :
  0 < Stack.hazard_max_size (Stack.ctor 32) /\
  Stack.move_assign (Stack.ctor 32, source_stack)
  = Throw "Can not assign to an intialized stack" (Stack.ctor 32, source_stack).
Proof.
  split; [simpl; lia|].
  apply (move_assign_initialized_throws (Stack.ctor 32) source_stack). simpl. lia.
Defined.

(** C8.  Move assignment into a stack whose hazard table has size zero
    gets past the guard, runs the stores of the body and then reaches the
    end of a function that is declared to return [Stack_TS&] and has no
    [return] statement: the call has no defined outcome, whatever the two
    stacks hold, and no state after it in which the destination's garbage
    pointer could be looked at. *)
Theorem move_assign_flows_off_end (this other : Stack.Stack_TS) :
  Stack.hazard_max_size this = 0 ->
  Stack.move_assign (this, other) = Fault.
Proof.
  intros H. unfold Stack.move_assign. rewrite decide_False by lia. reflexivity.
Qed.

Lemma move_assign_flows_off_end_witness :
  Stack.hazard_max_size (Stack.ctor 0) = 0 /\
  Stack.move_assign (Stack.ctor 0, source_stack) = Fault.
Proof.
  split; [reflexivity|].
  apply (move_assign_flows_off_end (Stack.ctor 0) source_stack). reflexivity.
Defined.

Lemma reach_None m b : ~ StackSpec.reach m None b.
Proof. intros H. inversion H. Qed.

(** C10.  Move construction stores the source's head pointer into both the
    head and the garbage pointer of the new stack, so the same nodes are on
    both lists; both pointers of the source are nulled, and what the
    source's garbage pointer was makes no difference to the outcome: the
    nodes on a list of either stack afterwards are those of the source's
    live list, so a node that was on the source's garbage list (and not also
    on its live list) is on no list any more. *)
Theorem move_ctor_head_into_both (m : gmap addr Stack.node) (other : Stack.Stack_TS) :
  exists new other',
    Stack.move_ctor other = (new, other') /\
    Stack.head new = Stack.head other /\
    Stack.garbage new = Stack.head other /\
    Stack.head other' = None /\
    Stack.garbage other' = None /\
    (forall g, Stack.move_ctor (Stack.with_garbage g other) = (new, other')) /\
    (forall b, StackSpec.reach m (Stack.head new) b <-> StackSpec.reach m (Stack.garbage new) b) /\
    (forall b, StackSpec.reach m (Stack.head new) b \/
               StackSpec.reach m (Stack.garbage new) b \/
               StackSpec.reach m (Stack.head other') b \/
               StackSpec.reach m (Stack.garbage other') b
               <-> StackSpec.reach m (Stack.head other) b) /\
    (forall b, StackSpec.reach m (Stack.garbage other) b ->
               ~ StackSpec.reach m (Stack.head other) b ->
               ~ StackSpec.reach m (Stack.head new) b /\
               ~ StackSpec.reach m (Stack.garbage new) b /\
               ~ StackSpec.reach m (Stack.head other') b /\
               ~ StackSpec.reach m (Stack.garbage other') b).
Proof.
  eexists _, _. split; [reflexivity|]. simpl.
  split; [reflexivity|]. split; [reflexivity|]. split; [reflexivity|].
  split; [reflexivity|]. split; [reflexivity|]. split; [reflexivity|].
  split.
  - intros b. split; [|auto].
    intros [H|[H|[H|H]]]; auto; exfalso; eapply reach_None, H.
  - intros b _ Hb. repeat split; auto using reach_None.
Qed.

Lemma move_ctor_head_into_both_witness :
  exists new other',
    Stack.move_ctor source_stack = (new, other') /\
    Stack.head new = Some 1%positive /\
    Stack.garbage new = Some 1%positive /\
    Stack.head other' = None /\
    Stack.garbage other' = None /\
    StackSpec.reach source_mem (Stack.garbage source_stack) 2%positive /\
    ~ StackSpec.reach source_mem (Stack.head new) 2%positive /\
    ~ StackSpec.reach source_mem (Stack.garbage new) 2%positive.
Proof.
  destruct (move_ctor_head_into_both source_mem source_stack)
    as (new & other' & Hmv & Hh & Hg & Hoh & Hog & _ & _ & _ & Hlost).
  exists new, other'.
  assert (Hon : StackSpec.reach source_mem (Stack.garbage source_stack) 2%positive)
    by constructor.
  assert (Hoff : ~ StackSpec.reach source_mem (Stack.head source_stack) 2%positive).
  { intros H. inversion H as [|a n b Ha Hn]; subst.
    vm_compute in Ha. injection Ha as <-. inversion Hn. }
  destruct (Hlost 2%positive Hon Hoff) as (H1 & H2 & _).
  repeat split; auto.
Defined.

(** ** Reclamation *)

(** The queue: after [late_publish_schedule], consumer 1 has returned from
    the [pop] that gave it 1 and that freed node 1; at the moment of that
    [delete], slot 0 of the hazard table held the address of node 1. *)
Lemma freed_while_published :
  match QueueThreads.run_schedule alloc0 5 late_publish_schedule late_publish_start with
  | Ret _ (q, threads) =>
      QueueThreads.popped <$> threads !! 1 = Some [1%Z] /\
      Queue.mem q !! 1%positive = None /\
      exists table,
        Queue.history q = [Queue.Freed 1%positive table] /\
        Queue.pointer <$> table !! 0 = Some (Some 1%positive) /\
        ~ QueueSpec.disposal_ok (Queue.Freed 1%positive table)
  | _ => False
  end.
Proof.
  vm_compute. split; [reflexivity|]. split; [reflexivity|].
  eexists. split; [reflexivity|]. split; [reflexivity|]. discriminate.
Qed.

(** The queue, further: the consumer that published node 1 too late goes
    on alone.  Its test [old_head != head.load()] sends it round
    [load_head_set_hazard] again, with the new head; it never looks into
    node 1, and its [pop] returns the empty result. *)
Lemma queue_late_publisher_reloads :
  match QueueThreads.run_schedule alloc0 5 (late_publish_schedule ++ [2; 2; 2; 2])
          late_publish_start with
  | Ret _ (q, threads) =>
      threads !! 2 = Some (QueueThreads.Thread (QueueThreads.Consumer true)
                             QueueThreads.Idle [] []) /\
      Queue.mem q !! 1%positive = None /\
      Queue.head q = Some 2%positive /\
      Queue.pointer <$> Queue.hazard_holder q !! 0 = Some None
  | _ => False
  end.
Proof. vm_compute. repeat split. Qed.

(** C2.  Two threads call [pop] on [small_stack], which holds 2 on top of
    1, in the order [stale_read_schedule].  Thread 1 has returned with 2
    and has freed node 2; at the moment of that [delete], slot 0 of the
    hazard table, owned by thread 0, held the address of node 2: thread 0
    stored it there after the scan of [hazard_existed] and before the
    [delete].  Thread 0 stands before the test of its loop, with
    [old_head] at node 2, and its next stretch evaluates [old_head->next]
    in the freed node. *)
Theorem stack_pop_reads_freed_node :
  match StackThreads.run_schedule 5 stale_read_schedule stale_read_start with
  | Ret _ (s, threads) =>
      threads !! 1 = Some (StackThreads.Thread (Some 2) StackThreads.Idle [Some 2%Z]) /\
      threads !! 0 = Some (StackThreads.Thread (Some 1)
                             (StackThreads.PopPublished 0 (Some 2%positive)) []) /\
      Stack.mem s !! 2%positive = None /\
      exists table,
        Stack.history s = [Stack.Freed 2%positive table] /\
        table !! 0 = Some (Stack.HazardPtr (Some 1) (Some 2%positive)) /\
        ~ StackSpec.disposal_ok (Stack.Freed 2%positive table)
  | _ => False
  end /\
  StackThreads.run_schedule 5 (stale_read_schedule ++ [0]) stale_read_start = Fault.
Proof.
  split; [|vm_compute; reflexivity].
  vm_compute. split; [reflexivity|]. split; [reflexivity|]. split; [reflexivity|].
  eexists. split; [reflexivity|]. split; [reflexivity|]. discriminate.
Qed.

(** The four delete paths -- [pop] and [collect_garbage] of the
    queue, [pop] and [collect_garbage] of the stack -- run with no other
    thread running meanwhile, on a container whose hazard table has as many
    slots as its size member says.  When the call returns, every node it
    freed was, at the moment of the [delete], in no slot of the hazard
    table, and every node it put on the garbage list was in one
    ([disposed_ok] reads the ghost history, which records each [delete] and
    each deferral together with the hazard table of that moment). *)
Theorem disposals_in_order {T : Type} (q : Queue.Queue_TS (T:=T)) (s : Stack.state)
    (tid : Stack.thread_id_t) (fuel : nat) :
  Queue.hazard_holder_size q = length (Queue.hazard_holder q) ->
  length <$> Stack.hazard_arr (Stack.self s) = Some (Stack.hazard_max_size (Stack.self s)) ->
  (forall r q', Queue.pop fuel q = Ret r q' -> QueueSpec.disposed_ok q q') /\
  (forall r q', Queue.collect_garbage fuel q = Ret r q' -> QueueSpec.disposed_ok q q') /\
  (forall r s', Stack.pop fuel tid s = Ret r s' -> StackSpec.disposed_ok s s') /\
  (forall r s', Stack.collect_garbage fuel s = Ret r s' -> StackSpec.disposed_ok s s').
Proof.
  intros Hq Hs.
  pose proof (QueueFacts.in_order_refl q Hq) as Hq0.
  pose proof (StackFacts.stack_in_order_refl s Hs) as Hs0.
  repeat split; intros r x Hr.
  - pose proof (QueueFacts.pop_in_order q fuel q Hq0) as H.
    unfold wlp in H. rewrite Hr in H. apply H.
  - pose proof (QueueFacts.collect_garbage_in_order q fuel q Hq0) as H.
    unfold wlp in H. rewrite Hr in H. apply H.
  - pose proof (StackFacts.stack_pop_in_order s fuel tid s Hs0) as H.
    unfold wlp in H. rewrite Hr in H. apply H.
  - pose proof (StackFacts.stack_collect_garbage_in_order s fuel s Hs0) as H.
    unfold wlp in H. rewrite Hr in H. apply H.
Qed.

(** On [protected_queue] the popped node is deferred, by [pop] and again by
    the sweep that [pop] starts; on [small_stack] it is freed. *)
Lemma disposals_in_order_witness :
  (exists r q', Queue.pop 5 protected_queue = Ret r q' /\
                QueueSpec.disposed_ok protected_queue q' /\
                length (Queue.history q') = 2) /\
  (exists r s', Stack.pop 5 (Some 7) small_stack = Ret r s' /\
                StackSpec.disposed_ok small_stack s' /\
                length (Stack.history s') = 1).
Proof.
  pose proof (disposals_in_order protected_queue small_stack (Some 7) 5
                eq_refl eq_refl) as (Hq & _ & Hs & _).
  split.
  - destruct (Queue.pop 5 protected_queue) as [r q'| | |] eqn:E; try discriminate.
    exists r, q'. split; [reflexivity|]. split; [exact (Hq r q' eq_refl)|].
    vm_compute in E. injection E as <- <-. reflexivity.
  - destruct (Stack.pop 5 (Some 7) small_stack) as [r s'| | |] eqn:E; try discriminate.
    exists r, s'. split; [reflexivity|]. split; [exact (Hs r s' eq_refl)|].
    vm_compute in E. injection E as <- <-. reflexivity.
Defined.

(** C7 as stated: after [sweep_schedule], consumer 1 has just returned from
    the [pop] that gave it 2; the threshold is 1, and the garbage list holds
    two nodes. *)
Lemma garbage_above_threshold :
  match QueueThreads.run_schedule alloc0 5 sweep_schedule sweep_start with
  | Ret _ (q, threads) =>
      QueueThreads.popped <$> threads !! 1 = Some [1%Z; 2%Z] /\
      QueueThreads.at_pc <$> threads !! 1 = Some QueueThreads.Idle /\
      QueueThreads.walk 5 (Queue.mem q) (Queue.garbage q) = [1%positive; 2%positive] /\
      Queue.garbage_size q = 2%N /\
      (Queue.garbage_max_size q
       < N.of_nat (length (QueueThreads.walk 5 (Queue.mem q) (Queue.garbage q))))%N
  | _ => False
  end.
Proof. vm_compute. repeat split. Qed.

(** A [pop] that begins while another consumer is inside
    [push_to_garbage], past the compare-exchange that put node 4 on the
    garbage list and before [++garbage_size]: it returns 1 with node 4 still
    on the list and the counter at 0, under the threshold 1 that the list
    has reached; no sweep has run. *)
Lemma pop_on_uncounted_garbage :
  exists q',
    Queue.pop 5 uncounted_queue = Ret (Some 1%Z) q' /\
    QueueSpec.glist (Queue.mem q') (Queue.garbage q') [4%positive] /\
    Queue.garbage_size q' = 0%N /\
    Queue.garbage_max_size q' = 1%N /\
    ~ QueueSpec.swept q'.
Proof.
  eexists. split; [vm_compute; reflexivity|].
  split. { split; [reflexivity|]. eexists. split; reflexivity. }
  split; [reflexivity|]. split; [reflexivity|].
  intros (gs & Hg & Hsz & _). destruct gs as [|a gs]; simpl in Hg.
  - discriminate.
  - cbn [length] in Hsz. vm_compute in Hsz. discriminate.
Qed.

(** C7, amended.  A [pop] that dequeues a node, on a queue that is [ready]
    for it -- the hazard table has a free slot, the head node is not claimed
    and is not the tail, and the garbage list has each of its nodes once,
    not the head node, and as many of them as [garbage_size] says --
    returns that node's payload, and at that moment the garbage is [swept]:
    the counter is the length of the garbage list, and either it is below
    the threshold or the sweep has just run and every node it left on the
    list is protected by a hazard slot. *)
Theorem queue_pop_swept {T : Type} (q : Queue.Queue_TS (T:=T)) (i : nat) (h : addr)
    (n : Queue.node (T:=T)) (gs : list addr) (fuel : nat) :
  QueueSpec.ready q i h n gs ->
  i <= fuel -> length gs <= fuel ->
  exists q',
    Queue.pop (S fuel) q = Ret (Queue.data n) q' /\
    Queue.head q' = Queue.next n /\
    QueueSpec.swept q'.
Proof.
  intros Hready Hi Hgs.
  pose proof (QueueFacts.pop_swept fuel q i h n gs Hready Hi Hgs) as H.
  apply wp_Ret in H as (r & q' & Hr & -> & Hh & _ & Hsw).
  exists q'. auto.
Qed.

Lemma queue_pop_swept_witness :
  exists q',
    Queue.pop 2 protected_queue = Ret (Some 1%Z) q' /\
    Queue.head q' = Some 2%positive /\
    QueueSpec.swept q'.
Proof.
  apply (queue_pop_swept protected_queue 1 1%positive
           (Queue.Node false (Some 1%Z) (Some 2%positive)) [] 1); [|lia|simpl; lia].
  unfold QueueSpec.ready. simpl.
  split; [reflexivity|]. split.
  { split.
    - exists None. reflexivity.
    - intros j Hj. assert (j = 0) as -> by lia. eexists. reflexivity. }
  split; [reflexivity|]. split; [reflexivity|]. split; [reflexivity|].
  split; [discriminate|]. split; [reflexivity|]. split; [constructor|].
  split; [apply not_elem_of_nil|]. split; [reflexivity|].
  unfold size_max. simpl. lia.
Defined.

(** ** Queue_TS, several threads *)

(** C1.  After [race_schedule] every thread has finished: both producers
    have returned from [push], of 1 and of 2, and each consumer has had the
    empty result from [pop], the last of them after both pushes returned.
    Only 1 was ever popped.  The 2 is in the payload of node 1, which
    consumer 2 had unlinked and put on the garbage list before producer 1
    claimed it; the head is null. *)
Theorem queue_push_lost_in_race :
  match QueueThreads.run_schedule alloc0 5 race_schedule race_start with
  | Ret _ (q, threads) =>
      forallb QueueThreads.finished threads = true /\
      concat (QueueThreads.pushed <$> threads) = [1%Z; 2%Z] /\
      concat (QueueThreads.popped <$> threads) = [1%Z] /\
      Queue.garbage q = Some 1%positive /\
      Queue.data <$> Queue.mem q !! 1%positive = Some (Some 2%Z) /\
      Queue.head q = None
  | _ => False
  end.
Proof. vm_compute. repeat split. Qed.

(** * Further properties *)

(** ** Queue_TS: push and pop on a queue other threads are at work on *)

(** [push], run alone on a queue whose tail node carries no payload, is
    done after one round of its loop: the payload is in the old tail node,
    a new empty node is linked behind it and is the tail.  The head, the
    garbage list and its counter, the hazard table and every other node
    are as before; nothing is freed. *)
Theorem queue_push_unclaimed_tail {T : Type}
    (alloc : gmap addr (Queue.node (T:=T)) -> addr) (q : Queue.Queue_TS (T:=T))
    (t : addr) (n : Queue.node (T:=T)) (v : T) (fuel : nat) :
  (forall m, m !! alloc m = None) ->
  Queue.tail q = Some t -> Queue.mem q !! t = Some n -> Queue.data n = None ->
  let a := alloc (Queue.mem q) in
  exists q',
    Queue.push alloc (S fuel) v q = Ret tt q' /\
    Queue.tail q' = Some a /\
    Queue.mem q' !! t = Some (Queue.Node (Queue.taken n) (Some v) (Some a)) /\
    Queue.mem q' !! a = Some (Queue.Node false None None) /\
    (forall b, b <> t -> b <> a -> Queue.mem q' !! b = Queue.mem q !! b) /\
    (Queue.head q', Queue.garbage q', Queue.garbage_size q',
     Queue.hazard_holder q', Queue.history q')
    = (Queue.head q, Queue.garbage q, Queue.garbage_size q,
       Queue.hazard_holder q, Queue.history q).
Proof.
  intros Hfresh Ht Hn Hd a.
  exists (QueueSpec.pushed alloc t n v q).
  split; [apply QueueFacts.push_eq; assumption|].
  assert (Hat : a <> t).
  { intros E. pose proof (Hfresh (Queue.mem q)) as Hf. fold a in Hf.
    rewrite E in Hf. congruence. }
  unfold QueueSpec.pushed. fold a. destruct q. cbn.
  split; [reflexivity|]. split; [apply lookup_insert_eq|]. split.
  { rewrite lookup_insert_ne by congruence. apply lookup_insert_eq. }
  split; [|reflexivity].
  intros b Hbt Hba. rewrite !lookup_insert_ne by congruence. reflexivity.
Qed.

Lemma queue_push_unclaimed_tail_witness :
  exists q',
    Queue.push alloc0 1 7%Z protected_queue = Ret tt q' /\
    Queue.tail q' = Some 3%positive /\
    Queue.mem q' !! 2%positive = Some (Queue.Node false (Some 7%Z) (Some 3%positive)) /\
    Queue.mem q' !! 3%positive = Some (Queue.Node false None None) /\
    (forall b, b <> 2%positive -> b <> 3%positive ->
       Queue.mem q' !! b = Queue.mem protected_queue !! b) /\
    (Queue.head q', Queue.garbage q', Queue.garbage_size q',
     Queue.hazard_holder q', Queue.history q')
    = (Queue.head protected_queue, Queue.garbage protected_queue,
       Queue.garbage_size protected_queue, Queue.hazard_holder protected_queue,
       Queue.history protected_queue).
Proof.
  apply (queue_push_unclaimed_tail alloc0 protected_queue 2%positive
           (Queue.Node false None None) 7%Z 0).
  - intros m. apply alloc0_fresh.
  - reflexivity.
  - reflexivity.
  - reflexivity.
Defined.

(** [push], run alone on a queue whose tail node already carries a
    payload -- another producer has claimed it and not yet moved [tail] --
    goes round its loop for as long as it is let. *)
Theorem queue_push_claimed_tail_spins {T : Type}
    (alloc : gmap addr (Queue.node (T:=T)) -> addr) (q : Queue.Queue_TS (T:=T))
    (t : addr) (n : Queue.node (T:=T)) (d v : T) (fuel : nat) :
  (forall m, m !! alloc m = None) ->
  Queue.tail q = Some t -> Queue.mem q !! t = Some n -> Queue.data n = Some d ->
  Queue.push alloc fuel v q = Spin.
Proof.
  intros Hfresh Ht Hn Hd. eapply QueueFacts.push_claimed_tail; eauto.
Qed.

Lemma queue_push_claimed_tail_spins_witness :
  Queue.push alloc0 50 7%Z stale_tail_queue = Spin.
Proof.
  apply (queue_push_claimed_tail_spins alloc0 stale_tail_queue 2%positive
           (Queue.Node false (Some 9%Z) None) 9%Z 7%Z 50).
  - intros m. apply alloc0_fresh.
  - reflexivity.
  - reflexivity.
  - reflexivity.
Defined.

(** [pop], run alone on a queue whose head node has its claim flag set --
    another consumer has claimed it and not yet moved [head] -- does not
    return, however long it is let run. *)
Theorem queue_pop_claimed_head_waits {T : Type} (q : Queue.Queue_TS (T:=T))
    (h : addr) (n : Queue.node (T:=T)) (fuel : nat) :
  Queue.head q = Some h -> Queue.mem q !! h = Some n -> Queue.taken n = true ->
  is_Ret (Queue.pop fuel q) = false.
Proof.
  intros Hh Hn Ht.
  assert (H : wlp (Queue.pop fuel) (fun _ _ => False) q).
  { unfold Queue.pop. apply wlp_bind. eapply wlp_mono.
    - eapply QueueFacts.pop_claim_blocked; eauto.
    - intros a s' []. }
  unfold wlp in H. destruct (Queue.pop fuel q); [contradiction|reflexivity..].
Qed.

Lemma queue_pop_claimed_head_waits_witness :
  is_Ret (Queue.pop 50 claimed_queue) = false.
Proof.
  apply (queue_pop_claimed_head_waits claimed_queue 1%positive
           (Queue.Node true (Some 1%Z) (Some 2%positive)) 50).
  - reflexivity.
  - reflexivity.
  - reflexivity.
Defined.

(** [pop], run alone on a queue with at least one hazard slot all of
    whose slots are taken, goes round the slots for as long as it is let. *)
Theorem queue_pop_no_free_slot_spins {T : Type} (q : Queue.Queue_TS (T:=T))
    (fuel : nat) :
  0 < Queue.hazard_holder_size q ->
  Queue.hazard_holder_size q <= length (Queue.hazard_holder q) ->
  Forall (fun h => Queue.slot_taken h = true)
    (take (Queue.hazard_holder_size q) (Queue.hazard_holder q)) ->
  Queue.pop fuel q = Spin.
Proof.
  intros Hsz Hlen Hall. apply QueueFacts.pop_no_slot; [exact Hsz|exact Hlen|].
  intros j h Hj Hh. rewrite Forall_lookup in Hall. apply (Hall j).
  rewrite lookup_take_lt by exact Hj. exact Hh.
Qed.

Lemma queue_pop_no_free_slot_spins_witness :
  Queue.pop 50 crowded_queue = Spin.
Proof.
  apply (queue_pop_no_free_slot_spins crowded_queue 50).
  - simpl. lia.
  - simpl. lia.
  - simpl. repeat constructor.
Defined.

(** [pop] on a queue whose head is its tail returns the empty result,
    also while other threads hold hazard slots, have garbage pending or
    have put a payload into the tail node without having moved [tail] yet:
    the queue is left as it was, the slot used free and null. *)
Theorem queue_pop_head_is_tail {T : Type} (q : Queue.Queue_TS (T:=T))
    (i : nat) (h : addr) (n : Queue.node (T:=T)) (fuel : nat) :
  Queue.hazard_holder_size q = length (Queue.hazard_holder q) ->
  QueueSpec.first_free (Queue.hazard_holder q) i -> i <= fuel ->
  Queue.head q = Some h -> Queue.tail q = Some h ->
  Queue.mem q !! h = Some n -> Queue.taken n = false ->
  Queue.pop (S fuel) q
  = Ret None (Queue.set_hazard_holder <[i := Queue.Hazard false None]> q).
Proof. apply QueueFacts.pop_empty_any. Qed.

Lemma queue_pop_head_is_tail_witness :
  Queue.pop 2 garbage_queue
  = Ret None (Queue.set_hazard_holder <[1 := Queue.Hazard false None]> garbage_queue).
Proof.
  apply (queue_pop_head_is_tail garbage_queue 1 2%positive
           (Queue.Node false None None) 1).
  - reflexivity.
  - split.
    + exists None. reflexivity.
    + intros j Hj. assert (j = 0) as -> by lia. eexists. reflexivity.
  - lia.
  - reflexivity.
  - reflexivity.
  - reflexivity.
  - reflexivity.
Defined.

(** [pop] on a queue that is [ready] for it -- other threads may hold
    hazard slots and there may be garbage -- returns the payload of the
    head node, moves [head] to its successor, leaves [tail] alone and
    hands its hazard slot back.  The node taken is freed when no hazard
    slot protects it and is on the garbage list when one does; no node
    but this one and those of the old garbage list is touched. *)
Theorem queue_pop_touches_its_node {T : Type} (q : Queue.Queue_TS (T:=T)) (i : nat)
    (h : addr) (n : Queue.node (T:=T)) (gs : list addr) (fuel : nat) :
  QueueSpec.ready q i h n gs ->
  i <= fuel -> length gs <= fuel ->
  let table := <[i := Queue.Hazard false None]> (Queue.hazard_holder q) in
  exists q',
    Queue.pop (S fuel) q = Ret (Queue.data n) q' /\
    Queue.head q' = Queue.next n /\
    Queue.tail q' = Queue.tail q /\
    Queue.hazard_holder q' = table /\
    (forall b, b ∉ h :: gs -> Queue.mem q' !! b = Queue.mem q !! b) /\
    (if QueueSpec.protected table (Some h)
     then exists gs', QueueSpec.glist (Queue.mem q') (Queue.garbage q') gs' /\ h ∈ gs'
     else Queue.mem q' !! h = None).
Proof.
  intros Hready Hi Hgs table.
  pose proof (QueueFacts.pop_ready_frame fuel q i h n gs Hready Hi Hgs) as H.
  apply wp_Ret in H as (r & q' & Hr & -> & H).
  exists q'. split; [exact Hr|exact H].
Qed.

Lemma queue_pop_touches_its_node_witness :
  let table := <[1 := Queue.Hazard false None]> (Queue.hazard_holder protected_queue) in
  exists q',
    Queue.pop 2 protected_queue
    = Ret (Queue.data (Queue.Node false (Some 1%Z) (Some 2%positive))) q' /\
    Queue.head q' = Queue.next (Queue.Node false (Some 1%Z) (Some 2%positive)) /\
    Queue.tail q' = Queue.tail protected_queue /\
    Queue.hazard_holder q' = table /\
    (forall b, b ∉ 1%positive :: [] ->
       Queue.mem q' !! b = Queue.mem protected_queue !! b) /\
    (if QueueSpec.protected table (Some 1%positive)
     then exists gs', QueueSpec.glist (Queue.mem q') (Queue.garbage q') gs' /\
                      1%positive ∈ gs'
     else Queue.mem q' !! 1%positive = None).
Proof.
  apply (queue_pop_touches_its_node protected_queue 1 1%positive
           (Queue.Node false (Some 1%Z) (Some 2%positive)) [] 1); [|lia|simpl; lia].
  unfold QueueSpec.ready. simpl.
  split; [reflexivity|]. split.
  { split.
    - exists None. reflexivity.
    - intros j Hj. assert (j = 0) as -> by lia. eexists. reflexivity. }
  split; [reflexivity|]. split; [reflexivity|]. split; [reflexivity|].
  split; [discriminate|]. split; [reflexivity|]. split; [constructor|].
  split; [apply not_elem_of_nil|]. split; [reflexivity|].
  unfold size_max. simpl. lia.
Defined.

(** ** Queue_TS: one producer and one consumer *)

(** One thread pushes the values [vals] in order while another calls
    [pop], on a queue constructed with at least one hazard slot; the two
    are interrupted at the places [QueueThreads.pc] lists.  Whatever the
    order in which they take their turns, no stretch of either runs into
    undefined behaviour or has to wait; at every moment the values popped
    are, in order, the first of the values whose [push] has returned, and
    these are the first of [vals]; once the producer is done they are all
    of [vals]. *)
Theorem queue_one_producer_one_consumer {T : Type}
    (alloc : gmap addr (Queue.node (T:=T)) -> addr) (hs : nat) (gm : N)
    (vals : list T) (schedule : list nat) (fuel : nat) :
  (forall m, m !! alloc m = None) ->
  0 < hs ->
  Forall (fun i => i < 2) schedule ->
  exists q' p' c',
    QueueThreads.run_schedule alloc (S fuel) schedule
      (Queue.ctor alloc hs gm,
       [ QueueThreads.Thread (QueueThreads.Producer vals) QueueThreads.Idle [] [];
         QueueThreads.Thread (QueueThreads.Consumer false) QueueThreads.Idle [] [] ])
    = Ret tt (q', [p'; c']) /\
    QueueThreads.popped c' `prefix_of` QueueThreads.pushed p' /\
    QueueThreads.pushed p' `prefix_of` vals /\
    (QueueThreads.finished p' = true -> QueueThreads.pushed p' = vals).
Proof.
  intros Hfresh Hhs Hsched.
  pose proof (QueueFacts.spsc_run alloc Hfresh fuel vals schedule _ _ _ Hsched
                (QueueFacts.spsc_ctor alloc hs gm vals Hhs)) as H.
  apply wp_Ret in H as (u & [q' ts] & Hrun & p' & c' & Hts & Hinv).
  simpl in Hts, Hinv. subst ts. destruct u.
  exists q', p', c'. split; [exact Hrun|].
  apply (QueueFacts.spsc_order vals q' p' c' Hinv).
Qed.

Lemma queue_one_producer_one_consumer_witness :
  exists q' p' c',
    QueueThreads.run_schedule alloc0 1 [1; 0; 1; 0; 1; 1; 1; 0; 1; 1; 0; 1; 1; 1; 1; 1]
      (Queue.ctor alloc0 16 1024,
       [ QueueThreads.Thread (QueueThreads.Producer [1%Z; 2%Z]) QueueThreads.Idle [] [];
         QueueThreads.Thread (QueueThreads.Consumer false) QueueThreads.Idle [] [] ])
    = Ret tt (q', [p'; c']) /\
    QueueThreads.popped c' `prefix_of` QueueThreads.pushed p' /\
    QueueThreads.pushed p' `prefix_of` [1%Z; 2%Z] /\
    (QueueThreads.finished p' = true -> QueueThreads.pushed p' = [1%Z; 2%Z]).
Proof.
  apply (queue_one_producer_one_consumer alloc0 16 1024 [1%Z; 2%Z]
           [1; 0; 1; 0; 1; 1; 1; 0; 1; 1; 0; 1; 1; 1; 1; 1] 0).
  - intros m. apply alloc0_fresh.
  - lia.
  - repeat (constructor; [lia|]). constructor.
Defined.

(** ** Queue_TS: the sweep and the destructor *)

(** [collect_garbage] on a garbage list [gs] that the counter counts:
    the nodes of [gs] that a hazard slot protects are the new garbage
    list, in reverse order, and the counter is their number; the other
    nodes of [gs] are freed; no node outside [gs] is touched, and the
    head, the tail and the hazard table are as before. *)
Theorem queue_collect_garbage_sweeps {T : Type} (q : Queue.Queue_TS (T:=T))
    (gs : list addr) (fuel : nat) :
  QueueSpec.glist (Queue.mem q) (Queue.garbage q) gs ->
  Queue.garbage_size q = N.of_nat (length gs) ->
  (N.of_nat (length gs) < size_max)%N ->
  Queue.hazard_holder_size q = length (Queue.hazard_holder q) ->
  length gs <= fuel ->
  let table := Queue.hazard_holder q in
  exists q',
    Queue.collect_garbage fuel q = Ret tt q' /\
    QueueSpec.glist (Queue.mem q') (Queue.garbage q') (rev (QueueSpec.kept table gs)) /\
    Queue.garbage_size q' = N.of_nat (length (QueueSpec.kept table gs)) /\
    (forall b, b ∈ gs -> QueueSpec.protected table (Some b) = false ->
       Queue.mem q' !! b = None) /\
    (forall b, b ∉ gs -> Queue.mem q' !! b = Queue.mem q !! b) /\
    (Queue.head q', Queue.tail q', Queue.hazard_holder q')
    = (Queue.head q, Queue.tail q, table).
Proof.
  intros Hgl Hsize Hmax Hlen Hfuel table.
  pose proof (QueueFacts.collect_garbage_spec fuel q gs Hgl Hsize Hmax Hlen Hfuel) as H.
  apply wp_Ret in H as (u & q' & Hrun & Hgl' & Hsz & Hh & Hhd & Htl & Hout & Hin).
  destruct u. exists q'. subst table.
  split; [exact Hrun|]. split; [exact Hgl'|]. split; [exact Hsz|].
  split; [exact Hin|]. split; [exact Hout|].
  rewrite Hh, Hhd, Htl. reflexivity.
Qed.

Lemma queue_collect_garbage_sweeps_witness :
  exists q',
    Queue.collect_garbage 2 garbage_queue = Ret tt q' /\
    QueueSpec.glist (Queue.mem q') (Queue.garbage q')
      (rev (QueueSpec.kept (Queue.hazard_holder garbage_queue) [1%positive; 3%positive])) /\
    Queue.garbage_size q'
    = N.of_nat (length (QueueSpec.kept (Queue.hazard_holder garbage_queue)
                          [1%positive; 3%positive])) /\
    (forall b, b ∈ [1%positive; 3%positive] ->
       QueueSpec.protected (Queue.hazard_holder garbage_queue) (Some b) = false ->
       Queue.mem q' !! b = None) /\
    (forall b, b ∉ [1%positive; 3%positive] ->
       Queue.mem q' !! b = Queue.mem garbage_queue !! b) /\
    (Queue.head q', Queue.tail q', Queue.hazard_holder q')
    = (Queue.head garbage_queue, Queue.tail garbage_queue,
       Queue.hazard_holder garbage_queue).
Proof.
  apply (queue_collect_garbage_sweeps garbage_queue [1%positive; 3%positive] 2).
  - simpl. split; [reflexivity|]. eexists. split; [reflexivity|]. simpl.
    split; [reflexivity|]. eexists. split; [reflexivity|]. reflexivity.
  - reflexivity.
  - unfold size_max. simpl. lia.
  - reflexivity.
  - simpl. lia.
Defined.

(** The destructor of a queue whose live list is the nodes at [ls] and
    whose garbage list is the nodes at [gs], with no node on both: every
    node of the two lists is freed, once, the live list first, and no
    other node is. *)
Theorem queue_dtor_frees_both_lists {T : Type} (q : Queue.Queue_TS (T:=T))
    (ls gs : list addr) (fuel : nat) :
  QueueSpec.glist (Queue.mem q) (Queue.head q) ls ->
  QueueSpec.glist (Queue.mem q) (Queue.garbage q) gs ->
  (forall a, a ∈ ls -> a ∉ gs) ->
  length ls <= fuel -> length gs <= fuel ->
  let freed := fun a => Queue.Freed a (Queue.hazard_holder q) in
  exists q',
    Queue.dtor fuel q = Ret tt q' /\
    (forall a, Queue.mem q' !! a
               = if bool_decide (a ∈ ls ++ gs) then None else Queue.mem q !! a) /\
    Queue.history q' = map freed gs ++ map freed ls ++ Queue.history q /\
    NoDup (ls ++ gs).
Proof.
  intros Hls Hgs Hdis Hfl Hfg freed.
  exists (QueueSpec.released gs (QueueSpec.released ls q)).
  split; [apply QueueFacts.dtor_eq; assumption|]. split; [|split].
  - intros a. unfold QueueSpec.released. cbn [Queue.mem].
    rewrite !QueueFacts.lookup_without.
    destruct (bool_decide (a ∈ gs)) eqn:Eg, (bool_decide (a ∈ ls)) eqn:El.
    + rewrite bool_decide_eq_true_2; [reflexivity|].
      apply elem_of_app. left. apply bool_decide_eq_true in El. exact El.
    + rewrite bool_decide_eq_true_2; [reflexivity|].
      apply elem_of_app. right. apply bool_decide_eq_true in Eg. exact Eg.
    + rewrite bool_decide_eq_true_2; [reflexivity|].
      apply elem_of_app. left. apply bool_decide_eq_true in El. exact El.
    + rewrite bool_decide_eq_false_2; [reflexivity|].
      apply bool_decide_eq_false in Eg, El.
      intros [?|?]%elem_of_app; contradiction.
  - reflexivity.
  - apply NoDup_app. split; [eapply QueueFacts.glist_NoDup; exact Hls|].
    split; [exact Hdis|eapply QueueFacts.glist_NoDup; exact Hgs].
Qed.

Lemma queue_dtor_frees_both_lists_witness :
  exists q',
    Queue.dtor 2 garbage_queue = Ret tt q' /\
    (forall a, Queue.mem q' !! a
               = if bool_decide (a ∈ [2%positive] ++ [1%positive; 3%positive])
                 then None else Queue.mem garbage_queue !! a) /\
    Queue.history q'
    = map (fun a => Queue.Freed a (Queue.hazard_holder garbage_queue))
        [1%positive; 3%positive]
      ++ map (fun a => Queue.Freed a (Queue.hazard_holder garbage_queue)) [2%positive]
      ++ Queue.history garbage_queue /\
    NoDup ([2%positive] ++ [1%positive; 3%positive]).
Proof.
  apply (queue_dtor_frees_both_lists garbage_queue [2%positive]
           [1%positive; 3%positive] 2).
  - simpl. split; [reflexivity|]. eexists. split; [reflexivity|]. reflexivity.
  - simpl. split; [reflexivity|]. eexists. split; [reflexivity|]. simpl.
    split; [reflexivity|]. eexists. split; [reflexivity|]. reflexivity.
  - intros a Ha Hg. apply list_elem_of_singleton in Ha. subst a.
    apply elem_of_cons in Hg as [Hg|Hg]; [discriminate|].
    apply list_elem_of_singleton in Hg. discriminate.
  - simpl. lia.
  - simpl. lia.
Defined.

(** A queue constructed with at least one hazard slot, used by one thread
    for any calls and then destroyed: every call answers as a first-in
    first-out list does, the destructor returns, and the free store is
    left without a node -- nothing is leaked and nothing is freed twice. *)
Theorem queue_teardown_leaves_no_node {T : Type}
    (alloc : gmap addr (Queue.node (T:=T)) -> addr) (hs : nat) (gm : N)
    (calls : list (QueueSpec.call (T:=T))) (fuel : nat) :
  (forall m, m !! alloc m = None) ->
  0 < hs -> length calls <= fuel ->
  exists q',
    bind (QueueSpec.run alloc (S fuel) calls)
         (fun rs => bind (Queue.dtor (S fuel)) (fun _ => ret rs))
         (Queue.ctor alloc hs gm)
    = Ret (QueueSpec.fifo calls []) q' /\
    Queue.mem q' = ∅.
Proof.
  intros Hfresh Hhs Hfuel.
  pose proof (QueueFacts.teardown alloc Hfresh fuel calls hs gm Hhs Hfuel) as H.
  apply wp_Ret in H as (rs & q' & Hrun & -> & Hmem).
  exists q'. split; [exact Hrun|exact Hmem].
Qed.

Lemma queue_teardown_leaves_no_node_witness :
  exists q',
    bind (QueueSpec.run alloc0 4 [QueueSpec.Push 1%Z; QueueSpec.Push 2%Z; QueueSpec.Pop])
         (fun rs => bind (Queue.dtor 4) (fun _ => ret rs))
         (Queue.ctor alloc0 16 1024)
    = Ret (QueueSpec.fifo [QueueSpec.Push 1%Z; QueueSpec.Push 2%Z; QueueSpec.Pop] []) q' /\
    Queue.mem q' = ∅.
Proof.
  apply (queue_teardown_leaves_no_node alloc0 16 1024
           [QueueSpec.Push 1%Z; QueueSpec.Push 2%Z; QueueSpec.Pop] 3).
  - intros m. apply alloc0_fresh.
  - lia.
  - simpl. lia.
Defined.

(** ** Stack_TS: push, pop and is_empty *)

(** [push], run alone, is done after one round of its loop whatever the
    state of the stack: the new node carries the value, points to the old
    head and is the head.  The garbage list, the hazard table and the
    other nodes are as before; nothing is freed. *)
Theorem stack_push_one_round (alloc : gmap addr Stack.node -> addr)
    (s : Stack.state) (v : Stack.T) (fuel : nat) :
  let a := alloc (Stack.mem s) in
  exists s',
    Stack.push alloc (S fuel) v s = Ret tt s' /\
    Stack.head (Stack.self s') = Some a /\
    Stack.mem s' = <[a := Stack.Node (Stack.head (Stack.self s)) (Some v)]> (Stack.mem s) /\
    (Stack.garbage (Stack.self s'), Stack.hazard_arr (Stack.self s'),
     Stack.hazard_max_size (Stack.self s'), Stack.history s')
    = (Stack.garbage (Stack.self s), Stack.hazard_arr (Stack.self s),
       Stack.hazard_max_size (Stack.self s), Stack.history s).
Proof.
  intros a. eexists. split; [apply StackFacts.stack_push_eq|].
  destruct s as [m [hd g ha hm] hist]. cbn. destruct ha; repeat split; reflexivity.
Qed.


Lemma small_stack_holds : StackSpec.holds small_stack [2%Z; 1%Z].
Proof.
  split; [|split; [reflexivity|split; [simpl; lia|reflexivity]]].
  exists 2%positive, (Some 1%positive). split; [reflexivity|]. split; [reflexivity|].
  exists 1%positive, None. split; [reflexivity|]. split; [reflexivity|]. reflexivity.
Defined.


(** After any calls by one thread on a newly constructed stack,
    [is_empty] returns [true] exactly when the values pushed and not yet
    popped are none, and changes nothing. *)
Theorem stack_is_empty_after_calls (alloc : gmap addr Stack.node -> addr)
    (k : nat) (tid : Stack.thread_id_t) (calls : list StackSpec.call) (fuel : nat) :
  (forall m, m !! alloc m = None) ->
  0 < k ->
  exists s',
    StackSpec.run alloc (S fuel) tid calls (Stack.State ∅ (Stack.ctor k) [])
    = Ret (StackSpec.lifo calls []) s' /\
    Stack.is_empty s' = Ret (bool_decide (StackSpec.content_after calls [] = [])) s'.
Proof.
  intros Hfresh Hk.
  pose proof (StackFacts.stack_run_tidy alloc Hfresh fuel tid calls _ []
                (StackFacts.stack_ctor_tidy k Hk)) as H.
  apply wp_Ret in H as (rs & s' & Hrun & -> & Hs' & _).
  exists s'. split; [exact Hrun|]. apply StackFacts.is_empty_holds. exact Hs'.
Qed.

Lemma stack_is_empty_after_calls_witness :
  exists s',
    StackSpec.run alloc0 1 (Some 0) [StackSpec.Push 1%Z; StackSpec.Pop; StackSpec.Pop]
      (Stack.State ∅ (Stack.ctor 2) [])
    = Ret (StackSpec.lifo [StackSpec.Push 1%Z; StackSpec.Pop; StackSpec.Pop] []) s' /\
    Stack.is_empty s'
    = Ret (bool_decide
             (StackSpec.content_after [StackSpec.Push 1%Z; StackSpec.Pop; StackSpec.Pop] []
              = [])) s'.
Proof.
  apply (stack_is_empty_after_calls alloc0 2 (Some 0)
           [StackSpec.Push 1%Z; StackSpec.Pop; StackSpec.Pop] 0).
  - intros m. apply alloc0_fresh.
  - lia.
Defined.

(** [pop], run alone on a stack that has at least one hazard slot and
    whose hazard slots are all owned by other threads, asks for a slot for
    as long as it is let, whatever the stack holds: every round of
    [while(!hp)] tries the compare-exchange on each slot and fails. *)
Theorem stack_pop_no_free_slot_spins (s : Stack.state) (arr : list Stack.hazard_ptr)
    (tid : Stack.thread_id_t) (fuel : nat) :
  Stack.hazard_arr (Stack.self s) = Some arr ->
  0 < Stack.hazard_max_size (Stack.self s) ->
  Stack.hazard_max_size (Stack.self s) <= length arr ->
  Forall (fun h => Stack.thread_id h <> None)
    (take (Stack.hazard_max_size (Stack.self s)) arr) ->
  Stack.pop fuel tid s = Spin.
Proof.
  intros Harr Hsz Hlen Hall.
  apply (StackFacts.pop_all_owned tid arr); [exact Harr|exact Hsz|exact Hlen|].
  intros j h Hj Hh. rewrite Forall_lookup in Hall. apply (Hall j).
  rewrite lookup_take_lt by exact Hj. exact Hh.
Qed.

Lemma stack_pop_no_free_slot_spins_witness :
  Stack.pop 50 (Some 0) crowded_stack = Spin.
Proof.
  apply (stack_pop_no_free_slot_spins crowded_stack
           [Stack.HazardPtr (Some 5) None; Stack.HazardPtr (Some 6) None] (Some 0) 50).
  - reflexivity.
  - simpl. lia.
  - simpl. lia.
  - simpl. constructor; [discriminate|]. constructor; [discriminate|]. constructor.
Defined.

(** ** Stack_TS: the sweep *)

(** [collect_garbage] on a garbage list [gs]: the nodes of [gs] that a
    hazard slot protects are the new garbage list, in reverse order; the
    other nodes of [gs] are freed; no node outside [gs] is touched, and
    the head and the hazard table are as before. *)
Theorem stack_collect_garbage_sweeps (s : Stack.state) (arr : list Stack.hazard_ptr)
    (gs : list addr) (fuel : nat) :
  StackSpec.glist (Stack.mem s) (Stack.garbage (Stack.self s)) gs ->
  Stack.hazard_arr (Stack.self s) = Some arr ->
  Stack.hazard_max_size (Stack.self s) = length arr ->
  length gs <= fuel ->
  exists s',
    Stack.collect_garbage fuel s = Ret tt s' /\
    StackSpec.glist (Stack.mem s') (Stack.garbage (Stack.self s'))
      (rev (StackSpec.kept arr gs)) /\
    (forall b, b ∈ gs -> StackSpec.protected arr (Some b) = false ->
       Stack.mem s' !! b = None) /\
    (forall b, b ∉ gs -> Stack.mem s' !! b = Stack.mem s !! b) /\
    Stack.head (Stack.self s') = Stack.head (Stack.self s) /\
    Stack.hazard_arr (Stack.self s') = Some arr.
Proof.
  intros Hgl Harr Hsz Hfuel.
  pose proof (StackFacts.stack_collect_garbage_spec fuel s arr gs Hgl Harr Hsz Hfuel) as H.
  apply wp_Ret in H as (u & s' & Hrun & Hh & Hm & Hhd & Hgl' & Hout & Hin).
  destruct u. exists s'. auto 10.
Qed.

Lemma stack_collect_garbage_sweeps_witness :
  exists s',
    Stack.collect_garbage 2 garbage_stack = Ret tt s' /\
    StackSpec.glist (Stack.mem s') (Stack.garbage (Stack.self s'))
      (rev (StackSpec.kept
              [Stack.HazardPtr (Some 7) (Some 1%positive); Stack.HazardPtr None None]
              [1%positive; 3%positive])) /\
    (forall b, b ∈ [1%positive; 3%positive] ->
       StackSpec.protected
         [Stack.HazardPtr (Some 7) (Some 1%positive); Stack.HazardPtr None None]
         (Some b) = false ->
       Stack.mem s' !! b = None) /\
    (forall b, b ∉ [1%positive; 3%positive] ->
       Stack.mem s' !! b = Stack.mem garbage_stack !! b) /\
    Stack.head (Stack.self s') = Stack.head (Stack.self garbage_stack) /\
    Stack.hazard_arr (Stack.self s')
    = Some [Stack.HazardPtr (Some 7) (Some 1%positive); Stack.HazardPtr None None].
Proof.
  apply (stack_collect_garbage_sweeps garbage_stack
           [Stack.HazardPtr (Some 7) (Some 1%positive); Stack.HazardPtr None None]
           [1%positive; 3%positive] 2).
  - simpl. split; [reflexivity|]. eexists. split; [reflexivity|]. simpl.
    split; [reflexivity|]. eexists. split; [reflexivity|]. reflexivity.
  - reflexivity.
  - reflexivity.
  - simpl. lia.
Defined.

(** [pop] on a stack that is [ready] for it -- other threads may own
    hazard slots and have published nodes in them, and there may be
    garbage -- returns the payload of the top node, moves [head] to its
    successor and hands its hazard slot back.  It sweeps before it
    returns: of the node taken and the old garbage list, the nodes that a
    hazard slot protects are the garbage list, the others are freed, and
    no other node is touched. *)
Theorem stack_pop_sweeps (s : Stack.state) (arr : list Stack.hazard_ptr) (i : nat)
    (a : addr) (n : Stack.node) (gs : list addr) (tid : Stack.thread_id_t)
    (fuel : nat) :
  StackSpec.ready s arr i a n gs ->
  length gs <= fuel ->
  let table := <[i := Stack.HazardPtr None None]> arr in
  exists s',
    Stack.pop (S fuel) tid s = Ret (Stack.data n) s' /\
    Stack.head (Stack.self s') = Stack.next n /\
    Stack.hazard_arr (Stack.self s') = Some table /\
    StackSpec.glist (Stack.mem s') (Stack.garbage (Stack.self s'))
      (rev (StackSpec.kept table (a :: gs))) /\
    Forall (fun b => StackSpec.protected table (Some b) = true)
      (rev (StackSpec.kept table (a :: gs))) /\
    (forall b, b ∈ a :: gs -> StackSpec.protected table (Some b) = false ->
       Stack.mem s' !! b = None) /\
    (forall b, b ∉ a :: gs -> Stack.mem s' !! b = Stack.mem s !! b).
Proof.
  intros Hready Hfuel table.
  pose proof (StackFacts.stack_pop_swept fuel tid s arr i a n gs Hready Hfuel) as H.
  apply wp_Ret in H as (r & s' & Hrun & -> & Hhd & Harr & Hgl & Hout & Hin).
  exists s'. split; [exact Hrun|]. split; [exact Hhd|]. split; [exact Harr|].
  split; [exact Hgl|]. split; [apply StackFacts.stack_kept_protected|].
  split; [exact Hin|exact Hout].
Qed.

Lemma stack_pop_sweeps_witness :
  let table :=
    <[1 := Stack.HazardPtr None None]>
      [Stack.HazardPtr (Some 7) (Some 1%positive); Stack.HazardPtr None None] in
  exists s',
    Stack.pop 3 (Some 0) garbage_stack
    = Ret (Stack.data (Stack.Node None (Some 50%Z))) s' /\
    Stack.head (Stack.self s') = Stack.next (Stack.Node None (Some 50%Z)) /\
    Stack.hazard_arr (Stack.self s') = Some table /\
    StackSpec.glist (Stack.mem s') (Stack.garbage (Stack.self s'))
      (rev (StackSpec.kept table (5%positive :: [1%positive; 3%positive]))) /\
    Forall (fun b => StackSpec.protected table (Some b) = true)
      (rev (StackSpec.kept table (5%positive :: [1%positive; 3%positive]))) /\
    (forall b, b ∈ 5%positive :: [1%positive; 3%positive] ->
       StackSpec.protected table (Some b) = false ->
       Stack.mem s' !! b = None) /\
    (forall b, b ∉ 5%positive :: [1%positive; 3%positive] ->
       Stack.mem s' !! b = Stack.mem garbage_stack !! b).
Proof.
  apply (stack_pop_sweeps garbage_stack
           [Stack.HazardPtr (Some 7) (Some 1%positive); Stack.HazardPtr None None]
           1 5%positive (Stack.Node None (Some 50%Z)) [1%positive; 3%positive]
           (Some 0) 2).
  - unfold StackSpec.ready. simpl.
    split; [reflexivity|]. split; [reflexivity|]. split.
    { split.
      - exists None. reflexivity.
      - intros j Hj. assert (j = 0) as -> by lia. eexists. split; [reflexivity|].
        discriminate. }
    split; [reflexivity|]. split; [reflexivity|]. split.
    { split; [reflexivity|]. eexists. split; [reflexivity|]. simpl.
      split; [reflexivity|]. eexists. split; [reflexivity|]. reflexivity. }
    intros Hin. apply elem_of_cons in Hin as [Hin|Hin]; [discriminate|].
    apply list_elem_of_singleton in Hin. discriminate.
  - simpl. lia.
Defined.

(** ** Stack_TS: the destructor *)

(** The destructor of a stack whose live list is the nodes at [ls] and
    whose garbage list is the nodes at [gs], with no node on both: every
    node of the two lists is freed, once, the live list first, no other
    node is, and the hazard array is released. *)
Theorem stack_dtor_frees_both_lists (s : Stack.state) (ls gs : list addr) (fuel : nat) :
  StackSpec.glist (Stack.mem s) (Stack.head (Stack.self s)) ls ->
  StackSpec.glist (Stack.mem s) (Stack.garbage (Stack.self s)) gs ->
  (forall a, a ∈ ls -> a ∉ gs) ->
  length ls <= fuel -> length gs <= fuel ->
  let freed := fun a => Stack.Freed a (default [] (Stack.hazard_arr (Stack.self s))) in
  exists s',
    Stack.dtor fuel s = Ret tt s' /\
    (forall a, Stack.mem s' !! a
               = if bool_decide (a ∈ ls ++ gs) then None else Stack.mem s !! a) /\
    Stack.history s' = map freed gs ++ map freed ls ++ Stack.history s /\
    Stack.self s' = Stack.Mk None None None (Stack.hazard_max_size (Stack.self s)).
Proof.
  intros Hls Hgs Hdis Hfl Hfg freed.
  eexists. split; [apply StackFacts.stack_dtor_eq; eassumption|].
  cbn [Stack.mem Stack.history Stack.self]. split; [|split; reflexivity].
  intros a. rewrite !StackFacts.stack_lookup_without.
  destruct (bool_decide (a ∈ gs)) eqn:Eg, (bool_decide (a ∈ ls)) eqn:El.
  - rewrite bool_decide_eq_true_2; [reflexivity|].
    apply elem_of_app. left. apply bool_decide_eq_true in El. exact El.
  - rewrite bool_decide_eq_true_2; [reflexivity|].
    apply elem_of_app. right. apply bool_decide_eq_true in Eg. exact Eg.
  - rewrite bool_decide_eq_true_2; [reflexivity|].
    apply elem_of_app. left. apply bool_decide_eq_true in El. exact El.
  - rewrite bool_decide_eq_false_2; [reflexivity|].
    apply bool_decide_eq_false in Eg, El.
    intros [?|?]%elem_of_app; contradiction.
Qed.

Lemma stack_dtor_frees_both_lists_witness :
  exists s',
    Stack.dtor 1 (Stack.State source_mem source_stack []) = Ret tt s' /\
    (forall a, Stack.mem s' !! a
               = if bool_decide (a ∈ [1%positive] ++ [2%positive]) then None
                 else source_mem !! a) /\
    Stack.history s'
    = map (fun a => Stack.Freed a (default [] (Stack.hazard_arr source_stack)))
        [2%positive]
      ++ map (fun a => Stack.Freed a (default [] (Stack.hazard_arr source_stack)))
           [1%positive]
      ++ [] /\
    Stack.self s' = Stack.Mk None None None (Stack.hazard_max_size source_stack).
Proof.
  apply (stack_dtor_frees_both_lists (Stack.State source_mem source_stack [])
           [1%positive] [2%positive] 1).
  - simpl. split; [reflexivity|]. eexists. split; [reflexivity|]. reflexivity.
  - simpl. split; [reflexivity|]. eexists. split; [reflexivity|]. reflexivity.
  - intros a Ha Hg. apply list_elem_of_singleton in Ha. subst a.
    apply list_elem_of_singleton in Hg. discriminate.
  - simpl. lia.
  - simpl. lia.
Defined.

(** A stack constructed with at least one hazard slot, used by one thread
    for any calls and then destroyed: every call answers as a last-in
    first-out list does, the destructor returns, the free store is left
    without a node and the hazard array is released. *)
Theorem stack_teardown_leaves_no_node (alloc : gmap addr Stack.node -> addr)
    (k : nat) (tid : Stack.thread_id_t) (calls : list StackSpec.call) (fuel : nat) :
  (forall m, m !! alloc m = None) ->
  0 < k -> length calls <= fuel ->
  exists s',
    bind (StackSpec.run alloc (S fuel) tid calls)
         (fun rs => bind (Stack.dtor fuel) (fun _ => ret rs))
         (Stack.State ∅ (Stack.ctor k) [])
    = Ret (StackSpec.lifo calls []) s' /\
    Stack.mem s' = ∅ /\
    Stack.hazard_arr (Stack.self s') = None.
Proof.
  intros Hfresh Hk Hfuel.
  pose proof (StackFacts.stack_teardown alloc Hfresh fuel tid calls k Hk Hfuel) as H.
  apply wp_Ret in H as (rs & s' & Hrun & -> & Hmem & Harr).
  exists s'. auto.
Qed.

Lemma stack_teardown_leaves_no_node_witness :
  exists s',
    bind (StackSpec.run alloc0 4 (Some 0)
            [StackSpec.Push 1%Z; StackSpec.Push 2%Z; StackSpec.Pop])
         (fun rs => bind (Stack.dtor 3) (fun _ => ret rs))
         (Stack.State ∅ (Stack.ctor 2) [])
    = Ret (StackSpec.lifo [StackSpec.Push 1%Z; StackSpec.Push 2%Z; StackSpec.Pop] []) s' /\
    Stack.mem s' = ∅ /\
    Stack.hazard_arr (Stack.self s') = None.
Proof.
  apply (stack_teardown_leaves_no_node alloc0 2 (Some 0)
           [StackSpec.Push 1%Z; StackSpec.Push 2%Z; StackSpec.Pop] 3).
  - intros m. apply alloc0_fresh.
  - lia.
  - simpl. lia.
Defined.

(** ** Stack_TS: after a move *)

(** A stack that no operation is running on and that holds at least one
    value is moved from by the move constructor.  The first [pop] on the
    stack moved to frees the old head node and then reads it again
    through [garbage]: undefined behaviour. *)
Theorem stack_pop_after_move_faults (s : Stack.state)
    (v : Stack.T) (vals : list Stack.T) (tid : Stack.thread_id_t) (fuel : nat) :
  StackSpec.holds s (v :: vals) ->
  Stack.pop (S fuel) tid
    (Stack.State (Stack.mem s) (fst (Stack.move_ctor (Stack.self s))) (Stack.history s))
  = Fault.
Proof.
  intros Hs.
  apply (StackFacts.pop_moved_to fuel tid s v vals (Stack.Mk None None None 0) Hs).
Qed.

Lemma stack_pop_after_move_faults_witness :
  Stack.pop 1 (Some 0)
    (Stack.State (Stack.mem small_stack) (fst (Stack.move_ctor (Stack.self small_stack)))
       (Stack.history small_stack))
  = Fault.
Proof.
  apply (stack_pop_after_move_faults small_stack 2%Z [1%Z] (Some 0) 0).
  exact small_stack_holds.
Defined.

(** The destructor of the stack that the move constructor built from such
    a stack deletes the list through [head] and then its first node again
    through [garbage]: undefined behaviour. *)
Theorem stack_dtor_after_move_faults (s : Stack.state)
    (v : Stack.T) (vals : list Stack.T) (fuel : nat) :
  StackSpec.holds s (v :: vals) ->
  length vals < fuel ->
  Stack.dtor fuel
    (Stack.State (Stack.mem s) (fst (Stack.move_ctor (Stack.self s))) (Stack.history s))
  = Fault.
Proof.
  intros Hs Hfuel.
  apply (StackFacts.dtor_moved_to fuel s v vals (Stack.Mk None None None 0) Hs Hfuel).
Qed.

Lemma stack_dtor_after_move_faults_witness :
  Stack.dtor 2
    (Stack.State (Stack.mem small_stack) (fst (Stack.move_ctor (Stack.self small_stack)))
       (Stack.history small_stack))
  = Fault.
Proof.
  apply (stack_dtor_after_move_faults small_stack 2%Z [1%Z] 2).
  - exact small_stack_holds.
  - simpl. lia.
Defined.

(** What the move constructor leaves of its source, when the source has
    at least one hazard slot: [hazard_arr] is null and [hazard_max_size]
    is as it was, so [pop] on the source indexes a null array: undefined
    behaviour. *)
Theorem stack_pop_moved_from_faults (other : Stack.Stack_TS)
    (m : gmap addr Stack.node) (hist : list Stack.disposal)
    (tid : Stack.thread_id_t) (fuel : nat) :
  0 < Stack.hazard_max_size other ->
  Stack.pop (S fuel) tid (Stack.State m (snd (Stack.move_ctor other)) hist) = Fault.
Proof.
  intros Hother.
  apply (StackFacts.pop_moved_from fuel tid m hist (Stack.Mk None None None 0)).
  exact Hother.
Qed.

Lemma stack_pop_moved_from_faults_witness :
  Stack.pop 1 (Some 0) (Stack.State source_mem (snd (Stack.move_ctor source_stack)) [])
  = Fault.
Proof.
  apply (stack_pop_moved_from_faults source_stack source_mem [] (Some 0) 0).
  simpl. lia.
Defined.

(** The move constructor, given an empty stack that no operation is
    running on, builds a stack on which any calls by one thread answer as
    a last-in first-out list does. *)
Theorem stack_moved_empty_is_lifo (alloc : gmap addr Stack.node -> addr)
    (s : Stack.state) (tid : Stack.thread_id_t)
    (calls : list StackSpec.call) (fuel : nat) :
  (forall m, m !! alloc m = None) ->
  StackSpec.holds s [] ->
  exists s',
    StackSpec.run alloc (S fuel) tid calls
      (Stack.State (Stack.mem s) (fst (Stack.move_ctor (Stack.self s))) (Stack.history s))
    = Ret (StackSpec.lifo calls []) s'.
Proof.
  intros Hfresh (Hchain & Hg & Hsz & Hhz).
  assert (Hmoved :
    StackSpec.holds
      (Stack.State (Stack.mem s) (fst (Stack.move_ctor (Stack.self s))) (Stack.history s))
      []).
  { simpl in Hchain. repeat split; cbn; auto. }
  pose proof (StackFacts.run_lifo alloc Hfresh fuel tid calls _ [] Hmoved) as H.
  apply wp_Ret in H as (rs & s' & Hr & ->). exists s'. exact Hr.
Qed.

Lemma stack_moved_empty_is_lifo_witness :
  exists s',
    StackSpec.run alloc0 1 (Some 0) [StackSpec.Push 1%Z; StackSpec.Pop; StackSpec.Pop]
      (Stack.State ∅ (fst (Stack.move_ctor (Stack.ctor 2))) [])
    = Ret (StackSpec.lifo [StackSpec.Push 1%Z; StackSpec.Pop; StackSpec.Pop] []) s'.
Proof.
  apply (stack_moved_empty_is_lifo alloc0 (Stack.State ∅ (Stack.ctor 2) [])
           (Some 0) [StackSpec.Push 1%Z; StackSpec.Pop; StackSpec.Pop] 0).
  - intros m. apply alloc0_fresh.
  - split; [reflexivity|]. split; [reflexivity|]. split; [simpl; lia|reflexivity].
Defined.
